(** * Kernel Universe: the simulation engine, embedded and verified

    A shallow embedding of [kernel_universe/simulation.py], of the part of
    [kernel_universe/config.py] it reads, of [run_headless] of
    [kernel_universe/cli.py] and of the control endpoint of
    [kernel_universe/server.py].

    - Python [int]s are [Z]; NumPy [float64] cells are read as exact
      rationals [Q] (rounding is outside the model).
    - A 2-D NumPy array is a list of rows, [list (list Q)]; [a[y, x]] is row
      [y], column [x].
    - [np.random.RandomState] is an interface ([RandomStream]): the engine
      only needs a seeded state, one uniform double at a time and
      [randint(lo, hi)].
    - Code that can raise returns [res]: [Ok], [Raise] with the Python
      exception, or [Timeout] when a loop of the model ran out of fuel (the
      two loops of the source whose trip count is not fixed on entry).
    - The module [config] is global and mutable.  The engine reads it on
      every call, so every operation takes the values it reads as a [Config];
      [set_parameter] acts on the module object: its namespace, a finite map
      from names to Python values, and the attributes it has through its
      type. *)

From Stdlib Require Import ZArith QArith Lia List Sorted Lqa.
From stdpp Require Import base list gmap strings.

Open Scope Z_scope.

(** ** Exceptions and the result monad *)

Inductive exn : Type :=
| IndexError | ValueError | ZeroDivisionError | TypeError | AttributeError.

Inductive res (A : Type) : Type :=
| Ok (a : A)
| Raise (e : exn)
| Timeout.

Arguments Ok {A} a.
Arguments Raise {A} e.
Arguments Timeout {A}.

#[global] Instance res_ret : MRet res := fun A a => Ok a.
#[global] Instance res_bind : MBind res := fun A B f m =>
  match m with
  | Ok a => f a
  | Raise e => Raise e
  | Timeout => Timeout
  end.

(** A [for] loop over a list whose body threads a state and may raise. *)
Fixpoint for_each {A S : Type} (l : list A) (body : A -> S -> res S) (s : S)
  : res S :=
  match l with
  | [] => Ok s
  | a :: l' => s' ← body a s; for_each l' body s'
  end.

(** Python's [range(n)]: empty when [n <= 0]. *)
Definition range (n : Z) : list nat := seq 0 (Z.to_nat n).

(** ** NumPy arrays over exact rationals *)

Definition qsum (l : list Q) : Q := foldr Qplus 0%Q l.

(** [np.sum] of a 2-D array. *)
Definition np_sum (g : list (list Q)) : Q := qsum (map qsum g).

Definition np_zeros (rows cols : nat) : list (list Q) :=
  replicate rows (replicate cols 0%Q).

Definition zeros_like (g : list (list Q)) : list (list Q) :=
  map (fun row => replicate (length row) 0%Q) g.

Definition same_shape (a b : list (list Q)) : bool :=
  bool_decide (map length a = map length b).

(** Elementwise binary operation on two arrays of one shape. *)
Definition np_zip (f : Q -> Q -> Q) (a b : list (list Q)) : res (list (list Q)) :=
  if same_shape a b then Ok (zip_with (zip_with f) a b) else Raise ValueError.

Definition np_scale (c : Q) (a : list (list Q)) : list (list Q) :=
  map (map (fun v => (v * c)%Q)) a.

(** [np.roll(row, 1)]: the last element comes first. *)
Definition roll1 {A : Type} (l : list A) : list A :=
  drop (length l - 1)%nat l ++ take (length l - 1)%nat l.

(** [np.roll(a, 1, axis=1)]. *)
Definition np_roll_cols (g : list (list Q)) : list (list Q) := map roll1 g.

(** A NumPy index on an axis of [n] entries: [0 .. n-1] as they are,
    [-n .. -1] counted from the end, everything else is an [IndexError]. *)
Definition np_index (n : nat) (i : Z) : res nat :=
  if bool_decide (0 <= i < Z.of_nat n) then Ok (Z.to_nat i)
  else if bool_decide (- Z.of_nat n <= i < 0) then Ok (Z.to_nat (Z.of_nat n + i))
  else Raise IndexError.

(** [g[y, x]] *)
Definition grid_get (g : list (list Q)) (y x : Z) : res Q :=
  i ← np_index (length g) y;
  match g !! i with
  | None => Raise IndexError
  | Some row =>
      j ← np_index (length row) x;
      match row !! j with
      | None => Raise IndexError
      | Some v => Ok v
      end
  end.

(** [g[i, j] = v] for indices from a [range]. *)
Definition grid_set (g : list (list Q)) (i j : nat) (v : Q) : res (list (list Q)) :=
  match g !! i with
  | None => Raise IndexError
  | Some row =>
      if bool_decide (j < length row)%nat then Ok (<[i := <[j := v]> row]> g)
      else Raise IndexError
  end.

(** An array without rows, or with a row without columns. *)
Definition has_empty_axis (g : list (list Q)) : bool :=
  match g with
  | [] => true
  | _ => existsb (fun row => bool_decide (length row = 0%nat)) g
  end.

(** [g[:, 0] = v]: [v] has one entry per row, or a single entry that is
    broadcast.  A grid of the engine is square, so one without rows has no
    column 0 either. *)
Definition set_column0 (g : list (list Q)) (v : list Q) : res (list (list Q)) :=
  if has_empty_axis g then Raise IndexError
  else if bool_decide (length v = length g) then
    Ok (zip_with (fun row x => x :: tail row) g v)
  else match v with
       | [x] => Ok (map (fun row => x :: tail row) g)
       | _ => Raise ValueError
       end.

(** [np.pad(l, pw, mode='wrap')] on one axis: the periodic extension of [l],
    [padded[p] = l[(p - pw) mod n]]. *)
Definition pad_wrap {A : Type} (d : A) (pw : nat) (l : list A) : list A :=
  map (fun p => nth ((p + (length l - pw mod length l)) mod length l)%nat l d)
      (seq 0 (length l + 2 * pw)).

(** [np.pad(g, pw, mode='wrap')] on both axes; an empty axis cannot be
    extended. *)
Definition np_pad_wrap (pw : nat) (g : list (list Q)) : res (list (list Q)) :=
  if bool_decide (pw = 0)%nat then Ok g
  else if has_empty_axis g then Raise ValueError
  else Ok (pad_wrap [] pw (map (pad_wrap 0%Q pw) g)).

(** [a[i:i+h, j:j+w]]: slices clip silently. *)
Definition np_slice (a : list (list Q)) (i h j w : nat) : list (list Q) :=
  map (fun row => take w (drop j row)) (take h (drop i a)).

(** [np.sum(window * kernel)] for operands of one shape (broadcasting of
    unequal shapes is not modelled: it is an error). *)
Definition sum_product (window kernel : list (list Q)) : res Q :=
  prod ← np_zip Qmult window kernel; Ok (np_sum prod).

(** ** The random stream

    [np.random.RandomState(seed)], [rng.random()] and [rng.randint(lo, hi)]
    over a type [rng_state] of generator states.  The generator itself
    (NumPy's MT19937) is not part of the repository: the engine is verified
    against this interface. *)

Class RandomStream (rng_state : Type) : Type := {
  RandomState : Z -> rng_state;
  rng_random : rng_state -> Q * rng_state;
  rng_randint : Z -> Z -> rng_state -> Z * rng_state;
  rng_random_range : forall s, (0 <= (rng_random s).1)%Q /\ ((rng_random s).1 < 1)%Q;
  rng_randint_range : forall lo hi s,
      lo < hi -> lo <= (rng_randint lo hi s).1 < hi
}.

(** ** Configuration: what the engine reads from [config]. *)

Record Config : Type := {
  GRID_SIZE : Z;
  C_THRESH : Q;
  EMIT_FRACTION : Q;
  KERNEL_3x3 : list (list Q);
  ADVECT_ALPHA : Q;
  T_MIN : Q;
  T_MAX : Q;
  TAU_TEMP : Z;
  TAU_REFRACT : Z;
  SPAWN_S : Z;
  RNG_SEED : Z;
  INITIAL_CORES : Z
}.

(** The values of [config.py]. *)
Definition default_config : Config := {|
  GRID_SIZE := 100;
  C_THRESH := 2 # 10;
  EMIT_FRACTION := 6 # 10;
  KERNEL_3x3 := [[5 # 100; 10 # 100; 5 # 100];
                 [10 # 100; 40 # 100; 10 # 100];
                 [5 # 100; 10 # 100; 5 # 100]]%Q;
  ADVECT_ALPHA := 5 # 100;
  T_MIN := 40 # 100;
  T_MAX := 55 # 100;
  TAU_TEMP := 8;
  TAU_REFRACT := 12;
  SPAWN_S := 2;
  RNG_SEED := 42;
  INITIAL_CORES := 10
|}.

(** ** Core *)

Module Core.

Record t : Type := {
  x : Z;
  y : Z;
  temp_exposure_count : Z;
  bloomed : bool;
  refractory_countdown : Z;
  total_blooms : Z;
  last_bloom_tick : Z
}.

(** [Core.__init__] *)
Definition new (x0 y0 : Z) : t := {|
  x := x0; y := y0;
  temp_exposure_count := 0;
  bloomed := false;
  refractory_countdown := 0;
  total_blooms := 0;
  last_bloom_tick := -1
|}.

(** [config.T_MIN <= temperature <= config.T_MAX] *)
Definition in_range (cfg : Config) (temperature : Q) : bool :=
  Qle_bool (T_MIN cfg) temperature && Qle_bool temperature (T_MAX cfg).

(** [Core.update]: the core after the call, and the value returned.  The
    three exits of the method are the three records below: the early return
    of the refractory period (which leaves [bloomed] as it is), the bloom,
    and the fall-through [return self.bloomed] with [bloomed] reset. *)
Definition update (cfg : Config) (c : t) (tick : Z) (temperature catalyst : Q)
    (emit_mode : bool) : t * bool :=
  if 0 <? refractory_countdown c then
    ({| x := x c; y := y c;
        temp_exposure_count := temp_exposure_count c;
        bloomed := bloomed c;
        refractory_countdown := refractory_countdown c - 1;
        total_blooms := total_blooms c;
        last_bloom_tick := last_bloom_tick c |}, false)
  else
    let exposure :=
      if in_range cfg temperature then temp_exposure_count c + 1 else 0 in
    if emit_mode && Qle_bool (C_THRESH cfg) catalyst && (TAU_TEMP cfg <=? exposure)
    then
      ({| x := x c; y := y c;
          temp_exposure_count := 0;
          bloomed := true;
          refractory_countdown := TAU_REFRACT cfg;
          total_blooms := total_blooms c + 1;
          last_bloom_tick := tick |}, true)
    else
      ({| x := x c; y := y c;
          temp_exposure_count := exposure;
          bloomed := false;
          refractory_countdown := refractory_countdown c;
          total_blooms := total_blooms c;
          last_bloom_tick := last_bloom_tick c |}, false).

End Core.

(** ** KernelUniverseSimulation *)

Section Simulation.

Context {rng_state : Type} {RS : RandomStream rng_state}.

(** The attributes of a [KernelUniverseSimulation], but for [start_time],
    the wall-clock time of the last [reset], which only [get_state] reads. *)
Record Simulation : Type := {
  seed : Z;
  rng : rng_state;
  tick : Z;
  temperature : list (list Q);
  catalyst_upper : list (list Q);
  catalyst_lower : list (list Q);
  cores : list Core.t;
  total_blooms : Z;
  bloom_locations : list (Z * Z * Z)
}.

(** What [step] returns. *)
Record StepStats : Type := {
  stats_tick : Z;
  stats_emit_mode : bool;
  stats_blooms_this_tick : Z;
  stats_total_blooms : Z;
  stats_total_catalyst : Q
}.

(** [rng.randint(lo, hi)]: NumPy refuses an empty interval. *)
Definition randint (lo hi : Z) (r : rng_state) : res (Z * rng_state) :=
  if lo <? hi then Ok (rng_randint lo hi r) else Raise ValueError.

(** [rng.random(n)] for a natural [n]: [n] draws, in order. *)
Fixpoint random_vector (n : nat) (r : rng_state) : list Q * rng_state :=
  match n with
  | O => ([], r)
  | S n' =>
      let '(v, r1) := rng_random r in
      let '(vs, r2) := random_vector n' r1 in
      (v :: vs, r2)
  end.

(** [rng.random((rows, cols))]: filled row by row. *)
Fixpoint random_grid (rows cols : nat) (r : rng_state)
  : list (list Q) * rng_state :=
  match rows with
  | O => ([], r)
  | S rows' =>
      let '(row, r1) := random_vector cols r in
      let '(g, r2) := random_grid rows' cols r1 in
      (row :: g, r2)
  end.

(** A shape with a negative entry is a [ValueError]. *)
Definition rng_random_n (n : Z) (r : rng_state) : res (list Q * rng_state) :=
  if n <? 0 then Raise ValueError else Ok (random_vector (Z.to_nat n) r).

Definition rng_random_nn (n : Z) (r : rng_state)
  : res (list (list Q) * rng_state) :=
  if n <? 0 then Raise ValueError
  else Ok (random_grid (Z.to_nat n) (Z.to_nat n) r).

(** [initialize_cores]: the inner [while True] loop, which draws positions
    until one is not in [positions] (a Python set, of which the loop only
    asks membership: a list here).  [fuel] bounds the number of draws. *)
Fixpoint draw_free_position (fuel : nat) (cfg : Config)
    (positions : list (Z * Z)) (r : rng_state) : res (Z * Z * rng_state) :=
  match fuel with
  | O => Timeout
  | S fuel' =>
      '(x, r1) ← randint 0 (GRID_SIZE cfg) r;
      '(y, r2) ← randint 0 (GRID_SIZE cfg) r1;
      if bool_decide ((x, y) ∈ positions)
      then draw_free_position fuel' cfg positions r2
      else Ok (x, y, r2)
  end.

(** [initialize_cores(num_cores)], as the loop state
    [(positions, self.cores, self.rng)]. *)
Definition initialize_cores (fuel : nat) (cfg : Config) (num_cores : Z)
    (cs : list Core.t) (r : rng_state) : res (list Core.t * rng_state) :=
  '(_, cs', r') ←
    for_each (range num_cores)
      (fun _ '(positions, cs, r) =>
         '(x, y, r') ← draw_free_position fuel cfg positions r;
         Ok ((x, y) :: positions, cs ++ [Core.new x y], r'))
      ([], cs, r);
  Ok (cs', r').

(** [reset]: every field but [seed] and [rng] is rebuilt, from draws of the
    stream the instance already holds. *)
Definition reset (fuel : nat) (cfg : Config) (s : Simulation) : res Simulation :=
  '(temp, r1) ← rng_random_nn (GRID_SIZE cfg) (rng s);
  let lower := np_zeros (Z.to_nat (GRID_SIZE cfg)) (Z.to_nat (GRID_SIZE cfg)) in
  '(u, r2) ← rng_random_nn (GRID_SIZE cfg) r1;
  let upper := np_scale (2 # 10) u in
  '(cs, r3) ← initialize_cores fuel cfg (INITIAL_CORES cfg) [] r2;
  Ok {| seed := seed s; rng := r3; tick := 0;
        temperature := temp;
        catalyst_upper := upper;
        catalyst_lower := lower;
        cores := cs;
        total_blooms := 0;
        bloom_locations := [] |}.

(** [KernelUniverseSimulation(seed)]: seed the stream, then [reset].  The
    fields [reset] overwrites have no value yet. *)
Definition init (fuel : nat) (cfg : Config) (seed0 : option Z) : res Simulation :=
  let sd := match seed0 with Some sd => sd | None => RNG_SEED cfg end in
  reset fuel cfg
    {| seed := sd; rng := RandomState sd; tick := 0;
       temperature := []; catalyst_upper := []; catalyst_lower := [];
       cores := []; total_blooms := 0; bloom_locations := [] |}.

(** [shift_temperature] *)
Definition shift_temperature (cfg : Config) (s : Simulation) : res Simulation :=
  let rolled := np_roll_cols (temperature s) in
  '(column, r) ← rng_random_n (GRID_SIZE cfg) (rng s);
  temp ← set_column0 rolled column;
  Ok {| seed := seed s; rng := r; tick := tick s;
        temperature := temp;
        catalyst_upper := catalyst_upper s;
        catalyst_lower := catalyst_lower s;
        cores := cores s;
        total_blooms := total_blooms s;
        bloom_locations := bloom_locations s |}.

(** [apply_convolution]: [output] starts as zeros and is filled cell by cell
    over [range(GRID_SIZE)] on both axes. *)
Definition apply_convolution (cfg : Config) (input_array kernel : list (list Q))
  : res (list (list Q)) :=
  let output := zeros_like input_array in
  let kh := length kernel in
  let kw := length (hd [] kernel) in
  let pad_width := (kh / 2)%nat in
  padded ← np_pad_wrap pad_width input_array;
  for_each (range (GRID_SIZE cfg))
    (fun i output =>
       for_each (range (GRID_SIZE cfg))
         (fun j output =>
            let window := np_slice padded i kh j kw in
            v ← sum_product window kernel;
            grid_set output i j v)
         output)
    output.

(** [advect_right]: [(1 - alpha) * array + alpha * np.roll(array, 1, axis=1)] *)
Definition advect_right (array : list (list Q)) (alpha : Q) : res (list (list Q)) :=
  let shifted := np_roll_cols array in
  np_zip Qplus (np_scale (1 - alpha) array) (np_scale alpha shifted).

(** [spawn_new_cores] *)
Definition spawn_new_cores (cfg : Config) (parent_x parent_y count : Z)
    (cs : list Core.t) (r : rng_state) : res (list Core.t * rng_state) :=
  for_each (range count)
    (fun _ '(cs, r) =>
       '(dx, r1) ← randint (-5) 6 r;
       '(dy, r2) ← randint (-5) 6 r1;
       if GRID_SIZE cfg =? 0 then Raise ZeroDivisionError else
       let new_x := (parent_x + dx) mod GRID_SIZE cfg in
       let new_y := (parent_y + dy) mod GRID_SIZE cfg in
       Ok (cs ++ [Core.new new_x new_y], r2))
    (cs, r).

(** The catalyst part of [step]. *)
Definition emit_transform (cfg : Config) (upper lower : list (list Q))
  : res (list (list Q) * list (list Q)) :=
  let transfer := np_scale (EMIT_FRACTION cfg) upper in
  lower' ← np_zip Qplus lower transfer;
  upper' ← np_zip Qminus upper transfer;
  Ok (upper', lower').

Definition collect_transform (cfg : Config) (upper lower : list (list Q))
  : res (list (list Q) * list (list Q)) :=
  upper1 ← np_zip Qplus upper lower;
  let lower' := zeros_like lower in
  upper2 ← apply_convolution cfg upper1 (KERNEL_3x3 cfg);
  upper3 ← advect_right upper2 (ADVECT_ALPHA cfg);
  Ok (upper3, lower').

(** The body of the loop [for core in self.cores] of [step], for the core
    at index [i] of the list. *)
Definition update_core_at (cfg : Config) (emit_mode : bool) (i : nat)
    (core : Core.t) (blooms_this_tick : Z) (s : Simulation)
  : res (Z * Simulation) :=
  let x := Core.x core in
  let y := Core.y core in
  temperature_at_core ← grid_get (temperature s) y x;
  catalyst_at_core ← grid_get (catalyst_upper s) y x;
  let '(core', did_bloom) :=
    Core.update cfg core (tick s) temperature_at_core catalyst_at_core
                emit_mode in
  let cs := <[i := core']> (cores s) in
  if did_bloom then
    '(cs', r) ←
      (if 0 <? SPAWN_S cfg
       then spawn_new_cores cfg x y (SPAWN_S cfg) cs (rng s)
       else Ok (cs, rng s));
    Ok (blooms_this_tick + 1,
        {| seed := seed s; rng := r; tick := tick s;
           temperature := temperature s;
           catalyst_upper := catalyst_upper s;
           catalyst_lower := catalyst_lower s;
           cores := cs';
           total_blooms := total_blooms s + 1;
           bloom_locations := bloom_locations s ++ [(x, y, tick s)] |})
  else
    Ok (blooms_this_tick,
        {| seed := seed s; rng := rng s; tick := tick s;
           temperature := temperature s;
           catalyst_upper := catalyst_upper s;
           catalyst_lower := catalyst_lower s;
           cores := cs;
           total_blooms := total_blooms s;
           bloom_locations := bloom_locations s |}).

(** The loop [for core in self.cores] of [step].  A Python list iterator
    holds an index into the live list and stops when the index reaches the
    list's current length, so cores appended by [spawn_new_cores] while the
    loop runs are visited by the same loop.  [i] is the iterator's index,
    [fuel] bounds the number of cores visited. *)
Fixpoint update_cores (fuel : nat) (cfg : Config) (emit_mode : bool) (i : nat)
    (blooms_this_tick : Z) (s : Simulation) : res (Z * Simulation) :=
  match cores s !! i with
  | None => Ok (blooms_this_tick, s)
  | Some core =>
      match fuel with
      | O => Timeout
      | S fuel' =>
          '(blooms, s') ← update_core_at cfg emit_mode i core blooms_this_tick s;
          update_cores fuel' cfg emit_mode (S i) blooms s'
      end
  end.

(** [step], up to the loop over the cores: the tick counter, the
    temperature scroll and the catalyst transform of the tick's mode. *)
Definition step_fields (cfg : Config) (s : Simulation) : res (bool * Simulation) :=
  let tick' := tick s + 1 in
  let emit_mode := tick' mod 2 =? 0 in
  s1 ← shift_temperature cfg s;
  '(upper, lower) ←
    (if emit_mode
     then emit_transform cfg (catalyst_upper s1) (catalyst_lower s1)
     else collect_transform cfg (catalyst_upper s1) (catalyst_lower s1));
  Ok (emit_mode,
      {| seed := seed s1; rng := rng s1; tick := tick';
         temperature := temperature s1;
         catalyst_upper := upper;
         catalyst_lower := lower;
         cores := cores s1;
         total_blooms := total_blooms s1;
         bloom_locations := bloom_locations s1 |}).

(** [step]: the simulation after the tick and the statistics returned. *)
Definition step (fuel : nat) (cfg : Config) (s : Simulation)
  : res (Simulation * StepStats) :=
  '(emit_mode, s1) ← step_fields cfg s;
  '(blooms_this_tick, s2) ← update_cores fuel cfg emit_mode 0 0 s1;
  let total_catalyst :=
    (np_sum (catalyst_upper s2) + np_sum (catalyst_lower s2))%Q in
  Ok (s2, {| stats_tick := tick s2;
             stats_emit_mode := emit_mode;
             stats_blooms_this_tick := blooms_this_tick;
             stats_total_blooms := total_blooms s2;
             stats_total_catalyst := total_catalyst |}).

(** [k] calls of [step] in a row (the loop of [cli.run_headless]), with the
    statistics of each call in order. *)
Fixpoint run (fuel : nat) (cfg : Config) (k : nat) (s : Simulation)
  : res (Simulation * list StepStats) :=
  match k with
  | O => Ok (s, [])
  | S k' =>
      '(s1, st) ← step fuel cfg s;
      '(s2, sts) ← run fuel cfg k' s1;
      Ok (s2, st :: sts)
  end.

End Simulation.
(** ** The module [config] as an object, and [set_parameter] *)

(** The Python values a module attribute can hold, as far as the engine and
    its callers look at them.  [PyObject] stands for any other object that
    is neither a class nor callable (a module, a loader, a dict). *)
Inductive pyvalue : Type :=
| PyInt (n : Z)
| PyFloat (q : Q)
| PyStr (str : string)
| PyArray (a : list (list Q))
| PyObject (repr : string).

(** A module object has the names bound in its namespace (its [__dict__]),
    and the attributes of its type.  To an assignment, an attribute of the
    type is a descriptor that refuses it with an exception, or something the
    assignment puts a binding of the namespace in front of (a method, or a
    descriptor that stores in the namespace). *)
Inductive type_attribute : Type :=
| Refused (e : exn)
| Rebindable.

(** The attributes of the type of a module object in CPython 3.11, that is
    [dir(types.ModuleType)]: [__class__] and [__dict__] cannot be assigned a
    [pyvalue], all others can. *)
Definition cpython_module_type (name : string) : option type_attribute :=
  if bool_decide (name = "__class__") then Some (Refused TypeError)
  else if bool_decide (name = "__dict__") then Some (Refused AttributeError)
  else if bool_decide
            (name ∈ ["__annotations__"; "__delattr__"; "__dir__"; "__doc__";
                     "__eq__"; "__format__"; "__ge__"; "__getattribute__";
                     "__getstate__"; "__gt__"; "__hash__"; "__init__";
                     "__init_subclass__"; "__le__"; "__lt__"; "__ne__";
                     "__new__"; "__reduce__"; "__reduce_ex__"; "__repr__";
                     "__setattr__"; "__sizeof__"; "__str__";
                     "__subclasshook__"])
  then Some Rebindable
  else None.

(** The namespace of the module [config] once it has been imported from the
    source file [file], with its byte code cached in [cached]: the names
    [config.py] binds (its import of [numpy] and its docstring included) and
    the names the import system binds in every module. *)
Definition config_module (file cached : string) : gmap string pyvalue :=
  list_to_map
    [("__name__", PyStr "kernel_universe.config");
     ("__doc__", PyStr "
Configuration parameters for the Kernel Universe simulation.
");
     ("__package__", PyStr "kernel_universe");
     ("__loader__", PyObject "SourceFileLoader");
     ("__spec__", PyObject "ModuleSpec");
     ("__file__", PyStr file);
     ("__cached__", PyStr cached);
     ("__builtins__", PyObject "dict of the builtins");
     ("np", PyObject "module numpy");
     ("GRID_SIZE", PyInt 100);
     ("DAY_TICKS", PyInt 100);
     ("C_THRESH", PyFloat (2 # 10));
     ("EMIT_FRACTION", PyFloat (6 # 10));
     ("KERNEL_3x3", PyArray (KERNEL_3x3 default_config));
     ("ADVECT_ALPHA", PyFloat (5 # 100));
     ("T_MIN", PyFloat (40 # 100));
     ("T_MAX", PyFloat (55 # 100));
     ("TAU_TEMP", PyInt 8);
     ("TAU_CATALYST", PyInt 12);
     ("TAU_REFRACT", PyInt 12);
     ("SPAWN_S", PyInt 2);
     ("RNG_SEED", PyInt 42);
     ("INITIAL_CORES", PyInt 10);
     ("REDIS_URL", PyStr "redis://localhost:6379");
     ("REDIS_STATE_KEY", PyStr "kernel_universe:state");
     ("API_HOST", PyStr "0.0.0.0");
     ("API_PORT", PyInt 8000);
     ("STREAM_FPS", PyInt 5)].

(** [hasattr(config, name)]: the attribute is found on the type or in the
    namespace; failing both, a module-level [__getattr__] is called, and a
    [pyvalue] bound to that name is not callable. *)
Definition hasattr (module_type : string -> option type_attribute)
    (ns : gmap string pyvalue) (name : string) : res bool :=
  if bool_decide (is_Some (module_type name))
     || bool_decide (is_Some (ns !! name))
  then Ok true
  else match ns !! "__getattr__" with
       | None => Ok false
       | Some _ => Raise TypeError
       end.

(** [setattr(config, name, value)]: a descriptor of the type that refuses
    the assignment raises; otherwise the name is bound in the namespace. *)
Definition setattr (module_type : string -> option type_attribute)
    (ns : gmap string pyvalue) (name : string) (value : pyvalue)
  : res (gmap string pyvalue) :=
  match module_type name with
  | Some (Refused e) => Raise e
  | _ => Ok (<[name := value]> ns)
  end.

(** [set_parameter]: the namespace of [config] after the call, and the value
    returned. *)
Definition set_parameter (module_type : string -> option type_attribute)
    (ns : gmap string pyvalue) (param_name : string) (value : pyvalue)
  : res (gmap string pyvalue * bool) :=
  found ← hasattr module_type ns param_name;
  if found : bool then
    ns' ← setattr module_type ns param_name value;
    Ok (ns', true)
  else Ok (ns, false).

(** What an engine call reads from the namespace. *)
Definition read_int (ns : gmap string pyvalue) (name : string) : option Z :=
  match ns !! name with Some (PyInt n) => Some n | _ => None end.

Definition read_float (ns : gmap string pyvalue) (name : string) : option Q :=
  match ns !! name with
  | Some (PyFloat q) => Some q
  | Some (PyInt n) => Some (inject_Z n)
  | _ => None
  end.

Definition read_array (ns : gmap string pyvalue) (name : string)
  : option (list (list Q)) :=
  match ns !! name with Some (PyArray a) => Some a | _ => None end.

Definition engine_config (ns : gmap string pyvalue) : option Config :=
  grid_size ← read_int ns "GRID_SIZE";
  c_thresh ← read_float ns "C_THRESH";
  emit_fraction ← read_float ns "EMIT_FRACTION";
  kernel ← read_array ns "KERNEL_3x3";
  advect_alpha ← read_float ns "ADVECT_ALPHA";
  t_min ← read_float ns "T_MIN";
  t_max ← read_float ns "T_MAX";
  tau_temp ← read_int ns "TAU_TEMP";
  tau_refract ← read_int ns "TAU_REFRACT";
  spawn_s ← read_int ns "SPAWN_S";
  rng_seed ← read_int ns "RNG_SEED";
  initial_cores ← read_int ns "INITIAL_CORES";
  Some {| GRID_SIZE := grid_size; C_THRESH := c_thresh;
          EMIT_FRACTION := emit_fraction; KERNEL_3x3 := kernel;
          ADVECT_ALPHA := advect_alpha; T_MIN := t_min; T_MAX := t_max;
          TAU_TEMP := tau_temp; TAU_REFRACT := tau_refract;
          SPAWN_S := spawn_s; RNG_SEED := rng_seed;
          INITIAL_CORES := initial_cores |}.

(** * Verification *)

(** A linear congruential generator: a concrete stream to run the engine on. *)
Module LCG.

Definition modulus : Z := 2147483648.

Definition next (s : Z) : Z := (1103515245 * s + 12345) mod modulus.

Definition random (s : Z) : Q * Z := (next s # 2147483648, next s).

Definition randint (lo hi s : Z) : Z * Z :=
  (lo + (next s / 65536) mod (hi - lo), next s).

Lemma next_range s : 0 <= next s < modulus.
Proof. unfold next, modulus. apply Z.mod_pos_bound. lia. Qed.

Lemma random_range s : (0 <= (random s).1)%Q /\ ((random s).1 < 1)%Q.
Proof.
  pose proof (next_range s) as H. unfold modulus in H. cbn [random fst].
  unfold Qle, Qlt. cbn. lia.
Qed.

Lemma randint_range lo hi s : lo < hi -> lo <= (randint lo hi s).1 < hi.
Proof.
  intros H. cbn [randint fst].
  pose proof (Z.mod_pos_bound (next s / 65536) (hi - lo)). lia.
Qed.

#[global] Instance stream : RandomStream Z := {|
  RandomState := fun seed => seed mod modulus;
  rng_random := random;
  rng_randint := randint;
  rng_random_range := random_range;
  rng_randint_range := randint_range
|}.

End LCG.

(** A 3 x 3 world with the physics of [config.py], small enough to run. *)
Definition small_config : Config := {|
  GRID_SIZE := 3;
  C_THRESH := 2 # 10;
  EMIT_FRACTION := 6 # 10;
  KERNEL_3x3 := KERNEL_3x3 default_config;
  ADVECT_ALPHA := 5 # 100;
  T_MIN := 40 # 100;
  T_MAX := 55 # 100;
  TAU_TEMP := 8;
  TAU_REFRACT := 12;
  SPAWN_S := 2;
  RNG_SEED := 42;
  INITIAL_CORES := 2
|}.

(** ** The core state machine *)

Lemma in_range_true cfg temperature :
  (T_MIN cfg <= temperature)%Q -> (temperature <= T_MAX cfg)%Q ->
  Core.in_range cfg temperature = true.
Proof.
  intros Hlo Hhi. unfold Core.in_range.
  apply andb_true_intro. split; by apply Qle_bool_iff.
Qed.

(** C6. A core out of its refractory period with [TAU_TEMP - 1] ticks of
    exposure, updated once more with an in-range temperature, in emit mode
    and with catalyst at or above [C_THRESH], blooms: [update] returns true,
    [bloomed] is set, [total_blooms] grows by one, [last_bloom_tick] is the
    tick passed, the refractory countdown is [TAU_REFRACT] and the exposure
    count is back to 0. *)
Theorem update_bloom_trigger cfg (c : Core.t) tick temperature catalyst :
  Core.refractory_countdown c = 0 ->
  Core.temp_exposure_count c = TAU_TEMP cfg - 1 ->
  (T_MIN cfg <= temperature)%Q ->
  (temperature <= T_MAX cfg)%Q ->
  (C_THRESH cfg <= catalyst)%Q ->
  let '(c', returned) := Core.update cfg c tick temperature catalyst true in
  returned = true /\
  Core.bloomed c' = true /\
  Core.total_blooms c' = Core.total_blooms c + 1 /\
  Core.last_bloom_tick c' = tick /\
  Core.refractory_countdown c' = TAU_REFRACT cfg /\
  Core.temp_exposure_count c' = 0 /\
  Core.x c' = Core.x c /\ Core.y c' = Core.y c.
Proof.
  intros Href Hexp Hlo Hhi Hcat. unfold Core.update.
  rewrite Href, Hexp. cbn [Z.ltb Z.compare].
  rewrite (in_range_true _ _ Hlo Hhi).
  replace (Qle_bool (C_THRESH cfg) catalyst) with true
    by (symmetry; by apply Qle_bool_iff).
  replace (TAU_TEMP cfg <=? TAU_TEMP cfg - 1 + 1) with true
    by (symmetry; apply Z.leb_le; lia).
  cbn. repeat split; reflexivity.
Qed.

Lemma update_bloom_trigger_witness :
  let c := {| Core.x := 4; Core.y := 7; Core.temp_exposure_count := 7;
              Core.bloomed := false; Core.refractory_countdown := 0;
              Core.total_blooms := 3; Core.last_bloom_tick := 20 |} in
  let '(c', returned) := Core.update default_config c 42 (2 # 5) (1 # 5) true in
  returned = true /\
  Core.bloomed c' = true /\
  Core.total_blooms c' = 3 + 1 /\
  Core.last_bloom_tick c' = 42 /\
  Core.refractory_countdown c' = 12 /\
  Core.temp_exposure_count c' = 0 /\
  Core.x c' = 4 /\ Core.y c' = 7.
Proof.
  exact (update_bloom_trigger default_config
           {| Core.x := 4; Core.y := 7; Core.temp_exposure_count := 7;
              Core.bloomed := false; Core.refractory_countdown := 0;
              Core.total_blooms := 3; Core.last_bloom_tick := 20 |}
           42 (2 # 5) (1 # 5)
           eq_refl eq_refl
           ltac:(vm_compute; discriminate) ltac:(vm_compute; discriminate)
           ltac:(vm_compute; discriminate)).
Defined.

(** X1.  What [update] does during the refractory period: the countdown
    drops by one and false is returned; nothing else is written, [bloomed]
    included. *)
Lemma update_refractory cfg (c : Core.t) tick temperature catalyst emit_mode :
  0 < Core.refractory_countdown c ->
  Core.update cfg c tick temperature catalyst emit_mode =
  ({| Core.x := Core.x c; Core.y := Core.y c;
      Core.temp_exposure_count := Core.temp_exposure_count c;
      Core.bloomed := Core.bloomed c;
      Core.refractory_countdown := Core.refractory_countdown c - 1;
      Core.total_blooms := Core.total_blooms c;
      Core.last_bloom_tick := Core.last_bloom_tick c |}, false).
Proof.
  intros H. unfold Core.update.
  replace (0 <? Core.refractory_countdown c) with true; [reflexivity|].
  symmetry. by apply Z.ltb_lt.
Qed.

Lemma update_refractory_witness :
  Core.update default_config
    {| Core.x := 1; Core.y := 2; Core.temp_exposure_count := 0;
       Core.bloomed := true; Core.refractory_countdown := 12;
       Core.total_blooms := 1; Core.last_bloom_tick := 16 |}
    17 (1 # 2) (3 # 10) false =
  ({| Core.x := 1; Core.y := 2; Core.temp_exposure_count := 0;
      Core.bloomed := true; Core.refractory_countdown := 12 - 1;
      Core.total_blooms := 1; Core.last_bloom_tick := 16 |}, false).
Proof.
  exact (update_refractory default_config
           {| Core.x := 1; Core.y := 2; Core.temp_exposure_count := 0;
              Core.bloomed := true; Core.refractory_countdown := 12;
              Core.total_blooms := 1; Core.last_bloom_tick := 16 |}
           17 (1 # 2) (3 # 10) false eq_refl).
Defined.

(** C3. The core that has just bloomed at tick 16 (seven ticks of exposure,
    then a qualifying update) is updated again at tick 17, with its
    refractory countdown at [TAU_REFRACT = 12 > 0]: the call returns false,
    takes the countdown to 11 and leaves the exposure count at 0, but
    [bloomed] is still true after it.  The early return of the refractory
    branch comes before the statement that resets [bloomed]. *)
Theorem update_refractory_leaves_bloomed_set :
  let c0 := {| Core.x := 1; Core.y := 2; Core.temp_exposure_count := 7;
               Core.bloomed := false; Core.refractory_countdown := 0;
               Core.total_blooms := 0; Core.last_bloom_tick := -1 |} in
  let '(c1, bloomed_at_16) :=
    Core.update default_config c0 16 (1 # 2) (3 # 10) true in
  let '(c2, bloomed_at_17) :=
    Core.update default_config c1 17 (1 # 2) (3 # 10) false in
  bloomed_at_16 = true /\
  Core.refractory_countdown c1 = 12 /\
  bloomed_at_17 = false /\
  Core.refractory_countdown c2 = 11 /\
  Core.temp_exposure_count c2 = Core.temp_exposure_count c1 /\
  Core.bloomed c2 = true.
Proof. vm_compute. repeat split; reflexivity. Qed.

(** ** [set_parameter] *)

Lemma hasattr_found module_type (ns : gmap string pyvalue) name :
  is_Some (module_type name) \/ is_Some (ns !! name) ->
  hasattr module_type ns name = Ok true.
Proof.
  unfold hasattr. intros [H|H].
  - by rewrite (bool_decide_eq_true_2 _ H).
  - rewrite (bool_decide_eq_true_2 _ H). by rewrite orb_true_r.
Qed.

Lemma hasattr_missing module_type (ns : gmap string pyvalue) name :
  module_type name = None -> ns !! name = None ->
  hasattr module_type ns name
  = match ns !! "__getattr__" with
    | None => Ok false
    | Some _ => Raise TypeError
    end.
Proof.
  unfold hasattr. intros Ht Hn. rewrite Ht, Hn.
  rewrite !bool_decide_eq_false_2; [reflexivity| |]; by intros [? ?].
Qed.

(** A name an assignment through [set_parameter] binds: a name of the
    namespace that is not an attribute of the type, or an attribute of the
    type that can be rebound. *)
Definition assignable (module_type : string -> option type_attribute)
    (ns : gmap string pyvalue) (name : string) : Prop :=
  (is_Some (ns !! name) /\ module_type name = None) \/
  module_type name = Some Rebindable.

Lemma set_parameter_assignable module_type ns name value :
  assignable module_type ns name ->
  set_parameter module_type ns name value = Ok (<[name := value]> ns, true).
Proof.
  intros H. unfold set_parameter.
  rewrite hasattr_found by (destruct H as [[H _]|H]; [by right|left; by rewrite H]).
  cbn [mbind res_bind]. unfold setattr.
  by destruct H as [[_ ->]| ->].
Qed.

Lemma set_parameter_unknown module_type ns name value :
  module_type name = None -> ns !! name = None ->
  ns !! "__getattr__" = None ->
  set_parameter module_type ns name value = Ok (ns, false).
Proof.
  intros Ht Hn Hhook. unfold set_parameter.
  by rewrite hasattr_missing, Hhook by assumption.
Qed.



(** The module as imported from an installation under [/srv]. *)
Definition installed_config : gmap string pyvalue :=
  config_module "/srv/kernel-universe/src/kernel_universe/config.py"
    "/srv/kernel-universe/src/kernel_universe/__pycache__/config.cpython-311.pyc".



(** ** Sums over lists and over index ranges *)

(** [bigsum n f] is [f 0 + ... + f (n-1)]. *)
Definition bigsum (n : nat) (f : nat -> Q) : Q := qsum (map f (seq 0 n)).

(** The cell [g[i, j]], 0 outside the array. *)
Definition cell (g : list (list Q)) (i j : nat) : Q := nth j (nth i g []) 0%Q.

(** An [n] x [n] array. *)
Definition square (n : nat) (g : list (list Q)) : Prop :=
  length g = n /\ Forall (fun row => length row = n) g.

Lemma qsum_nil : qsum [] = 0%Q.
Proof. reflexivity. Qed.

Lemma qsum_cons (v : Q) (l : list Q) : qsum (v :: l) = (v + qsum l)%Q.
Proof. reflexivity. Qed.

Lemma qsum_app (a b : list Q) : (qsum (a ++ b) == qsum a + qsum b)%Q.
Proof.
  induction a as [|v a IH]; cbn [app].
  - rewrite qsum_nil. ring.
  - rewrite !qsum_cons, IH. ring.
Qed.

Lemma qsum_zip_plus (a b : list Q) :
  length a = length b ->
  (qsum (zip_with Qplus a b) == qsum a + qsum b)%Q.
Proof.
  revert b. induction a as [|v a IH]; intros [|w b] Hlen;
    cbn [length zip_with] in *; try discriminate.
  - rewrite qsum_nil. ring.
  - rewrite !qsum_cons, IH by lia. ring.
Qed.

Lemma qsum_zip_minus (a b : list Q) :
  length a = length b ->
  (qsum (zip_with Qminus a b) == qsum a - qsum b)%Q.
Proof.
  revert b. induction a as [|v a IH]; intros [|w b] Hlen;
    cbn [length zip_with] in *; try discriminate.
  - rewrite qsum_nil. ring.
  - rewrite !qsum_cons, IH by lia. ring.
Qed.

Lemma qsum_scale (c : Q) (l : list Q) :
  (qsum (map (fun v => v * c) l) == qsum l * c)%Q.
Proof.
  induction l as [|v l IH]; cbn [map].
  - rewrite qsum_nil. ring.
  - rewrite !qsum_cons, IH. ring.
Qed.

Lemma qsum_roll1 (l : list Q) : (qsum (roll1 l) == qsum l)%Q.
Proof.
  unfold roll1. rewrite qsum_app.
  assert (qsum l == qsum (take (length l - 1) l) + qsum (drop (length l - 1) l))%Q
    as -> by (by rewrite <- qsum_app, take_drop).
  ring.
Qed.

Lemma bigsum_ext n (f g : nat -> Q) :
  (forall i, (i < n)%nat -> (f i == g i)%Q) -> (bigsum n f == bigsum n g)%Q.
Proof.
  unfold bigsum. induction n as [|n IH]; intros H; [reflexivity|].
  rewrite !seq_S, !map_app, !qsum_app. cbn [map Nat.add].
  rewrite !qsum_cons, !qsum_nil.
  rewrite IH, (H n) by (intros; try apply H; lia). reflexivity.
Qed.

Lemma bigsum_S n (f : nat -> Q) : (bigsum (S n) f == bigsum n f + f n)%Q.
Proof.
  unfold bigsum. rewrite seq_S, map_app, qsum_app. cbn [map Nat.add].
  rewrite qsum_cons, qsum_nil. ring.
Qed.

Lemma bigsum_S_first n (f : nat -> Q) :
  (bigsum (S n) f == f O + bigsum n (fun i => f (S i)))%Q.
Proof.
  unfold bigsum. cbn [seq map]. rewrite qsum_cons.
  rewrite <- seq_shift, map_map. reflexivity.
Qed.

Lemma bigsum_plus n (f g : nat -> Q) :
  (bigsum n (fun i => f i + g i) == bigsum n f + bigsum n g)%Q.
Proof.
  induction n as [|n IH]; [unfold bigsum; cbn [seq map]; rewrite qsum_nil; ring|].
  rewrite !bigsum_S, IH. ring.
Qed.

Lemma bigsum_scale n (f : nat -> Q) (c : Q) :
  (bigsum n (fun i => f i * c) == bigsum n f * c)%Q.
Proof.
  induction n as [|n IH]; [unfold bigsum; cbn [seq map]; rewrite qsum_nil; ring|].
  rewrite !bigsum_S, IH. ring.
Qed.

Lemma bigsum_0 (f : nat -> Q) : bigsum 0 f = 0%Q.
Proof. reflexivity. Qed.

Lemma bigsum_swap n m (f : nat -> nat -> Q) :
  (bigsum n (fun i => bigsum m (fun j => f i j))
   == bigsum m (fun j => bigsum n (fun i => f i j)))%Q.
Proof.
  induction n as [|n IH].
  - rewrite bigsum_0.
    induction m as [|m IHm]; [reflexivity|].
    rewrite bigsum_S, <- IHm, bigsum_0. ring.
  - rewrite bigsum_S, IH, <- bigsum_plus.
    apply bigsum_ext. intros j _. rewrite bigsum_S. reflexivity.
Qed.

(** A sum over a full period does not see a cyclic shift of the index. *)
Lemma bigsum_rotate1 n (f : nat -> Q) :
  (bigsum n (fun i => f (S i mod n)%nat) == bigsum n f)%Q.
Proof.
  destruct n as [|n]; [reflexivity|].
  rewrite bigsum_S, bigsum_S_first.
  rewrite Nat.Div0.mod_same.
  rewrite (bigsum_ext n (fun i => f (S i mod S n)%nat) (fun i => f (S i))).
  - ring.
  - intros i Hi. rewrite Nat.mod_small by lia. reflexivity.
Qed.

Lemma bigsum_shift n k (f : nat -> Q) :
  (bigsum n (fun i => f ((i + k) mod n)%nat) == bigsum n (fun i => f (i mod n)%nat))%Q.
Proof.
  induction k as [|k IH].
  - apply bigsum_ext. intros i _. by rewrite Nat.add_0_r.
  - rewrite <- IH.
    rewrite <- (bigsum_rotate1 n (fun i => f ((i + k) mod n)%nat)).
    apply bigsum_ext. intros i Hi.
    replace ((S i mod n + k) mod n)%nat with ((i + S k) mod n)%nat;
      [reflexivity|].
    rewrite Nat.Div0.add_mod_idemp_l. f_equal. lia.
Qed.

Lemma bigsum_cyclic n k (f : nat -> Q) :
  (bigsum n (fun i => f ((i + k) mod n)%nat) == bigsum n f)%Q.
Proof.
  rewrite bigsum_shift. apply bigsum_ext.
  intros i Hi. by rewrite Nat.mod_small.
Qed.

Lemma qsum_nth (l : list Q) :
  (qsum l == bigsum (length l) (fun i => nth i l 0%Q))%Q.
Proof.
  induction l as [|v l IH]; [reflexivity|].
  cbn [length]. rewrite bigsum_S_first, qsum_cons. cbn [nth].
  rewrite IH. reflexivity.
Qed.

Lemma np_sum_rows (g : list (list Q)) :
  (np_sum g == bigsum (length g) (fun i => qsum (nth i g [])))%Q.
Proof.
  unfold np_sum. induction g as [|row g IH]; [reflexivity|].
  cbn [length map]. rewrite bigsum_S_first, qsum_cons. cbn [nth].
  rewrite IH. reflexivity.
Qed.

Lemma square_row n g i :
  square n g -> (i < n)%nat -> length (nth i g []) = n.
Proof.
  intros [Hlen Hrows] Hi.
  rewrite Forall_forall in Hrows. apply Hrows.
  apply list_elem_of_In, nth_In. lia.
Qed.

Lemma np_sum_cells n (g : list (list Q)) :
  square n g ->
  (np_sum g == bigsum n (fun i => bigsum n (fun j => cell g i j)))%Q.
Proof.
  intros Hsq. rewrite np_sum_rows. destruct Hsq as [Hlen Hrows] eqn:E.
  rewrite Hlen. apply bigsum_ext. intros i Hi.
  rewrite qsum_nth, (square_row n g i) by (assumption || (split; assumption)).
  reflexivity.
Qed.

(** ** Shapes and totals of the array operations *)

Definition shape (g : list (list Q)) : list nat := map length g.

Lemma same_shape_true a b : same_shape a b = true <-> shape a = shape b.
Proof. unfold same_shape, shape. by rewrite bool_decide_eq_true. Qed.

Lemma shape_zip_with (f : Q -> Q -> Q) a b :
  shape a = shape b -> shape (zip_with (zip_with f) a b) = shape a.
Proof.
  unfold shape. revert b.
  induction a as [|ra a IH]; intros [|rb b] H; cbn in *; try discriminate;
    [reflexivity|].
  injection H as Hr Ht. rewrite length_zip_with, IH by assumption.
  f_equal. lia.
Qed.

Lemma shape_np_scale c a : shape (np_scale c a) = shape a.
Proof.
  unfold shape, np_scale. rewrite map_map. apply map_ext.
  intros row. apply length_map.
Qed.

Lemma length_roll1 {A} (l : list A) : length (roll1 l) = length l.
Proof. unfold roll1. rewrite length_app, length_drop, length_take. lia. Qed.

Lemma shape_np_roll_cols a : shape (np_roll_cols a) = shape a.
Proof.
  unfold shape, np_roll_cols. rewrite map_map. apply map_ext.
  intros row. apply length_roll1.
Qed.

Lemma shape_zeros_like a : shape (zeros_like a) = shape a.
Proof.
  unfold shape, zeros_like. rewrite map_map. apply map_ext.
  intros row. apply length_replicate.
Qed.

Lemma np_zip_Ok f a b r :
  np_zip f a b = Ok r ->
  shape a = shape b /\ r = zip_with (zip_with f) a b.
Proof.
  unfold np_zip. destruct (same_shape a b) eqn:E; [|discriminate].
  intros [= <-]. split; [by apply same_shape_true|reflexivity].
Qed.

Lemma np_zip_same_shape f a b :
  shape a = shape b -> np_zip f a b = Ok (zip_with (zip_with f) a b).
Proof.
  intros H. unfold np_zip. apply same_shape_true in H. by rewrite H.
Qed.

Lemma np_sum_nil : np_sum [] = 0%Q.
Proof. reflexivity. Qed.

Lemma np_sum_cons row g : np_sum (row :: g) = (qsum row + np_sum g)%Q.
Proof. reflexivity. Qed.

Lemma np_sum_zip_plus a b :
  shape a = shape b ->
  (np_sum (zip_with (zip_with Qplus) a b) == np_sum a + np_sum b)%Q.
Proof.
  unfold shape. revert b.
  induction a as [|ra a IH]; intros [|rb b] H; cbn [map zip_with] in *;
    try discriminate.
  - rewrite np_sum_nil. ring.
  - injection H as Hr Ht.
    rewrite !np_sum_cons, IH, qsum_zip_plus by assumption. ring.
Qed.

Lemma np_sum_zip_minus a b :
  shape a = shape b ->
  (np_sum (zip_with (zip_with Qminus) a b) == np_sum a - np_sum b)%Q.
Proof.
  unfold shape. revert b.
  induction a as [|ra a IH]; intros [|rb b] H; cbn [map zip_with] in *;
    try discriminate.
  - rewrite np_sum_nil. ring.
  - injection H as Hr Ht.
    rewrite !np_sum_cons, IH, qsum_zip_minus by assumption. ring.
Qed.

Lemma np_sum_scale c a : (np_sum (np_scale c a) == np_sum a * c)%Q.
Proof.
  unfold np_scale. induction a as [|row a IH]; cbn [map].
  - rewrite np_sum_nil. ring.
  - rewrite !np_sum_cons, IH, qsum_scale. ring.
Qed.

Lemma np_sum_roll_cols a : (np_sum (np_roll_cols a) == np_sum a)%Q.
Proof.
  unfold np_roll_cols. induction a as [|row a IH]; cbn [map].
  - reflexivity.
  - rewrite !np_sum_cons, IH, qsum_roll1. reflexivity.
Qed.

Lemma qsum_replicate_0 n : (qsum (replicate n 0%Q) == 0)%Q.
Proof.
  induction n as [|n IH]; cbn [replicate].
  - reflexivity.
  - rewrite qsum_cons, IH. ring.
Qed.

Lemma np_sum_zeros_like a : (np_sum (zeros_like a) == 0)%Q.
Proof.
  unfold zeros_like. induction a as [|row a IH]; cbn [map].
  - reflexivity.
  - rewrite np_sum_cons, IH, qsum_replicate_0. ring.
Qed.

(** The emission transform moves mass between the layers. *)
Lemma emit_transform_total cfg upper lower upper' lower' :
  emit_transform cfg upper lower = Ok (upper', lower') ->
  shape upper' = shape upper /\ shape lower' = shape lower /\
  (np_sum upper' + np_sum lower' == np_sum upper + np_sum lower)%Q.
Proof.
  unfold emit_transform. intros H.
  destruct (np_zip Qplus lower _) as [l1| |] eqn:El; try discriminate.
  destruct (np_zip Qminus upper _) as [u1| |] eqn:Eu; try discriminate.
  cbn in H. injection H as <- <-.
  apply np_zip_Ok in El as [Hsl ->]. apply np_zip_Ok in Eu as [Hsu ->].
  rewrite !shape_zip_with by assumption. repeat split.
  rewrite np_sum_zip_plus, np_sum_zip_minus by assumption. ring.
Qed.

(** The advection blend is convex: it keeps the total. *)
Lemma advect_right_total array alpha r :
  advect_right array alpha = Ok r ->
  shape r = shape array /\ (np_sum r == np_sum array)%Q.
Proof.
  unfold advect_right. intros H. apply np_zip_Ok in H as [Hs ->].
  rewrite shape_zip_with by assumption. rewrite shape_np_scale. split; [done|].
  rewrite np_sum_zip_plus by assumption.
  rewrite !np_sum_scale, np_sum_roll_cols. ring.
Qed.

Lemma advect_right_Ok array alpha :
  exists r, advect_right array alpha = Ok r.
Proof.
  unfold advect_right. eexists. apply np_zip_same_shape.
  by rewrite !shape_np_scale, shape_np_roll_cols.
Qed.

(** ** Rectangular arrays, cells and loops *)

(** An array of [r] rows of [c] columns. *)
Definition rect (r c : nat) (g : list (list Q)) : Prop :=
  length g = r /\ Forall (fun row => length row = c) g.

Lemma square_rect n g : square n g <-> rect n n g.
Proof. reflexivity. Qed.

Lemma rect_shape r c g : rect r c g <-> shape g = replicate r c.
Proof.
  unfold rect, shape. split.
  - intros [Hlen Hrows].
    assert (map length g = replicate (length g) c) as Hmap.
    { clear Hlen. induction Hrows as [|row g' Hrow _ IH]; [reflexivity|].
      cbn. by rewrite Hrow, IH. }
    by rewrite Hmap, Hlen.
  - intros H. split.
    + apply (f_equal length) in H. by rewrite length_map, length_replicate in H.
    + apply Forall_forall. intros row Hrow.
      assert (length row ∈ map length g) as Hin
        by (apply list_elem_of_fmap; eauto).
      rewrite H in Hin. by apply elem_of_replicate in Hin as [? _].
Qed.

Lemma rect_row r c g i : rect r c g -> (i < r)%nat -> length (nth i g []) = c.
Proof.
  intros [Hlen Hrows] Hi.
  rewrite Forall_forall in Hrows. apply Hrows.
  apply list_elem_of_In, nth_In. lia.
Qed.

Lemma nth_map_seq {A} (F : nat -> A) n p d :
  (p < n)%nat -> nth p (map F (seq 0 n)) d = F p.
Proof.
  intros Hp.
  rewrite (nth_indep _ d (F O)) by (rewrite length_map, length_seq; lia).
  rewrite map_nth, seq_nth by lia. reflexivity.
Qed.

Lemma nth_map_in {A B} (F : A -> B) l p d d' :
  (p < length l)%nat -> nth p (map F l) d' = F (nth p l d).
Proof.
  intros Hp. rewrite (nth_indep _ d' (F d)) by (rewrite length_map; lia).
  apply map_nth.
Qed.

(** The invariant rule of [for_each]: [I done s] holds of the state after
    the elements [done] have been processed. *)
Lemma for_each_inv {A S} (body : A -> S -> res S) (I : list A -> S -> Prop) l :
  forall done s,
    I done s ->
    (forall d a s, I d s -> a ∈ l ->
                   exists s', body a s = Ok s' /\ I (d ++ [a]) s') ->
    exists s', for_each l body s = Ok s' /\ I (done ++ l) s'.
Proof.
  induction l as [|a l IH]; intros done s HI Hbody.
  - exists s. rewrite app_nil_r. by split.
  - destruct (Hbody done a s HI) as (s1 & Hs1 & HI1); [by left|].
    destruct (IH (done ++ [a]) s1 HI1) as (s2 & Hs2 & HI2).
    { intros d b s0 Hd Hb. apply Hbody; [assumption | by right]. }
    exists s2. cbn [for_each]. rewrite Hs1. cbn.
    split; [assumption|]. by rewrite <- app_assoc in HI2.
Qed.

Lemma grid_set_Ok g i j v :
  (i < length g)%nat -> (j < length (nth i g []))%nat ->
  exists g',
    grid_set g i j v = Ok g' /\ shape g' = shape g /\
    forall i' j',
      cell g' i' j' = if decide (i' = i /\ j' = j) then v else cell g i' j'.
Proof.
  intros Hi Hj. unfold grid_set.
  destruct (lookup_lt_is_Some_2 g i Hi) as [row Hrow].
  rewrite (nth_lookup_Some g i [] row Hrow) in Hj.
  rewrite Hrow. rewrite bool_decide_eq_true_2 by assumption.
  eexists. split; [reflexivity|]. split.
  - unfold shape. change (map length) with (fmap (M:=list) (@length Q)).
    rewrite list_fmap_insert, length_insert.
    apply list_insert_id. by rewrite list_lookup_fmap, Hrow.
  - intros i' j'. unfold cell. rewrite !(nth_lookup _ i' []).
    destruct (decide (i' = i)) as [->|Hne].
    + rewrite list_lookup_insert_eq, Hrow by assumption. cbn.
      rewrite !(nth_lookup _ j' 0%Q).
      destruct (decide (j' = j)) as [->|Hnej].
      * rewrite list_lookup_insert_eq by assumption.
        by rewrite decide_True.
      * rewrite list_lookup_insert_ne by congruence.
        rewrite decide_False by (intros [_ ?]; congruence). reflexivity.
    + rewrite list_lookup_insert_ne by congruence.
      rewrite decide_False by (intros [? _]; congruence). reflexivity.
Qed.

Lemma length_pad_wrap {A} (d : A) pw l :
  length (pad_wrap d pw l) = (length l + 2 * pw)%nat.
Proof. unfold pad_wrap. by rewrite length_map, length_seq. Qed.

Lemma nth_pad_wrap {A} (d d' : A) pw l p :
  (p < length l + 2 * pw)%nat ->
  nth p (pad_wrap d pw l) d' =
  nth ((p + (length l - pw mod length l)) mod length l)%nat l d.
Proof. intros Hp. unfold pad_wrap. by rewrite nth_map_seq. Qed.

(** The wrap-padded array is the periodic extension of the array. *)
Lemma cell_padded n pw g p q :
  (0 < n)%nat -> square n g ->
  (p < n + 2 * pw)%nat -> (q < n + 2 * pw)%nat ->
  cell (pad_wrap [] pw (map (pad_wrap 0%Q pw) g)) p q =
  cell g ((p + (n - pw mod n)) mod n)%nat ((q + (n - pw mod n)) mod n)%nat.
Proof.
  intros Hn Hsq Hp Hq. pose proof Hsq as [Hlen Hrows]. unfold cell.
  rewrite (nth_pad_wrap [] []) by (rewrite length_map; lia).
  rewrite length_map, Hlen.
  assert ((p + (n - pw mod n)) mod n < n)%nat as Hp'
    by (apply Nat.mod_upper_bound; lia).
  rewrite (nth_map_in _ _ _ []) by lia.
  rewrite (nth_pad_wrap 0%Q 0%Q);
    rewrite (rect_row n n g) by assumption; [reflexivity | lia].
Qed.

Lemma rect_padded n pw g :
  (0 < n)%nat -> square n g ->
  rect (n + 2 * pw) (n + 2 * pw) (pad_wrap [] pw (map (pad_wrap 0%Q pw) g)).
Proof.
  intros Hn [Hlen Hrows]. split.
  - by rewrite length_pad_wrap, length_map, Hlen.
  - unfold pad_wrap at 1. apply Forall_forall. intros row Hrow.
    apply list_elem_of_fmap in Hrow as (p & -> & Hp).
    rewrite length_map, Hlen in *.
    rewrite (nth_map_in _ _ _ [])
      by (rewrite Hlen; apply Nat.mod_upper_bound; lia).
    rewrite length_pad_wrap. rewrite (rect_row n n g); [lia|by split|].
    apply Nat.mod_upper_bound; lia.
Qed.

Lemma cell_np_slice a i h j w p q :
  (p < h)%nat -> (q < w)%nat ->
  cell (np_slice a i h j w) p q = cell a (i + p) (j + q).
Proof.
  intros Hp Hq. unfold cell, np_slice.
  assert (nth p (map (fun row => take w (drop j row)) (take h (drop i a))) []
          = take w (drop j (nth p (take h (drop i a)) []))) as ->.
  { destruct (decide (p < length (take h (drop i a)))%nat) as [Hlt|Hge].
    - by rewrite (nth_map_in _ _ _ []).
    - rewrite !nth_overflow by (rewrite ?length_map; lia).
      by rewrite drop_nil, take_nil. }
  rewrite nth_firstn, nth_firstn, nth_skipn, nth_skipn.
  apply Nat.ltb_lt in Hp, Hq. by rewrite Hp, Hq.
Qed.

Lemma rect_np_slice r c a i h j w :
  rect r c a -> (i + h <= r)%nat -> (j + w <= c)%nat ->
  rect h w (np_slice a i h j w).
Proof.
  intros [Hlen Hrows] Hi Hj. unfold np_slice. split.
  - rewrite length_map, length_take, length_drop. lia.
  - apply Forall_forall. intros row Hrow.
    apply list_elem_of_fmap in Hrow as (row' & -> & Hin).
    rewrite length_take, length_drop.
    apply subseteq_take, subseteq_drop in Hin.
    rewrite Forall_forall in Hrows. rewrite (Hrows _ Hin). lia.
Qed.

Lemma cell_zip_with (f : Q -> Q -> Q) r c a b p q :
  rect r c a -> rect r c b -> (p < r)%nat -> (q < c)%nat ->
  cell (zip_with (zip_with f) a b) p q = f (cell a p q) (cell b p q).
Proof.
  intros Ha Hb Hp Hq. unfold cell.
  pose proof (rect_row r c a p Ha Hp) as Hra.
  pose proof (rect_row r c b p Hb Hp) as Hrb.
  destruct Ha as [Hla _], Hb as [Hlb _].
  rewrite !(nth_lookup _ p []), lookup_zip_with.
  destruct (lookup_lt_is_Some_2 a p) as [ra Era]; [lia|].
  destruct (lookup_lt_is_Some_2 b p) as [rb Erb]; [lia|].
  rewrite (nth_lookup_Some a p [] ra Era) in Hra.
  rewrite (nth_lookup_Some b p [] rb Erb) in Hrb.
  rewrite Era, Erb. cbn.
  rewrite !(nth_lookup _ q 0%Q), lookup_zip_with.
  destruct (lookup_lt_is_Some_2 ra q) as [va Eva]; [lia|].
  destruct (lookup_lt_is_Some_2 rb q) as [vb Evb]; [lia|].
  by rewrite Eva, Evb.
Qed.

(** ** The convolution *)

(** The value [apply_convolution] stores at [output[i, j]] for a 3 x 3
    kernel: the sum of the window of the padded input times the kernel. *)
Definition conv_cell (input kernel : list (list Q)) (i j : nat) : Q :=
  np_sum (zip_with (zip_with Qmult)
            (np_slice (pad_wrap [] 1 (map (pad_wrap 0%Q 1) input)) i 3 j 3)
            kernel).

Lemma has_empty_axis_square n g :
  (0 < n)%nat -> square n g -> has_empty_axis g = false.
Proof.
  intros Hn [Hlen Hrows]. unfold has_empty_axis.
  destruct g as [|row g]; [cbn in Hlen; lia|].
  apply not_true_is_false. intros H. apply existsb_exists in H as (r & Hin & Hr).
  apply bool_decide_eq_true in Hr. rewrite Forall_forall in Hrows.
  apply list_elem_of_In in Hin. specialize (Hrows r Hin). lia.
Qed.

Lemma range_of_nat n : range (Z.of_nat n) = seq 0 n.
Proof. unfold range. by rewrite Nat2Z.id. Qed.

Lemma square_of_shape n g g' : shape g' = shape g -> square n g -> square n g'.
Proof. intros Hs Hsq. apply rect_shape. rewrite Hs. by apply rect_shape. Qed.

Lemma square_zeros_like n g : square n g -> square n (zeros_like g).
Proof. apply square_of_shape, shape_zeros_like. Qed.

Lemma sum_product_window n input kernel i j :
  (0 < n)%nat -> square n input -> square 3 kernel ->
  (i < n)%nat -> (j < n)%nat ->
  sum_product
    (np_slice (pad_wrap [] 1 (map (pad_wrap 0%Q 1) input)) i 3 j 3) kernel
  = Ok (conv_cell input kernel i j).
Proof.
  intros Hn Hin Hk Hi Hj. unfold sum_product.
  rewrite np_zip_same_shape; [reflexivity|].
  apply rect_shape in Hk. rewrite Hk. apply rect_shape.
  eapply rect_np_slice; [by apply rect_padded| |]; lia.
Qed.

Lemma apply_convolution_cells cfg input kernel n :
  GRID_SIZE cfg = Z.of_nat n -> (0 < n)%nat ->
  square n input -> square 3 kernel ->
  exists out,
    apply_convolution cfg input kernel = Ok out /\ square n out /\
    forall i j, (i < n)%nat -> (j < n)%nat ->
                cell out i j = conv_cell input kernel i j.
Proof.
  intros HG Hn Hin Hk. unfold apply_convolution.
  assert (length kernel = 3%nat) as Hkh by apply Hk.
  assert (length (hd [] kernel) = 3%nat) as Hkw.
  { destruct Hk as [Hl Hrows]. destruct kernel as [|k0 kernel]; [discriminate|].
    by apply Forall_cons in Hrows as [? _]. }
  rewrite Hkh, Hkw, HG, range_of_nat.
  change (3 / 2)%nat with 1%nat.
  unfold np_pad_wrap. rewrite bool_decide_eq_false_2 by lia.
  rewrite (has_empty_axis_square n input) by assumption. cbn [mbind res_bind].
  set (padded := pad_wrap [] 1 (map (pad_wrap 0%Q 1) input)).
  set (f := conv_cell input kernel).
  destruct (for_each_inv
    (fun i output =>
       for_each (seq 0 n)
         (fun j output =>
            v ← sum_product (np_slice padded i 3 j 3) kernel;
            grid_set output i j v) output)
    (fun done out =>
       square n out /\
       forall i j, (j < n)%nat -> i ∈ done -> cell out i j = f i j)
    (seq 0 n) [] (zeros_like input)) as (out & Hout & Hsq & Hcells).
  { split; [by apply square_zeros_like|]. intros i j _ Hi. inversion Hi. }
  { intros d i out [Hsq Hdone] Hi. apply elem_of_seq in Hi.
    destruct (for_each_inv
      (fun j output =>
         v ← sum_product (np_slice padded i 3 j 3) kernel;
         grid_set output i j v)
      (fun done out' =>
         square n out' /\
         (forall i' j', i' <> i -> cell out' i' j' = cell out i' j') /\
         (forall j', j' ∈ done -> cell out' i j' = f i j'))
      (seq 0 n) [] out) as (out' & Hout' & Hsq' & Hother & Hrow).
    { split; [assumption|]. split; [reflexivity|]. intros j' Hj'. inversion Hj'. }
    { intros dj j o (Hsqo & Hoth & Hdn) Hj. apply elem_of_seq in Hj.
      unfold padded. rewrite (sum_product_window n) by (assumption || lia).
      cbn [mbind res_bind]. fold f.
      destruct (grid_set_Ok o i j (f i j)) as (o' & Ho' & Hshape & Hcell).
      { destruct Hsqo as [-> _]. lia. }
      { rewrite (rect_row n n o) by (assumption || lia). lia. }
      exists o'. split; [assumption|]. split; [by eapply square_of_shape|].
      split.
      - intros i' j' Hne. rewrite Hcell.
        rewrite decide_False by (intros [? _]; congruence). by apply Hoth.
      - intros j' Hj'. rewrite Hcell.
        destruct (decide (i = i /\ j' = j)) as [[_ ->]|Hne]; [reflexivity|].
        apply elem_of_app in Hj' as [Hj'|Hj'].
        + by apply Hdn.
        + apply list_elem_of_singleton in Hj'. exfalso. by apply Hne. }
    exists out'. split; [assumption|]. split; [assumption|].
    intros i' j' Hj' Hi'.
    destruct (decide (i' = i)) as [->|Hne].
    - apply Hrow. cbn [app]. apply elem_of_seq. lia.
    - rewrite Hother by assumption. apply Hdone; [assumption|].
      apply elem_of_app in Hi' as [Hi'|Hi']; [assumption|].
      apply list_elem_of_singleton in Hi'. congruence. }
  exists out. split; [assumption|]. split; [assumption|].
  intros i j Hi Hj. apply Hcells; [assumption|].
  cbn [app]. apply elem_of_seq. lia.
Qed.

Lemma conv_cell_sum n input kernel i j :
  (0 < n)%nat -> square n input -> square 3 kernel ->
  (i < n)%nat -> (j < n)%nat ->
  (conv_cell input kernel i j ==
   bigsum 3 (fun a => bigsum 3 (fun b =>
     cell input ((i + a + (n - 1 mod n)) mod n)%nat
                ((j + b + (n - 1 mod n)) mod n)%nat
     * cell kernel a b)))%Q.
Proof.
  intros Hn Hin Hk Hi Hj. unfold conv_cell.
  set (padded := pad_wrap [] 1 (map (pad_wrap 0%Q 1) input)).
  assert (rect 3 3 (np_slice padded i 3 j 3)) as Hw
    by (eapply rect_np_slice; [by apply rect_padded| |]; lia).
  rewrite (np_sum_cells 3).
  2:{ apply rect_shape. rewrite shape_zip_with.
      - by apply rect_shape.
      - apply rect_shape in Hw, Hk. congruence. }
  apply bigsum_ext. intros a Ha. apply bigsum_ext. intros b Hb.
  rewrite (cell_zip_with _ 3 3) by assumption.
  rewrite cell_np_slice by assumption.
  unfold padded. rewrite (cell_padded n) by (assumption || lia).
  reflexivity.
Qed.

(** Four nested sums, the outer two brought inside. *)
Lemma bigsum_swap4 n m (F : nat -> nat -> nat -> nat -> Q) :
  (bigsum n (fun i => bigsum n (fun j => bigsum m (fun a => bigsum m (fun b =>
     F i j a b))))
   == bigsum m (fun a => bigsum m (fun b => bigsum n (fun i => bigsum n (fun j =>
     F i j a b)))))%Q.
Proof.
  transitivity
    (bigsum n (fun i => bigsum m (fun a => bigsum n (fun j => bigsum m (fun b =>
       F i j a b))))).
  { apply bigsum_ext. intros i _. apply bigsum_swap. }
  rewrite bigsum_swap. apply bigsum_ext. intros a _.
  transitivity
    (bigsum n (fun i => bigsum m (fun b => bigsum n (fun j => F i j a b)))).
  { apply bigsum_ext. intros i _. apply bigsum_swap. }
  apply bigsum_swap.
Qed.

(** A kernel whose weights sum to 1 keeps the total under wrap-around. *)
Lemma apply_convolution_total cfg input kernel n out :
  GRID_SIZE cfg = Z.of_nat n -> (0 < n)%nat ->
  square n input -> square 3 kernel -> (np_sum kernel == 1)%Q ->
  apply_convolution cfg input kernel = Ok out ->
  square n out /\ (np_sum out == np_sum input)%Q.
Proof.
  intros HG Hn Hin Hk Hone Hout.
  destruct (apply_convolution_cells cfg input kernel n HG Hn Hin Hk)
    as (out' & Hout' & Hsq & Hcells).
  rewrite Hout in Hout'. injection Hout' as <-. split; [assumption|].
  rewrite (np_sum_cells n out Hsq).
  set (s := (n - 1 mod n)%nat).
  transitivity
    (bigsum n (fun i => bigsum n (fun j => bigsum 3 (fun a => bigsum 3 (fun b =>
       cell input ((i + a + s) mod n)%nat ((j + b + s) mod n)%nat
       * cell kernel a b))))%Q).
  { apply bigsum_ext. intros i Hi. apply bigsum_ext. intros j Hj.
    rewrite Hcells by assumption. by apply conv_cell_sum. }
  rewrite bigsum_swap4.
  transitivity
    (bigsum 3 (fun a => bigsum 3 (fun b => np_sum input * cell kernel a b))%Q).
  { apply bigsum_ext. intros a _. apply bigsum_ext. intros b _.
    transitivity
      (bigsum n (fun i =>
         (fun r => bigsum n (fun j => cell input r j * cell kernel a b))
           ((i + (a + s)) mod n)%nat))%Q.
    { apply bigsum_ext. intros i _. cbv beta.
      transitivity
        (bigsum n (fun j =>
           (fun c => cell input ((i + (a + s)) mod n)%nat c * cell kernel a b)
             ((j + (b + s)) mod n)%nat))%Q.
      - apply bigsum_ext. intros j _. cbv beta. by rewrite !Nat.add_assoc.
      - apply (bigsum_cyclic n (b + s)
                 (fun c => cell input ((i + (a + s)) mod n)%nat c * cell kernel a b)%Q). }
    rewrite (bigsum_cyclic n (a + s)
               (fun r => bigsum n (fun j => cell input r j * cell kernel a b))%Q).
    rewrite (np_sum_cells n input Hin), <- bigsum_scale.
    apply bigsum_ext. intros i _. by rewrite bigsum_scale. }
  transitivity (np_sum kernel * np_sum input)%Q.
  { rewrite (np_sum_cells 3 kernel Hk), <- bigsum_scale.
    apply bigsum_ext. intros a _. rewrite <- bigsum_scale.
    apply bigsum_ext. intros b _. ring. }
  rewrite Hone. ring.
Qed.

(** The collection transform: lift, diffuse, advect. *)
Lemma collect_transform_total cfg n upper lower upper' lower' :
  GRID_SIZE cfg = Z.of_nat n -> (0 < n)%nat ->
  square n upper -> square n lower ->
  square 3 (KERNEL_3x3 cfg) -> (np_sum (KERNEL_3x3 cfg) == 1)%Q ->
  collect_transform cfg upper lower = Ok (upper', lower') ->
  square n upper' /\ square n lower' /\
  (np_sum upper' + np_sum lower' == np_sum upper + np_sum lower)%Q.
Proof.
  intros HG Hn Hu Hl Hk Hone. unfold collect_transform. intros H.
  destruct (np_zip Qplus upper lower) as [u1| |] eqn:E1; try discriminate.
  cbn [mbind res_bind] in H.
  destruct (apply_convolution cfg u1 _) as [u2| |] eqn:E2; try discriminate.
  cbn [mbind res_bind] in H.
  destruct (advect_right u2 _) as [u3| |] eqn:E3; try discriminate.
  cbn in H. injection H as <- <-.
  apply np_zip_Ok in E1 as [Hs ->].
  assert (square n (zip_with (zip_with Qplus) upper lower)) as Hu1
    by (eapply square_of_shape; [by apply shape_zip_with|assumption]).
  destruct (apply_convolution_total _ _ _ n _ HG Hn Hu1 Hk Hone E2) as [Hu2 Hsum2].
  apply advect_right_total in E3 as [Hs3 Hsum3].
  split; [by eapply square_of_shape|]. split; [by apply square_zeros_like|].
  rewrite Hsum3, Hsum2, np_sum_zip_plus, np_sum_zeros_like by assumption. ring.
Qed.

(** ** Results of monadic code *)

Lemma bind_Ok {A B} (m : res A) (f : A -> res B) (b : B) :
  (m ≫= f) = Ok b -> exists a, m = Ok a /\ f a = Ok b.
Proof. destruct m as [a| |]; cbn; [eauto|discriminate|discriminate]. Qed.

(** [inv_bind H] splits [H : (x ← m; k) = Ok r] into [m = Ok x] and
    [k = Ok r], as often as it can. *)
Tactic Notation "inv_bind" hyp(H) "as" simple_intropattern(p) ident(E) :=
  apply bind_Ok in H as (p & E & H); cbn beta iota in H.

(** Partial correctness of [for_each]: an invariant kept by every run of the
    body that returns holds when the loop returns. *)
Lemma for_each_Ok_ind {A S} (body : A -> S -> res S)
    (I : list A -> S -> Prop) l :
  forall done s s',
    I done s ->
    (forall d a s s', I d s -> a ∈ l -> body a s = Ok s' -> I (d ++ [a]) s') ->
    for_each l body s = Ok s' ->
    I (done ++ l) s'.
Proof.
  induction l as [|a l IH]; intros done s s' HI Hbody Hrun.
  - cbn in Hrun. injection Hrun as <-. by rewrite app_nil_r.
  - cbn [for_each] in Hrun. inv_bind Hrun as sa E.
    replace (done ++ a :: l) with ((done ++ [a]) ++ l)
      by (by rewrite <- app_assoc).
    eapply IH; [|intros d b s0 s1 Hd Hb; apply Hbody; [assumption|by right]|eassumption].
    eapply Hbody; [eassumption|by left|assumption].
Qed.

Section SimulationFacts.

Context {rng_state : Type} {RS : RandomStream rng_state}.

#[local] Abbreviation Simulation := (@Simulation rng_state).

(** *** The spawn loop *)

(** A position [spawn_new_cores] can give a core spawned by the core at
    [(px, py)]. *)
Definition spawned_near (cfg : Config) (px py : Z) (c : Core.t) : Prop :=
  exists dx dy,
    -5 <= dx <= 5 /\ -5 <= dy <= 5 /\
    c = Core.new ((px + dx) mod GRID_SIZE cfg) ((py + dy) mod GRID_SIZE cfg).

Lemma randint_Ok lo hi r v r' :
  randint lo hi r = Ok (v, r') -> lo <= v < hi.
Proof.
  unfold randint. destruct (lo <? hi) eqn:E; [|discriminate].
  intros [= Hv]. apply Z.ltb_lt in E.
  pose proof (rng_randint_range lo hi r E) as Hr.
  rewrite Hv in Hr. exact Hr.
Qed.

Lemma spawn_new_cores_spec cfg px py count cs r cs' r' :
  spawn_new_cores cfg px py count cs r = Ok (cs', r') ->
  exists new,
    cs' = cs ++ new /\ length new = Z.to_nat count /\
    Forall (spawned_near cfg px py) new.
Proof.
  unfold spawn_new_cores. intros H.
  eapply for_each_Ok_ind with
    (I := fun done (st : list Core.t * rng_state) =>
       exists new, st.1 = cs ++ new /\ length new = length done /\
                   Forall (spawned_near cfg px py) new)
    (done := []) in H.
  - destruct H as (new & Hcs & Hlen & Hnew).
    exists new. cbn [fst app] in *. split; [assumption|]. split; [|assumption].
    rewrite Hlen. unfold range. by rewrite length_seq.
  - exists []. cbn. by rewrite app_nil_r.
  - intros d a [cs0 r0] [cs1 r1] (new & Hcs0 & Hlen & Hnew) _ Hbody.
    cbn [fst] in *. subst cs0.
    inv_bind Hbody as [dx r1'] Edx. inv_bind Hbody as [dy r2'] Edy.
    destruct (GRID_SIZE cfg =? 0); [discriminate|].
    injection Hbody as <- <-.
    apply randint_Ok in Edx, Edy.
    exists (new ++ [Core.new ((px + dx) mod GRID_SIZE cfg)
                             ((py + dy) mod GRID_SIZE cfg)]).
    split; [by rewrite app_assoc|]. split.
    + rewrite !length_app. cbn. lia.
    + apply Forall_app. split; [assumption|]. apply Forall_singleton.
      exists dx, dy. repeat split; lia.
Qed.

(** *** What the loop over the cores leaves alone *)

(** The fields of the simulation that the loop over the cores never writes. *)
Definition same_fields (s s' : Simulation) : Prop :=
  seed s' = seed s /\ tick s' = tick s /\
  temperature s' = temperature s /\
  catalyst_upper s' = catalyst_upper s /\
  catalyst_lower s' = catalyst_lower s.

Lemma same_fields_refl s : same_fields s s.
Proof. by repeat split. Qed.

Lemma same_fields_trans s1 s2 s3 :
  same_fields s1 s2 -> same_fields s2 s3 -> same_fields s1 s3.
Proof.
  intros (?&?&?&?&?) (?&?&?&?&?). repeat split; congruence.
Qed.

Lemma update_core_at_fields cfg em i core b s b' s' :
  update_core_at cfg em i core b s = Ok (b', s') -> same_fields s s'.
Proof.
  unfold update_core_at. intros H.
  inv_bind H as temp Et. inv_bind H as cat Ec.
  destruct (Core.update _ _ _ _ _ _) as [core' did].
  destruct did.
  - inv_bind H as [cs' r] Es. injection H as _ <-.
    by repeat split.
  - injection H as _ <-. by repeat split.
Qed.

(** The invariant rule of the loop over the cores. *)
Lemma update_cores_ind cfg em (I : nat -> Z -> Simulation -> Prop) fuel :
  forall i b s b' s',
    I i b s ->
    (forall i b s core b' s',
        I i b s -> cores s !! i = Some core ->
        update_core_at cfg em i core b s = Ok (b', s') -> I (S i) b' s') ->
    update_cores fuel cfg em i b s = Ok (b', s') ->
    exists j, I j b' s' /\ cores s' !! j = None.
Proof.
  induction fuel as [|fuel IH]; intros i b s b' s' HI Hstep Hrun; cbn in Hrun.
  - destruct (cores s !! i) eqn:E; [discriminate|].
    injection Hrun as <- <-. eauto.
  - destruct (cores s !! i) as [core|] eqn:E.
    + inv_bind Hrun as [b1 s1] E1.
      eapply IH; [|exact Hstep|exact Hrun].
      eapply Hstep; eassumption.
    + injection Hrun as <- <-. eauto.
Qed.

Lemma update_cores_fields fuel cfg em i b s b' s' :
  update_cores fuel cfg em i b s = Ok (b', s') -> same_fields s s'.
Proof.
  intros H.
  destruct (update_cores_ind cfg em (fun _ _ s1 => same_fields s s1)
              fuel i b s b' s') as (_ & Hs & _);
    [apply same_fields_refl| |exact H|exact Hs].
  intros i0 b0 s0 core b1 s1 Hs0 _ Hbody.
  eapply same_fields_trans; [exact Hs0|]. by eapply update_core_at_fields.
Qed.

(** *** The tick, its mode and the catalyst transform *)

Lemma shift_temperature_fields cfg s s' :
  shift_temperature cfg s = Ok s' ->
  seed s' = seed s /\ tick s' = tick s /\
  catalyst_upper s' = catalyst_upper s /\
  catalyst_lower s' = catalyst_lower s /\
  cores s' = cores s /\ total_blooms s' = total_blooms s /\
  bloom_locations s' = bloom_locations s.
Proof.
  unfold shift_temperature. intros H.
  inv_bind H as [column r] Ec. inv_bind H as temp Et.
  injection H as <-. by repeat split.
Qed.

Lemma step_fields_spec cfg s em s1 :
  step_fields cfg s = Ok (em, s1) ->
  em = ((tick s + 1) mod 2 =? 0) /\
  tick s1 = tick s + 1 /\
  (if em
   then emit_transform cfg (catalyst_upper s) (catalyst_lower s)
   else collect_transform cfg (catalyst_upper s) (catalyst_lower s))
  = Ok (catalyst_upper s1, catalyst_lower s1) /\
  cores s1 = cores s /\ total_blooms s1 = total_blooms s /\
  bloom_locations s1 = bloom_locations s /\ seed s1 = seed s.
Proof.
  unfold step_fields. intros H. inv_bind H as s0 Es.
  apply shift_temperature_fields in Es as (Hseed & _ & Hu & Hl & Hc & Hb & Hbl).
  rewrite Hu, Hl in H. inv_bind H as [upper lower] Et.
  injection H as <- <-. cbn. rewrite Et. by repeat split.
Qed.

Lemma shape_nth a p : nth p (shape a) O = length (nth p a []).
Proof. unfold shape. apply (map_nth (@length Q) a [] p). Qed.

Lemma shape_length a b : shape a = shape b -> length a = length b.
Proof.
  intros H. apply (f_equal length) in H. unfold shape in H.
  by rewrite !length_map in H.
Qed.

Lemma shape_row a b p :
  shape a = shape b -> length (nth p a []) = length (nth p b []).
Proof. intros H. by rewrite <- !shape_nth, H. Qed.

Lemma cell_zip_with_shape (f : Q -> Q -> Q) a b p q :
  shape a = shape b -> (p < length a)%nat -> (q < length (nth p a []))%nat ->
  cell (zip_with (zip_with f) a b) p q = f (cell a p q) (cell b p q).
Proof.
  intros Hs Hp Hq. unfold cell.
  pose proof (shape_row a b p Hs) as Hrow.
  pose proof (shape_length a b Hs) as Hlen.
  rewrite !(nth_lookup _ p []), lookup_zip_with.
  destruct (lookup_lt_is_Some_2 a p) as [ra Era]; [lia|].
  destruct (lookup_lt_is_Some_2 b p) as [rb Erb]; [lia|].
  rewrite (nth_lookup_Some a p [] ra Era) in Hq, Hrow.
  rewrite (nth_lookup_Some b p [] rb Erb) in Hrow.
  rewrite Era, Erb. cbn.
  rewrite !(nth_lookup _ q 0%Q), lookup_zip_with.
  destruct (lookup_lt_is_Some_2 ra q) as [va Eva]; [lia|].
  destruct (lookup_lt_is_Some_2 rb q) as [vb Evb]; [lia|].
  by rewrite Eva, Evb.
Qed.

Lemma cell_np_scale c a p q :
  (p < length a)%nat -> (q < length (nth p a []))%nat ->
  cell (np_scale c a) p q = (cell a p q * c)%Q.
Proof.
  intros Hp Hq. unfold cell, np_scale.
  rewrite (nth_map_in _ _ _ []) by assumption.
  by rewrite (nth_map_in _ _ _ 0%Q) by assumption.
Qed.

(** The emission transform, cell by cell. *)
Lemma emit_transform_cells cfg upper lower upper' lower' i j :
  emit_transform cfg upper lower = Ok (upper', lower') ->
  (i < length upper)%nat -> (j < length (nth i upper []))%nat ->
  cell lower' i j = (cell lower i j + cell upper i j * EMIT_FRACTION cfg)%Q /\
  cell upper' i j = (cell upper i j - cell upper i j * EMIT_FRACTION cfg)%Q.
Proof.
  unfold emit_transform. intros H Hi Hj.
  inv_bind H as l1 El. inv_bind H as u1 Eu. injection H as <- <-.
  apply np_zip_Ok in El as [Hsl ->]. apply np_zip_Ok in Eu as [Hsu ->].
  rewrite shape_np_scale in Hsl, Hsu.
  pose proof (shape_length _ _ Hsl) as Hlen.
  pose proof (shape_row _ _ i Hsl) as Hrow.
  rewrite !cell_zip_with_shape, !cell_np_scale
    by (rewrite ?shape_np_scale; (assumption || lia)).
  by split.
Qed.

(** *** The temperature scroll *)

(** A value of the half-open unit interval. *)
Definition unit_interval (v : Q) : Prop := (0 <= v)%Q /\ (v < 1)%Q.

Lemma length_random_vector n r : length (random_vector n r).1 = n.
Proof.
  revert r. induction n as [|n IH]; intros r; cbn; [reflexivity|].
  destruct (rng_random r) as [v r1]. specialize (IH r1).
  destruct (random_vector n r1) as [vs r2]. cbn in *. by rewrite IH.
Qed.

Lemma random_vector_unit n r : Forall unit_interval (random_vector n r).1.
Proof.
  revert r. induction n as [|n IH]; intros r; cbn; [constructor|].
  pose proof (rng_random_range r) as Hr.
  destruct (rng_random r) as [v r1]. specialize (IH r1).
  destruct (random_vector n r1) as [vs r2]. cbn in *. by constructor.
Qed.

Lemma nth_roll1 {A} (l : list A) c d :
  (1 <= c < length l)%nat -> nth c (roll1 l) d = nth (c - 1) l d.
Proof.
  intros Hc. unfold roll1.
  rewrite app_nth2 by (rewrite length_drop; lia).
  rewrite length_drop, nth_firstn.
  replace (c - (length l - (length l - 1)))%nat with (c - 1)%nat by lia.
  destruct (c - 1 <? length l - 1)%nat eqn:E; [reflexivity|].
  apply Nat.ltb_ge in E. lia.
Qed.

Lemma Forall2_cells (P : Q -> Prop) n g :
  square n g ->
  (Forall (Forall P) g <->
   forall r c, (r < n)%nat -> (c < n)%nat -> P (cell g r c)).
Proof.
  intros Hsq. pose proof Hsq as [Hlen Hrows]. split.
  - intros H r c Hr Hc. unfold cell.
    rewrite Forall_forall in H.
    assert (nth r g [] ∈ g) as Hin by (apply list_elem_of_In, nth_In; lia).
    specialize (H _ Hin). rewrite Forall_forall in H. apply H.
    apply list_elem_of_In, nth_In. rewrite (rect_row n n g r) by assumption. lia.
  - intros H. apply Forall_forall. intros row Hrow.
    apply list_elem_of_In, (In_nth _ _ []) in Hrow as (r & Hr & <-).
    apply Forall_forall. intros v Hv.
    apply list_elem_of_In, (In_nth _ _ 0%Q) in Hv as (c & Hc & <-).
    rewrite (rect_row n n g r) in Hc by (assumption || lia).
    apply H; lia.
Qed.

Lemma set_column0_spec n g v :
  (0 < n)%nat -> square n g -> length v = n ->
  exists g',
    set_column0 g v = Ok g' /\ square n g' /\
    forall r c, (r < n)%nat ->
      cell g' r c = match c with O => nth r v 0%Q | S _ => cell g r c end.
Proof.
  intros Hn Hsq Hv. pose proof Hsq as [Hlen Hrows].
  unfold set_column0. rewrite (has_empty_axis_square n g) by assumption.
  rewrite bool_decide_eq_true_2 by lia.
  eexists. split; [reflexivity|]. split.
  - split; [rewrite length_zip_with; lia|].
    apply Forall_forall. intros row Hrow.
    apply elem_of_zip_with in Hrow as (row0 & x & -> & Hrow0 & _).
    rewrite Forall_forall in Hrows. specialize (Hrows _ Hrow0).
    destruct row0; cbn in *; lia.
  - intros r c Hr. unfold cell.
    destruct (lookup_lt_is_Some_2 g r) as [row Erow]; [lia|].
    destruct (lookup_lt_is_Some_2 v r) as [x Ex]; [lia|].
    rewrite (nth_lookup _ r []), lookup_zip_with, Erow. cbn. rewrite Ex. cbn.
    rewrite (nth_lookup_Some g r [] row Erow), (nth_lookup_Some v r 0%Q x Ex).
    destruct c as [|c]; [reflexivity|]. cbn [nth].
    assert (length row = n) as Hrow
      by (rewrite Forall_forall in Hrows; apply Hrows;
          by eapply list_elem_of_lookup_2).
    destruct row; [cbn in Hrow; lia|reflexivity].
Qed.

(** *** One visit of the loop over the cores *)

(** What one run of the loop body does to the simulation: the core at [i]
    is replaced by its update; if it bloomed, the counters move, the event
    is logged and [SPAWN_S] cores are appended, each near the parent. *)
Lemma update_core_at_spec cfg em i core b s b' s' :
  update_core_at cfg em i core b s = Ok (b', s') ->
  exists temp cat core' did new,
    grid_get (temperature s) (Core.y core) (Core.x core) = Ok temp /\
    grid_get (catalyst_upper s) (Core.y core) (Core.x core) = Ok cat /\
    Core.update cfg core (tick s) temp cat em = (core', did) /\
    cores s' = <[i := core']> (cores s) ++ new /\
    length new = (if did then Z.to_nat (SPAWN_S cfg) else 0%nat) /\
    Forall (spawned_near cfg (Core.x core) (Core.y core)) new /\
    b' = (if did then b + 1 else b) /\
    total_blooms s' = (if did then total_blooms s + 1 else total_blooms s) /\
    bloom_locations s' =
      (if did
       then bloom_locations s ++ [(Core.x core, Core.y core, tick s)]
       else bloom_locations s).
Proof.
  unfold update_core_at. intros H.
  inv_bind H as temp Et. inv_bind H as cat Ec.
  destruct (Core.update _ _ _ _ _ _) as [core' did] eqn:Eu.
  exists temp, cat, core', did.
  destruct did.
  - inv_bind H as [cs' r] Es. injection H as <- <-. cbn.
    destruct (0 <? SPAWN_S cfg) eqn:Esp.
    + apply spawn_new_cores_spec in Es as (new & -> & Hlen & Hnew).
      exists new. repeat split; assumption || reflexivity.
    + injection Es as <- <-. exists []. rewrite app_nil_r.
      apply Z.ltb_ge in Esp.
      repeat split; try assumption; try reflexivity; [cbn; lia|constructor].
  - injection H as <- <-. exists []. cbn. rewrite app_nil_r.
    repeat split; try assumption; constructor.
Qed.

(** *** The bloom counters *)



(** The states a program can bring a simulation to: construction, then any
    number of [step] and [reset] calls, under whatever configuration is in
    force at each call. *)
Inductive reachable : Simulation -> Prop :=
| reachable_init fuel cfg seed0 s :
    init fuel cfg seed0 = Ok s -> reachable s
| reachable_step fuel cfg s s' st :
    reachable s -> step fuel cfg s = Ok (s', st) -> reachable s'
| reachable_reset fuel cfg s s' :
    reachable s -> reset fuel cfg s = Ok s' -> reachable s'.




Lemma update_total_blooms cfg c tick0 temp cat em c' did :
  Core.update cfg c tick0 temp cat em = (c', did) ->
  Core.total_blooms c'
  = (if did then Core.total_blooms c + 1 else Core.total_blooms c) /\
  Core.x c' = Core.x c /\ Core.y c' = Core.y c.
Proof.
  unfold Core.update. intros H.
  destruct (0 <? Core.refractory_countdown c);
    [|destruct (_ && _ && _)]; injection H as <- <-; by repeat split.
Qed.






(** *** The temperature stays in the unit interval *)

Lemma Forall_roll1 {A} (P : A -> Prop) (l : list A) :
  Forall P l -> Forall P (roll1 l).
Proof.
  intros H. unfold roll1. apply Forall_app.
  split; [by apply Forall_drop|by apply Forall_take].
Qed.

Lemma Forall_tail' {A} (P : A -> Prop) (l : list A) :
  Forall P l -> Forall P (tail l).
Proof. intros H. destruct H; [constructor|assumption]. Qed.

Lemma set_column0_Forall (P : Q -> Prop) g v g' :
  Forall (Forall P) g -> Forall P v ->
  set_column0 g v = Ok g' -> Forall (Forall P) g'.
Proof.
  intros Hg Hv. unfold set_column0.
  destruct (has_empty_axis g); [discriminate|].
  destruct (bool_decide (length v = length g)).
  - intros [= <-]. clear -Hg Hv. revert v Hv.
    induction Hg as [|row g Hrow _ IH]; intros v Hv; [constructor|].
    destruct Hv as [|x v Hx Hv]; [constructor|]. cbn.
    constructor; [|by apply IH].
    constructor; [assumption|by apply Forall_tail'].
  - destruct v as [|x [|? ?]]; try discriminate. intros [= <-].
    assert (P x) as Hx by (by inversion Hv). clear -Hg Hx.
    induction Hg as [|row g Hrow _ IH]; [constructor|]. cbn [map].
    constructor; [|exact IH].
    constructor; [assumption|by apply Forall_tail'].
Qed.

Lemma shift_temperature_unit cfg s s' :
  shift_temperature cfg s = Ok s' ->
  Forall (Forall unit_interval) (temperature s) ->
  Forall (Forall unit_interval) (temperature s').
Proof.
  unfold shift_temperature, rng_random_n. intros H Hs.
  destruct (GRID_SIZE cfg <? 0); [discriminate|]. cbn in H.
  pose proof (random_vector_unit (Z.to_nat (GRID_SIZE cfg)) (rng s)) as Hv.
  destruct (random_vector _ _) as [column r]. cbn [fst] in Hv.
  inv_bind H as temp Et. injection H as <-. cbn [temperature].
  eapply set_column0_Forall; [|exact Hv|exact Et].
  unfold np_roll_cols. apply Forall_forall. intros row Hrow.
  apply list_elem_of_fmap in Hrow as (row0 & -> & Hrow0).
  apply Forall_roll1. rewrite Forall_forall in Hs. by apply Hs.
Qed.

Lemma step_temperature_unit fuel cfg s s' st :
  step fuel cfg s = Ok (s', st) ->
  Forall (Forall unit_interval) (temperature s) ->
  Forall (Forall unit_interval) (temperature s').
Proof.
  unfold step, step_fields. intros H Hs.
  inv_bind H as [em s1] E1. inv_bind H as [blooms s2] E2. injection H as <- _.
  inv_bind E1 as s0 E0. inv_bind E1 as [upper lower] Et. injection E1 as _ <-.
  apply update_cores_fields in E2 as (_ & _ & Htemp & _).
  rewrite Htemp. cbn [temperature]. by eapply shift_temperature_unit.
Qed.

Lemma random_grid_unit rows cols r :
  Forall (Forall unit_interval) (random_grid rows cols r).1.
Proof.
  revert r. induction rows as [|rows IH]; intros r; cbn; [constructor|].
  pose proof (random_vector_unit cols r) as Hrow.
  destruct (random_vector cols r) as [row r1]. specialize (IH r1).
  destruct (random_grid rows cols r1) as [g r2]. by constructor.
Qed.

Lemma reset_temperature_unit fuel cfg s s' :
  reset fuel cfg s = Ok s' -> Forall (Forall unit_interval) (temperature s').
Proof.
  unfold reset, rng_random_nn. intros H.
  destruct (GRID_SIZE cfg <? 0); [discriminate|]. cbn in H.
  pose proof (random_grid_unit (Z.to_nat (GRID_SIZE cfg))
                (Z.to_nat (GRID_SIZE cfg)) (rng s)) as Hg.
  destruct (random_grid _ _ (rng s)) as [temp r1]. cbn [fst] in Hg.
  destruct (random_grid _ _ r1) as [u r2].
  inv_bind H as [cs r3] E. by injection H as <-.
Qed.

Lemma reachable_temperature_unit s :
  reachable s -> Forall (Forall unit_interval) (temperature s).
Proof.
  induction 1 as [fuel cfg seed0 s H|fuel cfg s s' st _ IH H|fuel cfg s s' _ _ H].
  - unfold init in H. by eapply reset_temperature_unit.
  - by eapply step_temperature_unit.
  - by eapply reset_temperature_unit.
Qed.

(** C7.  On an [n] x [n] temperature grid, [shift_temperature] returns;
    every column [c] in [1 .. n-1] of the new grid is column [c-1] of the
    old one; column 0 holds the next [n] draws of the stream, each in
    [0, 1); no other cell is written, so a grid whose cells were all in
    [0, 1) still has all its cells there, and every cell of the temperature
    grid of every reachable simulation is in [0, 1). *)
Theorem shift_temperature_scroll cfg n s :
  GRID_SIZE cfg = Z.of_nat n -> (0 < n)%nat -> square n (temperature s) ->
  (forall s0, reachable s0 -> Forall (Forall unit_interval) (temperature s0)) /\
  exists s',
    shift_temperature cfg s = Ok s' /\
    square n (temperature s') /\
    rng s' = (random_vector n (rng s)).2 /\
    (forall r c, (r < n)%nat -> (1 <= c < n)%nat ->
       cell (temperature s') r c = cell (temperature s) r (c - 1)) /\
    (forall r, (r < n)%nat ->
       cell (temperature s') r 0 = nth r (random_vector n (rng s)).1 0%Q /\
       unit_interval (cell (temperature s') r 0)) /\
    (Forall (Forall unit_interval) (temperature s) ->
     Forall (Forall unit_interval) (temperature s')).
Proof.
  intros HG Hn Hsq. split; [exact reachable_temperature_unit|].
  unfold shift_temperature, rng_random_n.
  rewrite HG, Nat2Z.id.
  replace (Z.of_nat n <? 0) with false by (symmetry; apply Z.ltb_ge; lia).
  cbn [mbind res_bind mret res_ret].
  destruct (random_vector n (rng s)) as [column r] eqn:Ev.
  pose proof (length_random_vector n (rng s)) as Hlen.
  pose proof (random_vector_unit n (rng s)) as Hunit.
  rewrite Ev in Hlen, Hunit. cbn [fst snd] in *.
  assert (square n (np_roll_cols (temperature s))) as Hroll
    by (eapply square_of_shape; [apply shape_np_roll_cols|assumption]).
  destruct (set_column0_spec n _ column Hn Hroll Hlen) as (g' & Hg' & Hsq' & Hcell).
  rewrite Hg'. cbn [mbind res_bind]. eexists. split; [reflexivity|].
  cbn [temperature rng].
  assert (forall r c, (r < n)%nat -> (1 <= c < n)%nat ->
            cell g' r c = cell (temperature s) r (c - 1)) as Hshift.
  { intros r0 c Hr Hc. rewrite Hcell by assumption.
    destruct c as [|c]; [lia|]. unfold cell, np_roll_cols.
    rewrite (nth_map_in _ _ _ []) by (destruct Hsq as [-> _]; lia).
    apply nth_roll1. rewrite (rect_row n n _ r0) by assumption. lia. }
  assert (forall r, (r < n)%nat ->
            cell g' r 0 = nth r column 0%Q /\ unit_interval (cell g' r 0)) as Hfresh.
  { intros r0 Hr. rewrite Hcell by assumption. split; [reflexivity|].
    rewrite Forall_forall in Hunit. apply Hunit.
    apply list_elem_of_In, nth_In. lia. }
  repeat split; try assumption; try apply Hsq'; try (by apply Hshift);
    try (by apply Hfresh).
  intros Hold. apply (Forall2_cells _ n g' Hsq'). intros r0 c Hr Hc.
  destruct c as [|c].
  - by apply Hfresh.
  - rewrite Hshift by lia.
    apply (Forall2_cells _ n (temperature s) Hsq); [assumption|lia|lia].
Qed.


(** *** Conservation of the catalyst *)

(** [np.sum(catalyst_upper) + np.sum(catalyst_lower)] *)
Definition total_catalyst (s : Simulation) : Q :=
  (np_sum (catalyst_upper s) + np_sum (catalyst_lower s))%Q.

(** A 3 x 3 kernel whose weights sum to 1. *)
Definition kernel_ok (cfg : Config) : Prop :=
  square 3 (KERNEL_3x3 cfg) /\ (np_sum (KERNEL_3x3 cfg) == 1)%Q.

(** A valid catalyst field: both layers are [n] x [n], where [n >= 1] is the
    configured grid size. *)
Definition catalyst_wf (cfg : Config) (n : nat) (s : Simulation) : Prop :=
  GRID_SIZE cfg = Z.of_nat n /\ (0 < n)%nat /\
  square n (catalyst_upper s) /\ square n (catalyst_lower s).

Lemma step_catalyst fuel cfg n s s' st :
  kernel_ok cfg -> catalyst_wf cfg n s ->
  step fuel cfg s = Ok (s', st) ->
  catalyst_wf cfg n s' /\
  (total_catalyst s' == total_catalyst s)%Q /\
  stats_total_catalyst st = total_catalyst s'.
Proof.
  intros [Hk Hone] (HG & Hn & Hu & Hl) H. unfold step in H.
  inv_bind H as [em s1] E1. inv_bind H as [blooms s2] E2.
  injection H as <- <-. cbn [stats_total_catalyst].
  apply step_fields_spec in E1 as (_ & _ & Htr & _).
  apply update_cores_fields in E2 as (_ & _ & _ & Hu2 & Hl2).
  unfold total_catalyst, catalyst_wf. rewrite Hu2, Hl2.
  destruct em.
  - apply emit_transform_total in Htr as (Hsu & Hsl & Hsum).
    refine (conj (conj HG (conj Hn (conj _ _))) (conj Hsum eq_refl));
      by eapply square_of_shape.
  - apply (collect_transform_total cfg n) in Htr as (Hsu & Hsl & Hsum);
      try assumption.
    exact (conj (conj HG (conj Hn (conj Hsu Hsl))) (conj Hsum eq_refl)).
Qed.

(** C1.  From a valid catalyst field, under a 3 x 3 kernel whose weights sum
    to 1, any number of [step] calls leaves [sum(upper) + sum(lower)] equal
    to the initial total, and the total reported by each of the calls is
    that total too (over exact rationals). *)
Theorem catalyst_conserved fuel cfg n k s s' stats :
  kernel_ok cfg -> catalyst_wf cfg n s ->
  run fuel cfg k s = Ok (s', stats) ->
  (total_catalyst s' == total_catalyst s)%Q /\
  length stats = k /\
  Forall (fun st => (stats_total_catalyst st == total_catalyst s)%Q) stats.
Proof.
  intros Hk. revert s s' stats.
  induction k as [|k IH]; intros s s' stats Hwf H; cbn [run] in H.
  - injection H as <- <-. split; [reflexivity|]. split; [reflexivity|constructor].
  - inv_bind H as [s1 st] E1. inv_bind H as [s2 sts] E2.
    injection H as <- <-.
    destruct (step_catalyst _ _ _ _ _ _ Hk Hwf E1) as (Hwf1 & Hsum1 & Hst).
    destruct (IH _ _ _ Hwf1 E2) as (Hsum2 & Hlen & Hall).
    split; [by rewrite Hsum2|]. split; [cbn; by rewrite Hlen|].
    constructor.
    + by rewrite Hst.
    + eapply Forall_impl; [exact Hall|]. intros st0 H0. cbn in H0.
      by rewrite H0.
Qed.

(** *** Determinism *)

Lemma for_each_det {A S} (body1 body2 : A -> S -> res S) l :
  (forall a s r1 r2, body1 a s = Ok r1 -> body2 a s = Ok r2 -> r1 = r2) ->
  forall s r1 r2,
    for_each l body1 s = Ok r1 -> for_each l body2 s = Ok r2 -> r1 = r2.
Proof.
  intros Hbody. induction l as [|a l IH]; intros s r1 r2 H1 H2; cbn in *.
  - congruence.
  - inv_bind H1 as s1 E1. inv_bind H2 as s2 E2.
    rewrite (Hbody _ _ _ _ E1 E2) in H1. by eapply IH.
Qed.

Lemma draw_free_position_det f1 f2 cfg positions r r1 r2 :
  draw_free_position f1 cfg positions r = Ok r1 ->
  draw_free_position f2 cfg positions r = Ok r2 -> r1 = r2.
Proof.
  revert f2 r. induction f1 as [|f1 IH]; intros [|f2] r H1 H2; cbn in *;
    try discriminate.
  inv_bind H1 as [x ra] Ex. rewrite Ex in H2. cbn in H2.
  inv_bind H1 as [y rb] Ey. rewrite Ey in H2. cbn in H2.
  destruct (bool_decide _); [by eapply IH|congruence].
Qed.

Lemma initialize_cores_det f1 f2 cfg num cs r r1 r2 :
  initialize_cores f1 cfg num cs r = Ok r1 ->
  initialize_cores f2 cfg num cs r = Ok r2 -> r1 = r2.
Proof.
  unfold initialize_cores. intros H1 H2.
  inv_bind H1 as [[p1 c1] q1] E1. inv_bind H2 as [[p2 c2] q2] E2.
  injection H1 as <-. injection H2 as <-.
  assert ((p1, c1, q1) = (p2, c2, q2)) as [= -> -> ->]; [|reflexivity].
  eapply for_each_det; [|exact E1|exact E2].
  intros _ [[ps cs0] r0] a1 a2 Ha1 Ha2.
  inv_bind Ha1 as [[x1 y1] rr1] Ed1. inv_bind Ha2 as [[x2 y2] rr2] Ed2.
  pose proof (draw_free_position_det _ _ _ _ _ _ _ Ed1 Ed2) as [= -> -> ->].
  congruence.
Qed.

Lemma reset_det f1 f2 cfg s s1 s2 :
  reset f1 cfg s = Ok s1 -> reset f2 cfg s = Ok s2 -> s1 = s2.
Proof.
  unfold reset. intros H1 H2.
  inv_bind H1 as [temp r1] Et. rewrite Et in H2. cbn in H2.
  inv_bind H1 as [u r2] Eu. rewrite Eu in H2. cbn in H2.
  inv_bind H1 as [cs1 ra] E1. inv_bind H2 as [cs2 rb] E2.
  pose proof (initialize_cores_det _ _ _ _ _ _ _ _ E1 E2) as [= -> ->].
  congruence.
Qed.

Lemma update_cores_det f1 f2 cfg em i b s r1 r2 :
  update_cores f1 cfg em i b s = Ok r1 ->
  update_cores f2 cfg em i b s = Ok r2 -> r1 = r2.
Proof.
  revert f2 i b s. induction f1 as [|f1 IH]; intros [|f2] i b s H1 H2;
    cbn in *; destruct (cores s !! i) as [core|]; try discriminate;
    try congruence.
  inv_bind H1 as [b1 s1] E1. rewrite E1 in H2. cbn in H2. by eapply IH.
Qed.

Lemma step_det f1 f2 cfg s r1 r2 :
  step f1 cfg s = Ok r1 -> step f2 cfg s = Ok r2 -> r1 = r2.
Proof.
  unfold step. intros H1 H2.
  inv_bind H1 as [em s1] E. rewrite E in H2. cbn in H2.
  inv_bind H1 as [b1 sa] E1. inv_bind H2 as [b2 sb] E2.
  pose proof (update_cores_det _ _ _ _ _ _ _ _ _ E1 E2) as [= -> ->].
  congruence.
Qed.

Lemma run_det f1 f2 cfg k s r1 r2 :
  run f1 cfg k s = Ok r1 -> run f2 cfg k s = Ok r2 -> r1 = r2.
Proof.
  revert s r1 r2. induction k as [|k IH]; intros s r1 r2 H1 H2; cbn in *.
  - congruence.
  - inv_bind H1 as [sa sta] Ea. inv_bind H2 as [sb stb] Eb.
    pose proof (step_det _ _ _ _ _ _ Ea Eb) as [= -> ->].
    inv_bind H1 as [sa' la] Ea'. inv_bind H2 as [sb' lb] Eb'.
    pose proof (IH _ _ _ Ea' Eb') as [= -> ->]. congruence.
Qed.

(** C5.  Two simulations constructed with the same seed under the same
    configuration and stepped [k] times each return the same sequence of
    statistics records (and end in the same state), whatever bound each
    run of the model puts on its loops. *)
Theorem same_seed_same_stats cfg seed0 k f1 f2 g1 g2 s1 s2 s1' s2' stats1 stats2 :
  init f1 cfg seed0 = Ok s1 ->
  init f2 cfg seed0 = Ok s2 ->
  run g1 cfg k s1 = Ok (s1', stats1) ->
  run g2 cfg k s2 = Ok (s2', stats2) ->
  stats1 = stats2 /\ s1' = s2'.
Proof.
  unfold init. intros H1 H2 R1 R2.
  rewrite (reset_det _ _ _ _ _ _ H1 H2) in R1.
  by pose proof (run_det _ _ _ _ _ _ _ R1 R2) as [= -> ->].
Qed.

(** *** Termination of [step] *)

(** A core on the grid. *)
Definition core_in_grid (n : nat) (c : Core.t) : Prop :=
  0 <= Core.x c < Z.of_nat n /\ 0 <= Core.y c < Z.of_nat n.

(** A well-formed simulation: the three grids are [n] x [n] for the
    configured grid size [n >= 1], and every core is on the grid. *)
Definition sim_wf (cfg : Config) (n : nat) (s : Simulation) : Prop :=
  GRID_SIZE cfg = Z.of_nat n /\ (0 < n)%nat /\
  square n (temperature s) /\
  square n (catalyst_upper s) /\ square n (catalyst_lower s) /\
  Forall (core_in_grid n) (cores s).

(** A core on which [update] has never been called. *)
Definition fresh (c : Core.t) : Prop :=
  exists x y, c = Core.new x y.

Lemma grid_get_Ok n g y x :
  square n g -> 0 <= y < Z.of_nat n -> 0 <= x < Z.of_nat n ->
  exists v, grid_get g y x = Ok v.
Proof.
  intros Hsq Hy Hx. pose proof Hsq as [Hlen Hrows]. unfold grid_get, np_index.
  rewrite Hlen, bool_decide_eq_true_2 by assumption. cbn [mbind res_bind].
  destruct (lookup_lt_is_Some_2 g (Z.to_nat y)) as [row Erow]; [lia|].
  rewrite Erow.
  assert (length row = n) as Hrow
    by (rewrite Forall_forall in Hrows; apply Hrows;
        by eapply list_elem_of_lookup_2).
  rewrite Hrow, bool_decide_eq_true_2 by assumption. cbn [mbind res_bind].
  destruct (lookup_lt_is_Some_2 row (Z.to_nat x)) as [v Ev]; [lia|].
  rewrite Ev. eauto.
Qed.

Lemma spawn_new_cores_Ok cfg px py count cs r :
  GRID_SIZE cfg <> 0 ->
  exists cs' r', spawn_new_cores cfg px py count cs r = Ok (cs', r').
Proof.
  intros HG. unfold spawn_new_cores.
  destruct (for_each_inv
    (fun (_ : nat) '(cs, r) =>
       '(dx, r1) ← randint (-5) 6 r;
       '(dy, r2) ← randint (-5) 6 r1;
       if GRID_SIZE cfg =? 0 then Raise ZeroDivisionError else
       Ok (cs ++ [Core.new ((px + dx) mod GRID_SIZE cfg)
                           ((py + dy) mod GRID_SIZE cfg)], r2))
    (fun _ _ => True) (range count) [] (cs, r)) as ([cs' r'] & H & _);
    [exact I| |eauto].
  intros d a [cs0 r0] _ _. unfold randint. cbn.
  destruct (rng_randint (-5) 6 r0) as [dx r1]. cbn.
  destruct (rng_randint (-5) 6 r1) as [dy r2]. cbn.
  apply Z.eqb_neq in HG. rewrite HG. eauto.
Qed.

Lemma spawned_in_grid cfg n px py c :
  GRID_SIZE cfg = Z.of_nat n -> (0 < n)%nat ->
  spawned_near cfg px py c -> core_in_grid n c /\ fresh c.
Proof.
  intros HG Hn (dx & dy & _ & _ & ->). rewrite HG. split.
  - split; cbn; apply Z.mod_pos_bound; lia.
  - by eexists _, _.
Qed.

(** One visit of the loop returns on a well-formed simulation, and leaves
    it well-formed. *)
Lemma update_core_at_Ok cfg n em i core b s :
  sim_wf cfg n s -> cores s !! i = Some core ->
  exists b' s',
    update_core_at cfg em i core b s = Ok (b', s') /\ sim_wf cfg n s'.
Proof.
  intros (HG & Hn & Ht & Hu & Hl & Hcs) Hi.
  assert (core_in_grid n core) as [Hx Hy].
  { rewrite Forall_forall in Hcs. apply Hcs. by eapply list_elem_of_lookup_2. }
  destruct (grid_get_Ok n _ _ _ Ht Hy Hx) as [temp Etemp].
  destruct (grid_get_Ok n _ _ _ Hu Hy Hx) as [cat Ecat].
  destruct (spawn_new_cores_Ok cfg (Core.x core) (Core.y core) (SPAWN_S cfg)
              (<[i := (Core.update cfg core (tick s) temp cat em).1]> (cores s))
              (rng s)) as (cs' & r' & Esp); [lia|].
  assert (exists b' s', update_core_at cfg em i core b s = Ok (b', s'))
    as (b' & s' & H).
  { unfold update_core_at. rewrite Etemp, Ecat. cbn [mbind res_bind].
    destruct (Core.update _ _ _ _ _ _) as [core' did]. cbn [fst] in Esp.
    destruct did; [|eauto].
    destruct (0 <? SPAWN_S cfg); [rewrite Esp|]; cbn; eauto. }
  exists b', s'. split; [assumption|].
  pose proof (update_core_at_fields _ _ _ _ _ _ _ _ H) as (_ & _ & Ht' & Hu' & Hl').
  apply update_core_at_spec in H
    as (temp' & cat' & core' & did & new & _ & _ & Hup & Hcs' & _ & Hnew & _).
  unfold sim_wf. rewrite Ht', Hu', Hl', Hcs'.
  repeat (split; [assumption|]).
  apply Forall_app. split.
  - apply Forall_insert; [assumption|].
    destruct (update_total_blooms _ _ _ _ _ _ _ _ Hup) as (_ & Hx' & Hy').
    unfold core_in_grid. by rewrite Hx', Hy'.
  - eapply Forall_impl; [exact Hnew|]. intros c Hc.
    exact (proj1 (spawned_in_grid cfg n _ _ c HG Hn Hc)).
Qed.

(** With [TAU_TEMP >= 2], a core that has never been updated does not bloom
    on its first update. *)
Lemma update_fresh_no_bloom cfg c tick0 temp cat em :
  2 <= TAU_TEMP cfg -> fresh c ->
  (Core.update cfg c tick0 temp cat em).2 = false.
Proof.
  intros Htau (x & y & ->). unfold Core.update. cbn.
  destruct (Core.in_range cfg temp);
    (replace (TAU_TEMP cfg <=? _) with false
       by (symmetry; apply Z.leb_gt; lia));
    by rewrite !andb_false_r.
Qed.

(** The loop over cores that have never been updated visits each of them
    once and stops. *)
Lemma update_cores_fresh_Ok cfg n em :
  2 <= TAU_TEMP cfg ->
  forall k i b s,
    sim_wf cfg n s ->
    (length (cores s) - i <= k)%nat ->
    (forall j c, (i <= j)%nat -> cores s !! j = Some c -> fresh c) ->
    exists b' s',
      update_cores k cfg em i b s = Ok (b', s') /\ sim_wf cfg n s'.
Proof.
  intros Htau. induction k as [|k IH]; intros i b s Hwf Hk Hfresh.
  - cbn. rewrite lookup_ge_None_2 by lia. eauto.
  - cbn. destruct (cores s !! i) as [core|] eqn:Ei; [|eauto].
    destruct (update_core_at_Ok cfg n em i core b s Hwf Ei)
      as (b1 & s1 & H1 & Hwf1).
    rewrite H1. cbn [mbind res_bind].
    pose proof H1 as Hspec. apply update_core_at_spec in Hspec
      as (temp & cat & core' & did & new & _ & _ & Hup & Hcs & Hlen & _).
    pose proof (update_fresh_no_bloom cfg core (tick s) temp cat em Htau
                  (Hfresh i core (le_n _) Ei)) as Hno.
    rewrite Hup in Hno. cbn in Hno. subst did.
    destruct new; [|discriminate]. rewrite app_nil_r in Hcs.
    apply IH; [assumption| |].
    + rewrite Hcs, length_insert. apply lookup_lt_Some in Ei. lia.
    + intros j c Hj Hc. rewrite Hcs in Hc.
      rewrite list_lookup_insert_ne in Hc by lia.
      apply (Hfresh j c); [lia|assumption].
Qed.

(** The loop over the cores returns: cores from index [m] on have never
    been updated, and only the cores before [m] can append new ones. *)
Lemma update_cores_Ok cfg n em :
  2 <= TAU_TEMP cfg ->
  forall d m i b s,
    sim_wf cfg n s ->
    (m - i <= d)%nat ->
    (forall j c, (m <= j)%nat -> cores s !! j = Some c -> fresh c) ->
    exists fuel b' s',
      update_cores fuel cfg em i b s = Ok (b', s') /\ sim_wf cfg n s'.
Proof.
  intros Htau. induction d as [|d IH]; intros m i b s Hwf Hd Hfresh.
  - destruct (update_cores_fresh_Ok cfg n em Htau
                (length (cores s) - i) i b s Hwf (le_n _)) as (b' & s' & H);
      [|eauto].
    intros j c Hj. apply Hfresh. lia.
  - destruct (cores s !! i) as [core|] eqn:Ei;
      [|exists O; cbn; rewrite Ei; eauto].
    destruct (update_core_at_Ok cfg n em i core b s Hwf Ei)
      as (b1 & s1 & H1 & Hwf1).
    pose proof H1 as Hspec. apply update_core_at_spec in Hspec
      as (temp & cat & core' & did & new & _ & _ & _ & Hcs & _ & Hnew & _).
    destruct (IH (Nat.max m (S i)) (S i) b1 s1 Hwf1) as (fuel & b' & s' & H & Hwf');
      [lia| |].
    + intros j c Hj Hc. rewrite Hcs in Hc.
      destruct (decide (j < length (cores s))%nat) as [Hlt|Hge].
      * rewrite lookup_app_l in Hc by (by rewrite length_insert).
        rewrite list_lookup_insert_ne in Hc by lia.
        apply (Hfresh j c); [lia|assumption].
      * rewrite lookup_app_r in Hc by (rewrite length_insert; lia).
        apply list_elem_of_lookup_2 in Hc.
        rewrite Forall_forall in Hnew.
        destruct Hwf as (HG & Hn & _).
        exact (proj2 (spawned_in_grid cfg n _ _ c HG Hn (Hnew c Hc))).
    + exists (S fuel), b', s'. cbn. rewrite Ei, H1. cbn [mbind res_bind].
      by split.
Qed.

Lemma shift_temperature_Ok cfg n s :
  sim_wf cfg n s ->
  exists s', shift_temperature cfg s = Ok s' /\ sim_wf cfg n s'.
Proof.
  intros (HG & Hn & Ht & Hu & Hl & Hcs).
  unfold shift_temperature, rng_random_n. rewrite HG, Nat2Z.id.
  replace (Z.of_nat n <? 0) with false by (symmetry; apply Z.ltb_ge; lia).
  cbn [mbind res_bind mret res_ret].
  pose proof (length_random_vector n (rng s)) as Hlen.
  destruct (random_vector n (rng s)) as [column r]. cbn [fst] in Hlen.
  assert (square n (np_roll_cols (temperature s))) as Hroll
    by (eapply square_of_shape; [apply shape_np_roll_cols|assumption]).
  destruct (set_column0_spec n _ column Hn Hroll Hlen) as (g' & Hg' & Hsq' & _).
  rewrite Hg'. cbn [mbind res_bind]. eexists. split; [reflexivity|].
  exact (conj HG (conj Hn (conj Hsq' (conj Hu (conj Hl Hcs))))).
Qed.

Lemma emit_transform_Ok cfg n upper lower :
  square n upper -> square n lower ->
  exists upper' lower',
    emit_transform cfg upper lower = Ok (upper', lower') /\
    square n upper' /\ square n lower'.
Proof.
  intros Hu Hl. unfold emit_transform.
  assert (shape lower = shape upper) as Hs
    by (apply rect_shape in Hu, Hl; congruence).
  rewrite !np_zip_same_shape by (by rewrite shape_np_scale).
  cbn. eexists _, _. split; [reflexivity|].
  split; (eapply square_of_shape; [apply shape_zip_with|]);
    try assumption; by rewrite shape_np_scale.
Qed.

Lemma collect_transform_Ok cfg n upper lower :
  GRID_SIZE cfg = Z.of_nat n -> (0 < n)%nat ->
  square 3 (KERNEL_3x3 cfg) ->
  square n upper -> square n lower ->
  exists upper' lower',
    collect_transform cfg upper lower = Ok (upper', lower') /\
    square n upper' /\ square n lower'.
Proof.
  intros HG Hn Hk Hu Hl. unfold collect_transform.
  assert (shape upper = shape lower) as Hs
    by (apply rect_shape in Hu, Hl; congruence).
  rewrite np_zip_same_shape by assumption. cbn [mbind res_bind].
  assert (square n (zip_with (zip_with Qplus) upper lower)) as Hu1
    by (eapply square_of_shape; [by apply shape_zip_with|assumption]).
  destruct (apply_convolution_cells cfg _ _ n HG Hn Hu1 Hk)
    as (u2 & Eu2 & Hu2 & _).
  rewrite Eu2. cbn [mbind res_bind].
  destruct (advect_right_Ok u2 (ADVECT_ALPHA cfg)) as [u3 Eu3].
  rewrite Eu3. cbn. eexists _, _. split; [reflexivity|].
  apply advect_right_total in Eu3 as [Hs3 _].
  split; [by eapply square_of_shape|by apply square_zeros_like].
Qed.

Lemma step_fields_Ok cfg n s :
  square 3 (KERNEL_3x3 cfg) -> sim_wf cfg n s ->
  exists em s1, step_fields cfg s = Ok (em, s1) /\ sim_wf cfg n s1.
Proof.
  intros Hk Hwf. unfold step_fields.
  destruct (shift_temperature_Ok cfg n s Hwf)
    as (s0 & Es0 & HG & Hn & Ht & Hu & Hl & Hcs).
  rewrite Es0. cbn [mbind res_bind].
  destruct ((tick s + 1) mod 2 =? 0).
  - destruct (emit_transform_Ok cfg n _ _ Hu Hl) as (u' & l' & E & Hu' & Hl').
    rewrite E. cbn. eexists _, _. split; [reflexivity|].
    exact (conj HG (conj Hn (conj Ht (conj Hu' (conj Hl' Hcs))))).
  - destruct (collect_transform_Ok cfg n _ _ HG Hn Hk Hu Hl)
      as (u' & l' & E & Hu' & Hl').
    rewrite E. cbn. eexists _, _. split; [reflexivity|].
    exact (conj HG (conj Hn (conj Ht (conj Hu' (conj Hl' Hcs))))).
Qed.

Lemma step_Ok cfg n s :
  square 3 (KERNEL_3x3 cfg) -> 2 <= TAU_TEMP cfg -> sim_wf cfg n s ->
  exists fuel s' st, step fuel cfg s = Ok (s', st) /\ sim_wf cfg n s'.
Proof.
  intros Hk Htau Hwf. unfold step.
  destruct (step_fields_Ok cfg n s Hk Hwf) as (em & s1 & E1 & Hwf1).
  destruct (update_cores_Ok cfg n em Htau (length (cores s1))
              (length (cores s1)) O 0 s1 Hwf1) as (fuel & b' & s2 & E2 & Hwf2);
    [lia| |].
  { intros j c Hj Hc. apply lookup_lt_Some in Hc. lia. }
  exists fuel. rewrite E1. cbn [mbind res_bind]. rewrite E2. cbn.
  eexists _, _. by split.
Qed.

(** More fuel does not change a result. *)
Lemma update_cores_mono f f' cfg em i b s r :
  (f <= f')%nat ->
  update_cores f cfg em i b s = Ok r -> update_cores f' cfg em i b s = Ok r.
Proof.
  revert f' i b s. induction f as [|f IH]; intros f' i b s Hle H.
  - cbn in H. destruct (cores s !! i) eqn:E; [discriminate|].
    destruct f'; cbn; by rewrite E.
  - destruct f' as [|f']; [lia|]. cbn in *.
    destruct (cores s !! i); [|assumption].
    inv_bind H as [b1 s1] E1. rewrite E1. cbn. apply IH; [lia|assumption].
Qed.

Lemma step_mono f f' cfg s r :
  (f <= f')%nat -> step f cfg s = Ok r -> step f' cfg s = Ok r.
Proof.
  unfold step. intros Hle H. inv_bind H as [em s1] E1. rewrite E1. cbn.
  inv_bind H as [b s2] E2. by rewrite (update_cores_mono _ _ _ _ _ _ _ _ Hle E2).
Qed.

Lemma run_mono f f' cfg k s r :
  (f <= f')%nat -> run f cfg k s = Ok r -> run f' cfg k s = Ok r.
Proof.
  intros Hle. revert s r. induction k as [|k IH]; intros s r H; cbn in *;
    [assumption|].
  inv_bind H as [s1 st] E1. rewrite (step_mono _ _ _ _ _ Hle E1). cbn.
  inv_bind H as [s2 sts] E2. by rewrite (IH _ _ E2).
Qed.

(** X3.  With a 3 x 3 kernel and [TAU_TEMP >= 2], any number of [step]
    calls on a well-formed simulation returns, and leaves it well-formed. *)
Theorem run_returns cfg n k s :
  square 3 (KERNEL_3x3 cfg) -> 2 <= TAU_TEMP cfg -> sim_wf cfg n s ->
  exists fuel s' stats,
    run fuel cfg k s = Ok (s', stats) /\ sim_wf cfg n s'.
Proof.
  intros Hk Htau. revert s. induction k as [|k IH]; intros s Hwf.
  - exists O, s, []. by split.
  - destruct (step_Ok cfg n s Hk Htau Hwf) as (f1 & s1 & st & E1 & Hwf1).
    destruct (IH s1 Hwf1) as (f2 & s2 & sts & E2 & Hwf2).
    exists (Nat.max f1 f2), s2, (st :: sts). split; [|assumption].
    cbn. rewrite (step_mono f1 _ _ _ _ (Nat.le_max_l _ _) E1). cbn.
    by rewrite (run_mono f2 _ _ _ _ _ (Nat.le_max_r _ _) E2).
Qed.

(** X2.  The spawn fan-out: a visit of the loop that counts a bloom
    appends exactly [SPAWN_S] cores (none when [SPAWN_S <= 0]), each at
    [((x + dx) mod N, (y + dy) mod N)] for offsets in [-5 .. 5], bumps the
    simulation's counter and logs [(x, y, tick)]. *)
Theorem bloom_spawns_near cfg em i core b s b' s' :
  update_core_at cfg em i core b s = Ok (b', s') ->
  b' = b + 1 ->
  exists core' new,
    cores s' = <[i := core']> (cores s) ++ new /\
    length new = Z.to_nat (SPAWN_S cfg) /\
    Forall (spawned_near cfg (Core.x core) (Core.y core)) new /\
    total_blooms s' = total_blooms s + 1 /\
    bloom_locations s' =
      bloom_locations s ++ [(Core.x core, Core.y core, tick s)].
Proof.
  intros H Hb.
  apply update_core_at_spec in H
    as (temp & cat & core' & did & new & _ & _ & _ & Hcs & Hlen & Hnew & Hb' & Htb & Hbl).
  destruct did; [|lia].
  exists core', new. by repeat split.
Qed.

(** *** How many cores the loop visits *)

Lemma update_core_at_length cfg em i core b s b' s' :
  update_core_at cfg em i core b s = Ok (b', s') ->
  (length (cores s) <= length (cores s'))%nat.
Proof.
  intros H. apply update_core_at_spec in H
    as (temp & cat & core' & did & new & _ & _ & _ & Hcs & _).
  rewrite Hcs, length_app, length_insert. lia.
Qed.

Lemma update_cores_length fuel cfg em i b s b' s' :
  update_cores fuel cfg em i b s = Ok (b', s') ->
  (i <= length (cores s))%nat ->
  (length (cores s) <= length (cores s'))%nat /\
  (length (cores s') - i <= fuel)%nat /\
  update_cores (length (cores s') - i) cfg em i b s = Ok (b', s').
Proof.
  revert i b s. induction fuel as [|fuel IH]; intros i b s H Hi.
  - cbn in H. destruct (cores s !! i) eqn:E; [discriminate|].
    injection H as <- <-. apply lookup_ge_None_1 in E.
    replace (length (cores s) - i)%nat with O by lia.
    cbn. rewrite lookup_ge_None_2 by lia. by repeat split.
  - cbn in H. destruct (cores s !! i) as [core|] eqn:E.
    + inv_bind H as [b1 s1] E1.
      pose proof (update_core_at_length _ _ _ _ _ _ _ _ E1) as Hlen1.
      apply lookup_lt_Some in E as Hlt.
      destruct (IH _ _ _ H) as (Hlen & Hfuel & Hrun); [lia|].
      split; [lia|]. split; [lia|].
      replace (length (cores s') - i)%nat
        with (S (length (cores s') - S i)) by lia.
      cbn. rewrite E, E1. cbn. exact Hrun.
    + injection H as <- <-. apply lookup_ge_None_1 in E.
      replace (length (cores s) - i)%nat with O by lia.
      cbn. rewrite lookup_ge_None_2 by lia. split; [lia|]. split; [lia|done].
Qed.

Lemma update_cores_mono_raise f f' cfg em i b s e :
  (f <= f')%nat ->
  update_cores f cfg em i b s = Raise e ->
  update_cores f' cfg em i b s = Raise e.
Proof.
  revert f' i b s. induction f as [|f IH]; intros f' i b s Hle H.
  - cbn in H. destruct (cores s !! i); discriminate.
  - destruct f' as [|f']; [lia|]. cbn in *.
    destruct (cores s !! i) as [core|]; [|discriminate].
    destruct (update_core_at cfg em i core b s) as [[b1 s1]| |]; cbn in *;
      [|assumption|discriminate].
    apply IH; [lia|assumption].
Qed.

(** X4.  The loop over the cores runs its body once for every core of the
    list as it stands when the loop ends, the cores spawned during the loop
    included: that many visits are enough for the loop to return, and no
    smaller number is. *)
Theorem core_loop_visits_every_core fuel cfg em b s b' s' :
  update_cores fuel cfg em 0 b s = Ok (b', s') ->
  (length (cores s) <= length (cores s'))%nat /\
  update_cores (length (cores s')) cfg em 0 b s = Ok (b', s') /\
  forall f, (f < length (cores s'))%nat ->
            update_cores f cfg em 0 b s = Timeout.
Proof.
  intros H.
  destruct (update_cores_length _ _ _ _ _ _ _ _ H) as (Hlen & Hfuel & Hrun);
    [lia|].
  rewrite Nat.sub_0_r in Hrun, Hfuel. split; [assumption|].
  split; [assumption|]. intros f Hf.
  destruct (update_cores f cfg em 0 b s) as [[b1 s1]| |] eqn:E; [| |reflexivity].
  - pose proof (update_cores_det _ _ _ _ _ _ _ _ _ E H) as [= -> ->].
    destruct (update_cores_length _ _ _ _ _ _ _ _ E) as (_ & Hf' & _); lia.
  - apply (update_cores_mono_raise f fuel) in E; [congruence|lia].
Qed.

(** *** What [reset] builds *)

(** The grid position of a core. *)
Definition position (c : Core.t) : Z * Z := (Core.x c, Core.y c).

Lemma draw_free_position_spec fuel cfg positions r x y r' :
  draw_free_position fuel cfg positions r = Ok (x, y, r') ->
  ((x, y) ∉ positions) /\
  0 <= x < GRID_SIZE cfg /\ 0 <= y < GRID_SIZE cfg.
Proof.
  revert r. induction fuel as [|fuel IH]; intros r H; cbn in H;
    [discriminate|].
  inv_bind H as [x0 r1] Ex. inv_bind H as [y0 r2] Ey.
  destruct (bool_decide ((x0, y0) ∈ positions)) eqn:E.
  - exact (IH _ H).
  - injection H as <- <- <-. apply bool_decide_eq_false in E.
    apply randint_Ok in Ex, Ey. repeat split; assumption || lia.
Qed.

Lemma initialize_cores_spec fuel cfg num cs r cs' r' :
  initialize_cores fuel cfg num cs r = Ok (cs', r') ->
  exists new,
    cs' = cs ++ new /\ length new = Z.to_nat num /\
    NoDup (map position new) /\
    Forall (fun c => fresh c /\
                     0 <= Core.x c < GRID_SIZE cfg /\
                     0 <= Core.y c < GRID_SIZE cfg) new.
Proof.
  unfold initialize_cores. intros H.
  inv_bind H as [[positions cs1] r1] E. injection H as <- <-.
  eapply for_each_Ok_ind with
    (I := fun (done : list nat) (st : list (Z * Z) * list Core.t * rng_state) =>
            exists new,
              st.1.2 = cs ++ new /\ length new = length done /\
              st.1.1 = rev (map position new) /\ NoDup st.1.1 /\
              Forall (fun c => fresh c /\
                               0 <= Core.x c < GRID_SIZE cfg /\
                               0 <= Core.y c < GRID_SIZE cfg) new)
    (done := []) in E.
  - destruct E as (new & Hcs & Hlen & Hpos & Hnd & Hall).
    cbn [fst snd app] in *.
    exists new. split; [assumption|].
    split; [rewrite Hlen; unfold range; by rewrite length_seq|].
    split; [|assumption].
    rewrite Hpos in Hnd. by rewrite <- Permutation_rev in Hnd.
  - exists []. cbn. rewrite app_nil_r. repeat split; constructor.
  - intros d a [[ps0 cs0] r0] [[ps1 cs2] r2]
      (new & Hcs & Hlen & Hpos & Hnd & Hall) _ Hbody.
    cbn [fst snd] in *. subst cs0.
    inv_bind Hbody as [[x y] r3] Ed. injection Hbody as <- <- <-.
    apply draw_free_position_spec in Ed as (Hfree & Hx & Hy).
    exists (new ++ [Core.new x y]). cbn [fst snd].
    split; [by rewrite app_assoc|].
    split; [rewrite !length_app; cbn; lia|].
    split; [rewrite map_app, rev_app_distr; cbn; by rewrite Hpos|].
    split; [by constructor|].
    apply Forall_app. split; [assumption|]. apply Forall_singleton.
    split; [by eexists _, _|]. by split.
Qed.

(** X5.  What [reset] returns: tick 0, zeroed counters and an empty event log,
    the seed kept; a temperature grid and an upper catalyst layer drawn, in
    this order, from the stream where the instance left it, with the upper
    layer scaled by 0.2 and the lower layer zero; and [INITIAL_CORES] cores
    on which [update] has never been called, on the grid, at positions that
    are pairwise different. *)
Theorem reset_spec fuel cfg s s' :
  reset fuel cfg s = Ok s' ->
  let n := Z.to_nat (GRID_SIZE cfg) in
  seed s' = seed s /\ tick s' = 0 /\
  total_blooms s' = 0 /\ bloom_locations s' = [] /\
  temperature s' = (random_grid n n (rng s)).1 /\
  catalyst_upper s'
  = np_scale (2 # 10) (random_grid n n (random_grid n n (rng s)).2).1 /\
  catalyst_lower s' = np_zeros n n /\
  length (cores s') = Z.to_nat (INITIAL_CORES cfg) /\
  NoDup (map position (cores s')) /\
  Forall (fun c => fresh c /\
                   0 <= Core.x c < GRID_SIZE cfg /\
                   0 <= Core.y c < GRID_SIZE cfg) (cores s').
Proof.
  unfold reset, rng_random_nn. intros H. cbv zeta.
  destruct (GRID_SIZE cfg <? 0); [discriminate|]. cbn in H.
  set (n := Z.to_nat (GRID_SIZE cfg)) in *.
  destruct (random_grid n n (rng s)) as [temp r1]. cbn [fst snd].
  destruct (random_grid n n r1) as [u r2] eqn:Eu.
  inv_bind H as [cs r3] E. injection H as <-. cbn.
  apply initialize_cores_spec in E as (new & -> & Hlen & Hnd & Hall).
  cbn [app]. rewrite ?Eu. repeat split; assumption || reflexivity.
Qed.

End SimulationFacts.

(** * Concrete runs

    The engine run on the stream [LCG.stream], in the 3 x 3 world
    [small_config]. *)

(** Tick 1 is over; the only core, at [(1, 1)], has seven ticks of exposure
    behind it, the temperature is 0.5 everywhere and the upper catalyst
    layer holds 1 in every cell. *)
Definition bloom_ready : @Simulation Z := {|
  seed := 42; rng := 7; tick := 1;
  temperature := replicate 3 (replicate 3 (1 # 2));
  catalyst_upper := replicate 3 (replicate 3 1%Q);
  catalyst_lower := replicate 3 (replicate 3 0%Q);
  cores := [{| Core.x := 1; Core.y := 1; Core.temp_exposure_count := 7;
               Core.bloomed := false; Core.refractory_countdown := 0;
               Core.total_blooms := 0; Core.last_bloom_tick := -1 |}];
  total_blooms := 0;
  bloom_locations := []
|}.

Lemma kernel_ok_small : kernel_ok small_config.
Proof.
  split.
  - split; [reflexivity|]. by repeat constructor.
  - vm_compute. reflexivity.
Qed.

Lemma sim_wf_bloom_ready : sim_wf small_config 3 bloom_ready.
Proof.
  unfold sim_wf, square, core_in_grid. cbn.
  repeat split; try lia; by repeat constructor.
Qed.

Lemma catalyst_wf_bloom_ready : catalyst_wf small_config 3 bloom_ready.
Proof.
  destruct sim_wf_bloom_ready as (HG & Hn & _ & Hu & Hl & _).
  exact (conj HG (conj Hn (conj Hu Hl))).
Qed.

(** The states and results below are the values the engine computes; each
    is tied to the call that produces it by an evaluation lemma. *)

Definition after_two_steps : @Simulation Z * list StepStats :=
  Eval vm_compute in
    match run 10 small_config 2 bloom_ready with
    | Ok r => r
    | _ => (bloom_ready, [])
    end.

Lemma run_bloom_ready :
  run 10 small_config 2 bloom_ready = Ok after_two_steps.
Proof. vm_compute. reflexivity. Qed.

Definition after_bloom : @Simulation Z * StepStats :=
  Eval vm_compute in
    match step 10 small_config bloom_ready with
    | Ok r => r
    | _ => (bloom_ready,
            {| stats_tick := 0; stats_emit_mode := false;
               stats_blooms_this_tick := 0; stats_total_blooms := 0;
               stats_total_catalyst := 0 |})
    end.

Lemma step_bloom_ready : step 10 small_config bloom_ready = Ok after_bloom.
Proof. vm_compute. reflexivity. Qed.

Definition fresh_42 : @Simulation Z :=
  Eval vm_compute in
    match init 50 small_config (Some 42) with
    | Ok s => s
    | _ => bloom_ready
    end.

Lemma init_42 : init 50 small_config (Some 42) = Ok fresh_42.
Proof. vm_compute. reflexivity. Qed.

Lemma init_42_more_fuel : init 60 small_config (Some 42) = Ok fresh_42.
Proof. vm_compute. reflexivity. Qed.

Definition fresh_42_stepped : @Simulation Z * list StepStats :=
  Eval vm_compute in
    match run 10 small_config 1 fresh_42 with
    | Ok r => r
    | _ => (bloom_ready, [])
    end.

Lemma run_fresh_42 : run 10 small_config 1 fresh_42 = Ok fresh_42_stepped.
Proof. vm_compute. reflexivity. Qed.

Lemma run_fresh_42_more_fuel :
  run 20 small_config 1 fresh_42 = Ok fresh_42_stepped.
Proof. vm_compute. reflexivity. Qed.

Definition reset_once : @Simulation Z :=
  Eval vm_compute in
    match reset 50 small_config fresh_42 with
    | Ok s => s
    | _ => bloom_ready
    end.

Lemma reset_fresh_42 : reset 50 small_config fresh_42 = Ok reset_once.
Proof. vm_compute. reflexivity. Qed.

Definition reset_twice : @Simulation Z :=
  Eval vm_compute in
    match reset 50 small_config reset_once with
    | Ok s => s
    | _ => bloom_ready
    end.

Lemma reset_reset_once : reset 50 small_config reset_once = Ok reset_twice.
Proof. vm_compute. reflexivity. Qed.

Lemma catalyst_conserved_witness :
  run 10 small_config 2 bloom_ready = Ok after_two_steps /\
  (total_catalyst after_two_steps.1 == total_catalyst bloom_ready)%Q /\
  length after_two_steps.2 = 2%nat /\
  Forall (fun st => (stats_total_catalyst st == total_catalyst bloom_ready)%Q)
         after_two_steps.2.
Proof.
  split; [exact run_bloom_ready|].
  exact (catalyst_conserved 10 small_config 3 2 bloom_ready
           after_two_steps.1 after_two_steps.2
           kernel_ok_small catalyst_wf_bloom_ready run_bloom_ready).
Defined.

Lemma same_seed_same_stats_witness :
  init 50 small_config (Some 42) = Ok fresh_42 /\
  init 60 small_config (Some 42) = Ok fresh_42 /\
  run 10 small_config 1 fresh_42 = Ok fresh_42_stepped /\
  run 20 small_config 1 fresh_42 = Ok fresh_42_stepped /\
  fresh_42_stepped.2 = fresh_42_stepped.2 /\
  fresh_42_stepped.1 = fresh_42_stepped.1.
Proof.
  refine (conj init_42 (conj init_42_more_fuel
           (conj run_fresh_42 (conj run_fresh_42_more_fuel _)))).
  exact (same_seed_same_stats small_config (Some 42) 1 50 60 10 20
           fresh_42 fresh_42 fresh_42_stepped.1 fresh_42_stepped.1
           fresh_42_stepped.2 fresh_42_stepped.2
           init_42 init_42_more_fuel run_fresh_42 run_fresh_42_more_fuel).
Defined.

Lemma shift_temperature_scroll_witness :
  (forall s0 : @Simulation Z,
      reachable s0 -> Forall (Forall unit_interval) (temperature s0)) /\
  exists s',
    shift_temperature small_config bloom_ready = Ok s' /\
    square 3 (temperature s') /\
    rng s' = (random_vector 3 (rng bloom_ready)).2 /\
    (forall r c, (r < 3)%nat -> (1 <= c < 3)%nat ->
       cell (temperature s') r c = cell (temperature bloom_ready) r (c - 1)) /\
    (forall r, (r < 3)%nat ->
       cell (temperature s') r 0
       = nth r (random_vector 3 (rng bloom_ready)).1 0%Q /\
       unit_interval (cell (temperature s') r 0)) /\
    (Forall (Forall unit_interval) (temperature bloom_ready) ->
     Forall (Forall unit_interval) (temperature s')).
Proof.
  refine (shift_temperature_scroll small_config 3 bloom_ready eq_refl _ _).
  - lia.
  - split; [reflexivity|]. by repeat constructor.
Defined.



Lemma run_returns_witness :
  exists fuel s' stats,
    run fuel small_config 5 bloom_ready = Ok (s', stats) /\
    sim_wf small_config 3 s'.
Proof.
  refine (run_returns small_config 3 5 bloom_ready _ _ sim_wf_bloom_ready).
  - apply kernel_ok_small.
  - vm_compute. discriminate.
Defined.

Lemma bloom_spawns_near_witness :
  exists b' s' core' new,
    update_core_at small_config true 0
      {| Core.x := 1; Core.y := 1; Core.temp_exposure_count := 7;
         Core.bloomed := false; Core.refractory_countdown := 0;
         Core.total_blooms := 0; Core.last_bloom_tick := -1 |}
      0 bloom_ready = Ok (b', s') /\
    cores s' = <[0%nat := core']> (cores bloom_ready) ++ new /\
    length new = 2%nat /\
    Forall (spawned_near small_config 1 1) new.
Proof.
  destruct (update_core_at small_config true 0
      {| Core.x := 1; Core.y := 1; Core.temp_exposure_count := 7;
         Core.bloomed := false; Core.refractory_countdown := 0;
         Core.total_blooms := 0; Core.last_bloom_tick := -1 |}
      0 bloom_ready) as [[b' s']| |] eqn:E;
    [|vm_compute in E; discriminate E..].
  assert (b' = 0 + 1) as Hb
    by (vm_compute in E; by injection E as <- _).
  destruct (bloom_spawns_near _ _ _ _ _ _ _ _ E Hb)
    as (core' & new & Hcs & Hlen & Hnew & _).
  exists b', s', core', new. by repeat split.
Defined.

(** A 3 x 3 world in which every temperature is in range and every amount
    of catalyst is enough, so that the single initial core blooms on the
    first emission tick, tick 2. *)
Definition warm_config : Config := {|
  GRID_SIZE := 3;
  C_THRESH := 0;
  EMIT_FRACTION := 6 # 10;
  KERNEL_3x3 := KERNEL_3x3 default_config;
  ADVECT_ALPHA := 5 # 100;
  T_MIN := 0;
  T_MAX := 1;
  TAU_TEMP := 2;
  TAU_REFRACT := 12;
  SPAWN_S := 2;
  RNG_SEED := 42;
  INITIAL_CORES := 1
|}.

(** C2.  Under [warm_config] a simulation is constructed with seed 42 and
    stepped twice.  Its one core, at [(2, 0)], blooms on tick 2 and spawns
    two cores.  When the second [step] returns, both spawned cores have an
    exposure count of 1, where a core that has not been updated has 0:
    [update] has been called on them during the tick they were spawned in.
    The loop [for core in self.cores] runs over the very list that
    [spawn_new_cores] appends to. *)
Theorem spawned_cores_updated_in_birth_tick :
  (s0 ← init 50 warm_config (Some 42);
   '(s2, stats) ← run 10 warm_config 2 s0;
   Ok (cores s0,
       map stats_tick stats,
       map stats_blooms_this_tick stats,
       bloom_locations s2,
       cores s2))
  = Ok ([Core.new 2 0],
        [1; 2],
        [0; 1],
        [(2, 0, 2)],
        [{| Core.x := 2; Core.y := 0; Core.temp_exposure_count := 0;
            Core.bloomed := true; Core.refractory_countdown := 12;
            Core.total_blooms := 1; Core.last_bloom_tick := 2 |};
         {| Core.x := 2; Core.y := 1; Core.temp_exposure_count := 1;
            Core.bloomed := false; Core.refractory_countdown := 0;
            Core.total_blooms := 0; Core.last_bloom_tick := -1 |};
         {| Core.x := 1; Core.y := 2; Core.temp_exposure_count := 1;
            Core.bloomed := false; Core.refractory_countdown := 0;
            Core.total_blooms := 0; Core.last_bloom_tick := -1 |}]).
Proof. vm_compute. reflexivity. Qed.

(** C4.  A simulation is constructed with seed 42 and [reset] is called on
    it twice.  Each [reset] returns a state at tick 0 with zeroed counters,
    but not the state of the construction: the temperature grid (its cell
    [(0, 0)] below) and the cores are drawn from where the stream stands,
    and the stream is seeded by [__init__] only. *)
Theorem reset_does_not_reseed :
  init 50 small_config (Some 42) = Ok fresh_42 /\
  reset 50 small_config fresh_42 = Ok reset_once /\
  reset 50 small_config reset_once = Ok reset_twice /\
  tick reset_once = 0 /\ total_blooms reset_once = 0 /\
  bloom_locations reset_once = [] /\
  cell (temperature fresh_42) 0 0 = 1250496027 # 2147483648 /\
  cell (temperature reset_once) 0 0 = 881784893 # 2147483648 /\
  cell (temperature reset_twice) 0 0 = 2012129743 # 2147483648 /\
  map Core.y (cores fresh_42) = [0; 0] /\
  map Core.y (cores reset_once) = [1; 0] /\
  temperature reset_once <> temperature fresh_42 /\
  temperature reset_twice <> temperature reset_once.
Proof.
  split; [exact init_42|]. split; [exact reset_fresh_42|].
  split; [exact reset_reset_once|].
  repeat (split; [vm_compute; reflexivity|]).
  split; intros H; apply (f_equal (fun g => cell g 0 0)) in H;
    vm_compute in H; discriminate H.
Qed.

(** [bloom_ready] after the part of [step] that comes before the loop over
    the cores, and what that loop returns on it. *)
Definition bloom_ready_emitted : @Simulation Z :=
  Eval vm_compute in
    match step_fields small_config bloom_ready with
    | Ok (_, s) => s
    | _ => bloom_ready
    end.

Definition bloom_ready_looped : Z * @Simulation Z :=
  Eval vm_compute in
    match update_cores 10 small_config true 0 0 bloom_ready_emitted with
    | Ok r => r
    | _ => (0, bloom_ready)
    end.

Lemma update_cores_bloom_ready :
  update_cores 10 small_config true 0 0 bloom_ready_emitted
  = Ok bloom_ready_looped.
Proof. vm_compute. reflexivity. Qed.

Lemma core_loop_visits_every_core_witness :
  length (cores bloom_ready_emitted) = 1%nat /\
  length (cores bloom_ready_looped.2) = 3%nat /\
  update_cores 3 small_config true 0 0 bloom_ready_emitted
  = Ok bloom_ready_looped /\
  forall f, (f < 3)%nat ->
            update_cores f small_config true 0 0 bloom_ready_emitted = Timeout.
Proof.
  split; [reflexivity|]. split; [reflexivity|].
  exact (proj2 (core_loop_visits_every_core 10 small_config true 0
                  bloom_ready_emitted bloom_ready_looped.1 bloom_ready_looped.2
                  update_cores_bloom_ready)).
Defined.

Lemma reset_spec_witness :
  reset 50 small_config fresh_42 = Ok reset_once /\
  seed reset_once = 42 /\ tick reset_once = 0 /\
  total_blooms reset_once = 0 /\ bloom_locations reset_once = [] /\
  length (cores reset_once) = 2%nat /\
  NoDup (map position (cores reset_once)).
Proof.
  split; [exact reset_fresh_42|].
  destruct (reset_spec 50 small_config fresh_42 reset_once reset_fresh_42)
    as (Hseed & Htick & Htb & Hbl & _ & _ & _ & Hlen & Hnd & _).
  by repeat split.
Defined.

(** * Further properties of the engine *)

(** ** A core under a sequence of updates *)

(** [update] called on one core once per entry
    [(tick, temperature, catalyst, emit_mode)] of [inputs], in order: the
    core after the calls and the values returned. *)
Fixpoint updates (cfg : Config) (c : Core.t) (inputs : list (Z * Q * Q * bool))
  : Core.t * list bool :=
  match inputs with
  | [] => (c, [])
  | (tick, temperature, catalyst, emit_mode) :: rest =>
      let '(c1, r) := Core.update cfg c tick temperature catalyst emit_mode in
      let '(c2, rs) := updates cfg c1 rest in
      (c2, r :: rs)
  end.

(** An update whose temperature is in range and that cannot bloom: the tick
    is a collection tick, or the catalyst is below the threshold. *)
Definition warm_no_bloom (cfg : Config) (input : Z * Q * Q * bool) : Prop :=
  let '(_, temperature, catalyst, emit_mode) := input in
  (T_MIN cfg <= temperature)%Q /\ (temperature <= T_MAX cfg)%Q /\
  (emit_mode = false \/ (catalyst < C_THRESH cfg)%Q).

(** An update whose temperature is out of range. *)
Definition cold (cfg : Config) (input : Z * Q * Q * bool) : Prop :=
  let '(_, temperature, _, _) := input in
  (temperature < T_MIN cfg)%Q \/ (T_MAX cfg < temperature)%Q.

Lemma Qle_bool_false a b : (b < a)%Q -> Qle_bool a b = false.
Proof.
  intros H. apply not_true_is_false. intros Hle.
  apply Qle_bool_iff in Hle. by apply Qlt_not_le in H.
Qed.

Lemma in_range_false cfg temperature :
  (temperature < T_MIN cfg)%Q \/ (T_MAX cfg < temperature)%Q ->
  Core.in_range cfg temperature = false.
Proof.
  unfold Core.in_range. intros [H|H]; rewrite (Qle_bool_false _ _ H);
    [reflexivity|apply andb_false_r].
Qed.

Lemma update_warm_no_bloom cfg c tick temperature catalyst emit_mode :
  Core.refractory_countdown c <= 0 ->
  warm_no_bloom cfg (tick, temperature, catalyst, emit_mode) ->
  Core.update cfg c tick temperature catalyst emit_mode =
  ({| Core.x := Core.x c; Core.y := Core.y c;
      Core.temp_exposure_count := Core.temp_exposure_count c + 1;
      Core.bloomed := false;
      Core.refractory_countdown := Core.refractory_countdown c;
      Core.total_blooms := Core.total_blooms c;
      Core.last_bloom_tick := Core.last_bloom_tick c |}, false).
Proof.
  intros Hr (Hlo & Hhi & Hno). unfold Core.update.
  replace (0 <? Core.refractory_countdown c) with false
    by (symmetry; apply Z.ltb_ge; lia).
  rewrite (in_range_true _ _ Hlo Hhi).
  destruct Hno as [->|Hcat]; [reflexivity|].
  rewrite (Qle_bool_false _ _ Hcat). by rewrite andb_false_r.
Qed.

Lemma update_cold cfg c tick temperature catalyst emit_mode :
  Core.refractory_countdown c <= 0 ->
  0 < TAU_TEMP cfg ->
  cold cfg (tick, temperature, catalyst, emit_mode) ->
  Core.update cfg c tick temperature catalyst emit_mode =
  ({| Core.x := Core.x c; Core.y := Core.y c;
      Core.temp_exposure_count := 0;
      Core.bloomed := false;
      Core.refractory_countdown := Core.refractory_countdown c;
      Core.total_blooms := Core.total_blooms c;
      Core.last_bloom_tick := Core.last_bloom_tick c |}, false).
Proof.
  intros Hr Htau Hcold. unfold Core.update.
  replace (0 <? Core.refractory_countdown c) with false
    by (symmetry; apply Z.ltb_ge; lia).
  rewrite (in_range_false _ _ Hcold).
  replace (TAU_TEMP cfg <=? 0) with false by (symmetry; apply Z.leb_gt; lia).
  by rewrite andb_false_r.
Qed.

Lemma updates_warm cfg inputs :
  forall c,
    Core.refractory_countdown c <= 0 ->
    Forall (warm_no_bloom cfg) inputs ->
    updates cfg c inputs =
    (match inputs with
     | [] => c
     | _ =>
         {| Core.x := Core.x c; Core.y := Core.y c;
            Core.temp_exposure_count :=
              Core.temp_exposure_count c + Z.of_nat (length inputs);
            Core.bloomed := false;
            Core.refractory_countdown := Core.refractory_countdown c;
            Core.total_blooms := Core.total_blooms c;
            Core.last_bloom_tick := Core.last_bloom_tick c |}
     end, replicate (length inputs) false).
Proof.
  induction inputs as [|[[[tick temp] cat] em] rest IH]; intros c Hr Hall;
    [reflexivity|].
  apply Forall_cons in Hall as [Hin Hall]. cbn [updates].
  rewrite (update_warm_no_bloom _ _ _ _ _ _ Hr Hin).
  rewrite IH by assumption. cbn [length replicate].
  destruct rest; cbn [length Core.x Core.y Core.temp_exposure_count
    Core.refractory_countdown Core.total_blooms Core.last_bloom_tick];
    do 2 f_equal; lia.
Qed.

(** X6.  The exposure count counts consecutive in-range updates.  On a core
    out of its refractory period, [K] updates in a row with an in-range
    temperature, none of which can bloom, all return false and add [K] to
    the exposure count, leaving the countdown and the bloom counters alone;
    and when [TAU_TEMP > 0], one out-of-range update before them makes the
    count exactly [K], whatever it was. *)
Theorem exposure_counts_warm_run cfg c first inputs :
  Core.refractory_countdown c <= 0 ->
  Forall (warm_no_bloom cfg) inputs ->
  ((updates cfg c inputs).2 = replicate (length inputs) false /\
   Core.temp_exposure_count (updates cfg c inputs).1
   = Core.temp_exposure_count c + Z.of_nat (length inputs) /\
   Core.refractory_countdown (updates cfg c inputs).1
   = Core.refractory_countdown c /\
   Core.total_blooms (updates cfg c inputs).1 = Core.total_blooms c) /\
  (0 < TAU_TEMP cfg -> cold cfg first ->
   (updates cfg c (first :: inputs)).2
   = replicate (S (length inputs)) false /\
   Core.temp_exposure_count (updates cfg c (first :: inputs)).1
   = Z.of_nat (length inputs)).
Proof.
  intros Hr Hall. split.
  - rewrite (updates_warm _ _ _ Hr Hall). cbn [fst snd].
    split; [reflexivity|]. destruct inputs; cbn; repeat split; lia.
  - intros Htau Hcold. destruct first as [[[tick temp] cat] em].
    cbn [updates]. rewrite (update_cold _ _ _ _ _ _ Hr Htau Hcold).
    rewrite updates_warm by assumption. cbn [fst snd replicate].
    split; [reflexivity|]. destruct inputs; cbn; lia.
Qed.

(** How far a core is from its next possible bloom: the updates its
    refractory countdown swallows, then the in-range updates it still needs
    to reach [TAU_TEMP]. *)
Definition updates_to_bloom (cfg : Config) (c : Core.t) : Z :=
  Z.max 0 (Core.refractory_countdown c)
  + (TAU_TEMP cfg - Core.temp_exposure_count c).

Lemma update_no_bloom_before cfg c tick temperature catalyst emit_mode :
  0 <= Core.temp_exposure_count c ->
  1 < updates_to_bloom cfg c ->
  let '(c', r) := Core.update cfg c tick temperature catalyst emit_mode in
  r = false /\ 0 <= Core.temp_exposure_count c' /\
  updates_to_bloom cfg c - 1 <= updates_to_bloom cfg c' /\
  Core.total_blooms c' = Core.total_blooms c.
Proof.
  unfold updates_to_bloom, Core.update. intros He Hd.
  destruct (0 <? Core.refractory_countdown c) eqn:Er.
  - apply Z.ltb_lt in Er. cbn. repeat split; lia.
  - apply Z.ltb_ge in Er.
    destruct (Core.in_range cfg temperature).
    + replace (TAU_TEMP cfg <=? Core.temp_exposure_count c + 1) with false
        by (symmetry; apply Z.leb_gt; lia).
      rewrite andb_false_r. cbn. repeat split; lia.
    + replace (TAU_TEMP cfg <=? 0) with false
        by (symmetry; apply Z.leb_gt; lia).
      rewrite andb_false_r. cbn. repeat split; lia.
Qed.

(** X7.  Blooms of one core are at least [TAU_REFRACT + TAU_TEMP] updates
    apart.  A core whose exposure count is not negative and that is [d]
    updates away from its next possible bloom (a core that has just bloomed
    is [TAU_REFRACT + TAU_TEMP] away) returns false on each of its next
    [d - 1] updates at least, whatever the temperatures, the catalyst and
    the modes, and its bloom counter stays where it is. *)
Theorem no_bloom_before_due cfg inputs :
  forall c,
    0 <= Core.temp_exposure_count c ->
    Z.of_nat (length inputs) < updates_to_bloom cfg c ->
    (updates cfg c inputs).2 = replicate (length inputs) false /\
    Core.total_blooms (updates cfg c inputs).1 = Core.total_blooms c.
Proof.
  induction inputs as [|[[[tick temp] cat] em] rest IH]; intros c He Hd;
    [by split|].
  cbn [length] in Hd. cbn [updates].
  pose proof (update_no_bloom_before cfg c tick temp cat em He) as Hup.
  destruct (Core.update cfg c tick temp cat em) as [c1 r].
  destruct Hup as (-> & He1 & Hd1 & Htb); [lia|].
  destruct (IH c1 He1) as (Hrs & Htb'); [lia|].
  destruct (updates cfg c1 rest) as [c2 rs]. cbn [fst snd] in *.
  split; [by rewrite Hrs|lia].
Qed.

Lemma exposure_counts_warm_run_witness :
  Core.temp_exposure_count
    (updates default_config (Core.new 1 2)
       [(1, 0%Q, 0%Q, false); (2, 1 # 2, 0%Q, false); (3, 1 # 2, 0%Q, true)]).1 = 2.
Proof.
  refine (proj2 (proj2 (exposure_counts_warm_run default_config (Core.new 1 2)
    (1, 0%Q, 0%Q, false) [(2, 1 # 2, 0%Q, false); (3, 1 # 2, 0%Q, true)] _ _) _ _)).
  - cbn. lia.
  - apply Forall_cons; split; [|apply Forall_cons; split; [|constructor]];
      (split; [|split]); try (unfold Qle; cbn; lia);
      right; unfold Qlt; cbn; lia.
  - cbn. lia.
  - left. unfold Qlt. cbn. lia.
Defined.

Lemma no_bloom_before_due_witness :
  (updates default_config
     {| Core.x := 1; Core.y := 2; Core.temp_exposure_count := 0;
        Core.bloomed := true; Core.refractory_countdown := 12;
        Core.total_blooms := 1; Core.last_bloom_tick := 16 |}
     (replicate 19 (18, 1 # 2, 1%Q, true))).2 = replicate 19 false.
Proof.
  refine (proj1 (no_bloom_before_due default_config
    (replicate 19 (18, 1 # 2, 1%Q, true)) _ _ _)).
  - cbn. lia.
  - vm_compute. reflexivity.
Defined.

(** ** What one tick does to the population and to the bloom log *)

Section StepLaws.
Context {rng_state : Type} {RS : RandomStream rng_state}.
#[local] Abbreviation Sim := (@Simulation rng_state).

Lemma update_true_emit cfg c tick0 temp cat em c' :
  Core.update cfg c tick0 temp cat em = (c', true) -> em = true.
Proof.
  unfold Core.update.
  destruct (0 <? Core.refractory_countdown c); [discriminate|].
  destruct (Core.in_range cfg temp); cbn [andb];
    destruct em; try reflexivity; rewrite ?andb_false_r; discriminate.
Qed.

Lemma fmap_position_insert (cs : list Core.t) i c c' :
  cs !! i = Some c -> position c' = position c ->
  position <$> <[i := c']> cs = position <$> cs.
Proof.
  intros Hi Hp. rewrite list_fmap_insert, Hp.
  apply list_insert_id. by rewrite list_lookup_fmap, Hi.
Qed.

(** The state of the loop over the cores, against the simulation [s0] the
    loop started from: [i] cores visited, [b] blooms counted. *)
Definition loop_progress (cfg : Config) (em : bool) (s0 : Sim)
    (i : nat) (b : Z) (s : Sim) : Prop :=
  exists (new : list Core.t) (events : list (Z * Z * Z)),
    position <$> cores s = (position <$> cores s0) ++ (position <$> new) /\
    length new = (Z.to_nat b * Z.to_nat (SPAWN_S cfg))%nat /\
    0 <= b <= Z.of_nat i /\ (i <= length (cores s))%nat /\
    (em = false -> b = 0) /\
    total_blooms s = total_blooms s0 + b /\
    bloom_locations s = bloom_locations s0 ++ events /\
    length events = Z.to_nat b /\
    Forall (fun e => e.2 = tick s0 /\ e.1 ∈ position <$> cores s0 ++ new)
           events.

Lemma loop_progress_start cfg em s0 : loop_progress cfg em s0 0 0 s0.
Proof.
  exists [], []. cbn. rewrite !app_nil_r.
  repeat split; try reflexivity; try lia. constructor.
Qed.

Lemma loop_progress_visit cfg em s0 i b s core b' s' :
  loop_progress cfg em s0 i b s ->
  cores s !! i = Some core ->
  update_core_at cfg em i core b s = Ok (b', s') ->
  tick s = tick s0 ->
  loop_progress cfg em s0 (S i) b' s'.
Proof.
  intros (new & events & Hpos & Hlen & Hb & Hi & Hem & Htb & Hlog & Hev & Hall)
    Hcore Hbody Htick.
  apply update_core_at_spec in Hbody
    as (temp & cat & core' & did & added & _ & _ & Hu & Hcs & Hadded & _
        & -> & Htb' & Hlog').
  pose proof (update_total_blooms _ _ _ _ _ _ _ _ Hu) as (_ & Hx & Hy).
  assert (position core' = position core) as Hp
    by (unfold position; by rewrite Hx, Hy).
  assert (position <$> cores s' =
          (position <$> cores s0) ++ (position <$> (new ++ added))) as Hpos'.
  { rewrite Hcs, fmap_app, (fmap_position_insert _ _ _ _ Hcore Hp), Hpos.
    by rewrite fmap_app, app_assoc. }
  assert (S i <= length (cores s'))%nat as Hi'.
  { rewrite Hcs, length_app, length_insert.
    apply lookup_lt_Some in Hcore. lia. }
  assert (position core ∈ position <$> cores s0 ++ new) as Hin.
  { rewrite fmap_app, <- Hpos. apply list_elem_of_fmap. exists core.
    split; [reflexivity|]. by eapply list_elem_of_lookup_2. }
  destruct did.
  - apply update_true_emit in Hu as ->.
    exists (new ++ added), (events ++ [(Core.x core, Core.y core, tick s)]).
    split; [exact Hpos'|]. split.
    { rewrite length_app, Hlen, Hadded. nia. }
    split; [lia|]. split; [exact Hi'|]. split; [discriminate|].
    split; [lia|]. split; [by rewrite Hlog', Hlog, app_assoc|]. split.
    { rewrite length_app, Hev. cbn. lia. }
    apply Forall_app. split.
    + eapply Forall_impl; [exact Hall|]. intros e [He1 He2].
      split; [exact He1|]. rewrite app_assoc, fmap_app.
      apply elem_of_app. left. exact He2.
    + apply Forall_singleton. cbn [fst snd]. split; [exact Htick|].
      rewrite app_assoc, fmap_app. apply elem_of_app. left. exact Hin.
  - exists (new ++ added), events.
    destruct added; [|discriminate]. rewrite app_nil_r in *.
    split; [exact Hpos'|]. split; [exact Hlen|].
    split; [lia|]. split; [exact Hi'|]. split; [exact Hem|].
    split; [lia|]. split; [by rewrite Hlog', Hlog|]. split; [exact Hev|].
    exact Hall.
Qed.

Lemma update_cores_progress fuel cfg em s0 b' s' :
  update_cores fuel cfg em 0 0 s0 = Ok (b', s') ->
  loop_progress cfg em s0 (length (cores s')) b' s'.
Proof.
  intros H.
  destruct (update_cores_ind cfg em
              (fun i b s => loop_progress cfg em s0 i b s /\ tick s = tick s0)
              fuel 0%nat 0 s0 b' s') as (j & [Hj _] & Hnone);
    [split; [apply loop_progress_start|reflexivity]| |exact H|].
  - intros i b s core b1 s1 [Hp Ht] Hcore Hbody. split.
    + by eapply loop_progress_visit.
    + apply update_core_at_fields in Hbody as (_ & Ht' & _). congruence.
  - apply lookup_ge_None in Hnone.
    pose proof Hj as (_ & _ & _ & _ & _ & Hle & _).
    by replace (length (cores s')) with j by lia.
Qed.

(** X8.  Cores are never removed and never move.  After a [step] that
    returns, the list of cores is the old list in its order, each core at
    the position it had, followed by the cores spawned in the tick, of which
    there are [SPAWN_S] for each bloom the statistics report (none when
    [SPAWN_S <= 0]). *)
Theorem step_population fuel cfg (s s' : Sim) st :
  step fuel cfg s = Ok (s', st) ->
  exists new,
    position <$> cores s' = (position <$> cores s) ++ (position <$> new) /\
    length new
    = (Z.to_nat (stats_blooms_this_tick st) * Z.to_nat (SPAWN_S cfg))%nat.
Proof.
  unfold step. intros H.
  inv_bind H as [em s1] E1. inv_bind H as [blooms s2] E2.
  injection H as <- <-. cbn [stats_blooms_this_tick].
  apply step_fields_spec in E1 as (_ & _ & _ & Hc & _).
  apply update_cores_progress in E2 as (new & _ & Hpos & Hlen & _).
  exists new. by rewrite <- Hc.
Qed.

(** X9.  The bloom accounting of one tick.  After a [step] that returns
    with [blooms_this_tick = b]: [b] is between 0 and the number of cores,
    the simulation's [total_blooms] (also reported in the statistics) has
    grown by exactly [b], and [bloom_locations] is the old log followed by
    exactly [b] events, each stamped with the new tick and placed on a core
    of the new list.  On a collection tick (odd tick) [b = 0]: no core
    blooms, no core is spawned and the log is unchanged. *)
Theorem step_bloom_accounting fuel cfg (s s' : Sim) st :
  step fuel cfg s = Ok (s', st) ->
  let b := stats_blooms_this_tick st in
  0 <= b <= Z.of_nat (length (cores s')) /\
  stats_total_blooms st = total_blooms s + b /\
  total_blooms s' = total_blooms s + b /\
  (exists events,
      bloom_locations s' = bloom_locations s ++ events /\
      Z.of_nat (length events) = b /\
      Forall (fun e => e.2 = tick s + 1 /\ e.1 ∈ position <$> cores s')
             events) /\
  (stats_emit_mode st = false ->
   b = 0 /\ length (cores s') = length (cores s) /\
   bloom_locations s' = bloom_locations s).
Proof.
  unfold step. intros H.
  inv_bind H as [em s1] E1. inv_bind H as [blooms s2] E2.
  injection H as <- <-.
  cbn [stats_blooms_this_tick stats_total_blooms stats_emit_mode].
  apply step_fields_spec in E1 as (_ & Ht & _ & Hc & Htb & Hbl & _).
  apply update_cores_progress in E2
    as (new & events & Hpos & Hlen & Hb & _ & Hem & Htb' & Hlog & Hev & Hall).
  rewrite Hc in Hpos. rewrite Htb in Htb'. rewrite Hbl in Hlog.
  split; [exact Hb|]. split; [exact Htb'|]. split; [exact Htb'|]. split.
  - exists events. split; [exact Hlog|]. split; [lia|].
    eapply Forall_impl; [exact Hall|]. intros e [He1 He2].
    split; [congruence|]. by rewrite Hpos, <- Hc, <- fmap_app.
  - intros Hmode. specialize (Hem Hmode). subst blooms.
    split; [reflexivity|]. cbn in Hlen, Hev.
    destruct new; [|discriminate]. destruct events; [|discriminate].
    rewrite app_nil_r in *. split; [|exact Hlog].
    apply (f_equal length) in Hpos. by rewrite !length_fmap in Hpos.
Qed.

End StepLaws.

Lemma step_population_witness :
  exists new,
    position <$> cores after_bloom.1
    = (position <$> cores bloom_ready) ++ (position <$> new) /\
    length new = 2%nat.
Proof.
  exact (step_population 10 small_config bloom_ready
           after_bloom.1 after_bloom.2 step_bloom_ready).
Defined.

Lemma step_bloom_accounting_witness :
  stats_total_blooms after_bloom.2 = total_blooms bloom_ready + 1.
Proof.
  exact (proj1 (proj2 (step_bloom_accounting 10 small_config bloom_ready
                         after_bloom.1 after_bloom.2 step_bloom_ready))).
Defined.

(** ** The bloom log and the cores' own records *)

Section History.
Context {rng_state : Type} {RS : RandomStream rng_state}.
#[local] Abbreviation Sim := (@Simulation rng_state).

(** The log is chronological and holds only emission ticks of the past: the
    tick counter is not negative, every event carries an even tick between
    2 and the current tick, and the events are in the order of their
    ticks. *)
Definition log_ok (s : Sim) : Prop :=
  0 <= tick s /\
  Forall (fun e => 2 <= e.2 <= tick s /\ e.2 mod 2 = 0) (bloom_locations s) /\
  StronglySorted Z.le (snd <$> bloom_locations s).

(** A core's record of its own blooms, against the tick [t] and the log:
    the exposure count and the bloom counter are not negative; a core that
    never bloomed has [last_bloom_tick = -1] and [bloomed] false; a core
    that did has a [last_bloom_tick] between 1 and [t], and the log holds
    the event of that bloom. *)
Definition core_log_ok (t : Z) (log : list (Z * Z * Z)) (c : Core.t) : Prop :=
  0 <= Core.temp_exposure_count c /\ 0 <= Core.total_blooms c /\
  (Core.total_blooms c = 0 ->
   Core.last_bloom_tick c = -1 /\ Core.bloomed c = false) /\
  (0 < Core.total_blooms c ->
   0 < Core.last_bloom_tick c <= t /\
   (Core.x c, Core.y c, Core.last_bloom_tick c) ∈ log).

(** Every core's record agrees with the simulation's tick and log. *)
Definition records_ok (s : Sim) : Prop :=
  0 <= tick s /\
  Forall (core_log_ok (tick s) (bloom_locations s)) (cores s).

Lemma StronglySorted_snoc_le (l1 l2 : list Z) (t : Z) :
  StronglySorted Z.le l1 -> Forall (fun x => x <= t) l1 ->
  Forall (fun x => x = t) l2 -> StronglySorted Z.le (l1 ++ l2).
Proof.
  intros Hs Hle Hl2. induction Hs as [|x l1 Hs IH Hx]; cbn.
  - induction Hl2 as [|y l2 -> Hl2 IH]; constructor; [exact IH|].
    eapply Forall_impl; [exact Hl2|]. cbn. lia.
  - apply Forall_cons in Hle as [Hxt Hle].
    constructor; [by apply IH|]. apply Forall_app. split; [exact Hx|].
    eapply Forall_impl; [exact Hl2|]. cbn. lia.
Qed.

Lemma core_log_ok_new t log x y : core_log_ok t log (Core.new x y).
Proof. unfold core_log_ok. cbn. repeat split; lia. Qed.

Lemma core_log_ok_mono t t' log log' c :
  t <= t' -> log ⊆ log' -> core_log_ok t log c -> core_log_ok t' log' c.
Proof.
  intros Ht Hlog (He & Hb & H0 & Hpos).
  split; [exact He|]. split; [exact Hb|]. split; [exact H0|].
  intros Hgt. destruct (Hpos Hgt) as [Hl Hin]. split; [lia|by apply Hlog].
Qed.

Lemma update_core_log_ok cfg c t log temp cat em c' did :
  0 < t -> core_log_ok t log c ->
  Core.update cfg c t temp cat em = (c', did) ->
  core_log_ok t (if did then log ++ [(Core.x c, Core.y c, t)] else log) c'.
Proof.
  intros Ht (He & Hb & H0 & Hpos). unfold Core.update.
  destruct (0 <? Core.refractory_countdown c).
  - intros [= <- <-]. exact (conj He (conj Hb (conj H0 Hpos))).
  - destruct (_ && _ && _); intros [= <- <-]; unfold core_log_ok; cbn.
    + split; [lia|]. split; [lia|]. split; [lia|]. intros _.
      split; [lia|]. apply elem_of_app. right. by apply list_elem_of_singleton.
    + split; [destruct (Core.in_range cfg temp); lia|].
      split; [exact Hb|]. split; [|exact Hpos].
      intros Hz. by destruct (H0 Hz).
Qed.

Lemma update_core_at_core_log cfg em i core b s b' s' :
  0 < tick s ->
  cores s !! i = Some core ->
  update_core_at cfg em i core b s = Ok (b', s') ->
  Forall (core_log_ok (tick s) (bloom_locations s)) (cores s) ->
  Forall (core_log_ok (tick s') (bloom_locations s')) (cores s').
Proof.
  intros Ht Hi Hbody Hall.
  pose proof (update_core_at_fields _ _ _ _ _ _ _ _ Hbody) as (_ & Htick & _).
  apply update_core_at_spec in Hbody
    as (temp & cat & core' & did & new & _ & _ & Hu & Hcs & _ & Hnew & _ & _
        & Hlog).
  assert (bloom_locations s ⊆ bloom_locations s') as Hsub.
  { rewrite Hlog. destruct did; [|done]. intros e He.
    apply elem_of_app. by left. }
  assert (core_log_ok (tick s) (bloom_locations s) core) as Hcore.
  { rewrite Forall_forall in Hall. apply Hall.
    by eapply list_elem_of_lookup_2. }
  eapply update_core_log_ok in Hu; [|exact Ht|exact Hcore].
  rewrite <- Hlog in Hu.
  rewrite Hcs, Htick. apply Forall_app. split.
  - apply Forall_insert; [|exact Hu].
    eapply Forall_impl; [exact Hall|]. intros c.
    by apply core_log_ok_mono.
  - eapply Forall_impl; [exact Hnew|]. intros c (dx & dy & _ & _ & ->).
    apply core_log_ok_new.
Qed.

Lemma step_log_ok fuel cfg (s s' : Sim) st :
  log_ok s -> step fuel cfg s = Ok (s', st) -> log_ok s'.
Proof.
  unfold step. intros (Ht & Hlog & Hsorted) H.
  inv_bind H as [em s1] E1. inv_bind H as [blooms s2] E2.
  injection H as <- _.
  apply step_fields_spec in E1 as (Hem & Ht1 & _ & Hc & _ & Hbl & _).
  pose proof (update_cores_fields _ _ _ _ _ _ _ _ E2) as (_ & Ht2 & _).
  pose proof (update_cores_progress _ _ _ _ _ _ E2)
    as (new & events & _ & _ & _ & _ & Hmode & _ & Hev & Hlen & Hall).
  split; [lia|split].
  - rewrite Hev, Hbl, Ht2, Ht1. apply Forall_app. split.
    + eapply Forall_impl; [exact Hlog|]. cbn. intros e [He1 He2].
      split; [lia|exact He2].
    + destruct em.
      * symmetry in Hem. apply Z.eqb_eq in Hem.
        assert (tick s + 1 <> 1)
          by (intros E; rewrite E in Hem; discriminate Hem).
        eapply Forall_impl; [exact Hall|]. cbn. intros e [-> _].
        rewrite Ht1. split; [lia|exact Hem].
      * rewrite (Hmode eq_refl) in Hlen.
        destruct events; [constructor|discriminate].
  - rewrite Hev, Hbl, fmap_app.
    apply (StronglySorted_snoc_le _ _ (tick s1)); [exact Hsorted| |].
    + apply Forall_fmap. eapply Forall_impl; [exact Hlog|]. cbn. lia.
    + apply Forall_fmap. eapply Forall_impl; [exact Hall|]. cbn. tauto.
Qed.

Lemma step_records_ok fuel cfg (s s' : Sim) st :
  records_ok s -> step fuel cfg s = Ok (s', st) -> records_ok s'.
Proof.
  unfold step. intros [Ht Hcores] H.
  inv_bind H as [em s1] E1. inv_bind H as [blooms s2] E2.
  injection H as <- _.
  apply step_fields_spec in E1 as (_ & Ht1 & _ & Hc & _ & Hbl & _).
  pose proof (update_cores_fields _ _ _ _ _ _ _ _ E2) as (_ & Ht2 & _).
  split; [lia|].
  destruct (update_cores_ind cfg em
    (fun _ _ s0 => tick s0 = tick s1 /\
       Forall (core_log_ok (tick s0) (bloom_locations s0)) (cores s0))
    fuel 0%nat 0 s1 blooms s2) as (_ & [_ Hres] & _);
    [split; [reflexivity|]| |exact E2|exact Hres].
  - rewrite Hc, Hbl, Ht1. eapply Forall_impl; [exact Hcores|]. intros c.
    apply core_log_ok_mono; [lia|done].
  - intros i b s0 core b1 s3 [Hts Hs0] Hi Hbody. split.
    + apply update_core_at_fields in Hbody as (_ & Ht' & _). congruence.
    + eapply update_core_at_core_log; [|exact Hi|exact Hbody|exact Hs0].
      lia.
Qed.

Lemma reset_log_ok fuel cfg (s s' : Sim) :
  reset fuel cfg s = Ok s' -> log_ok s'.
Proof.
  unfold reset. intros H.
  inv_bind H as [temp r1] E1. inv_bind H as [u r2] E2.
  inv_bind H as [cs r3] E3. injection H as <-.
  split; [done|split; constructor].
Qed.

Lemma reset_records_ok fuel cfg (s s' : Sim) :
  reset fuel cfg s = Ok s' -> records_ok s'.
Proof.
  unfold reset. intros H.
  inv_bind H as [temp r1] E1. inv_bind H as [u r2] E2.
  inv_bind H as [cs r3] E3. injection H as <-.
  apply initialize_cores_spec in E3 as (new & -> & _ & _ & Hnew).
  split; [done|]. cbn.
  eapply Forall_impl; [exact Hnew|]. intros c [(x & y & ->) _].
  apply core_log_ok_new.
Qed.

(** X10.  The bloom log is a chronological record of emission ticks.  In
    every state reached by construction and by [step] and [reset] calls that
    returned, under whatever configuration each call ran: the tick counter
    is not negative, every event of [bloom_locations] carries an even tick
    between 2 and the current tick, and the events are in the order of their
    ticks.  A [step] that returns keeps this from any state that has it, and
    a [reset] that returns establishes it from any state, also from one that
    a call that raised has left behind. *)
Theorem bloom_log_chronological :
  (forall s : Sim, reachable s -> log_ok s) /\
  (forall fuel cfg (s s' : Sim) st,
      log_ok s -> step fuel cfg s = Ok (s', st) -> log_ok s') /\
  (forall fuel cfg (s s' : Sim), reset fuel cfg s = Ok s' -> log_ok s').
Proof.
  split; [|split].
  - induction 1 as [fuel cfg seed0 s H|fuel cfg s s' st _ IH H|fuel cfg s s' _ _ H].
    + unfold init in H. by eapply reset_log_ok.
    + by eapply step_log_ok.
    + by eapply reset_log_ok.
  - intros fuel cfg s s' st Hs H. by eapply step_log_ok.
  - intros fuel cfg s s' H. by eapply reset_log_ok.
Qed.

(** X11.  Each core's record of its blooms agrees with the log.  In every
    state reached by construction and by [step] and [reset] calls that
    returned, for every core: the exposure count and the core's
    [total_blooms] are not negative; a core that never bloomed has
    [last_bloom_tick = -1] and [bloomed] false; a core that did has a
    [last_bloom_tick] between 1 and the current tick, and the log holds an
    event at the core's position with that tick.  A [step] that returns
    keeps this from any state that has it, and a [reset] that returns
    establishes it from any state. *)
Theorem core_records_agree_with_log :
  (forall s : Sim, reachable s -> records_ok s) /\
  (forall fuel cfg (s s' : Sim) st,
      records_ok s -> step fuel cfg s = Ok (s', st) -> records_ok s') /\
  (forall fuel cfg (s s' : Sim), reset fuel cfg s = Ok s' -> records_ok s').
Proof.
  split; [|split].
  - induction 1 as [fuel cfg seed0 s H|fuel cfg s s' st _ IH H|fuel cfg s s' _ _ H].
    + unfold init in H. by eapply reset_records_ok.
    + by eapply step_records_ok.
    + by eapply reset_records_ok.
  - intros fuel cfg s s' st Hs H. by eapply step_records_ok.
  - intros fuel cfg s s' H. by eapply reset_records_ok.
Qed.

End History.

Lemma log_ok_bloom_ready : log_ok bloom_ready.
Proof. split; [done|split; constructor]. Qed.

Lemma records_ok_bloom_ready : records_ok bloom_ready.
Proof.
  split; [done|]. apply Forall_singleton. unfold core_log_ok. cbn.
  repeat split; lia.
Qed.

(** The step of [bloom_ready] in which its core blooms: the log gains the
    event of that bloom, at tick 2. *)
Lemma bloom_log_chronological_witness :
  bloom_locations after_bloom.1 = [(1, 1, 2)] /\
  tick after_bloom.1 = 2 /\
  log_ok after_bloom.1.
Proof.
  split; [reflexivity|]. split; [reflexivity|].
  exact (proj1 (proj2 bloom_log_chronological) 10%nat small_config bloom_ready
           after_bloom.1 after_bloom.2 log_ok_bloom_ready step_bloom_ready).
Defined.

(** After that step the core at [(1, 1)] has bloomed once, at tick 2, and
    the log holds the event. *)
Lemma core_records_agree_with_log_witness :
  Core.total_blooms (nth 0 (cores after_bloom.1) (Core.new 0 0)) = 1 /\
  Core.last_bloom_tick (nth 0 (cores after_bloom.1) (Core.new 0 0)) = 2 /\
  bloom_locations after_bloom.1 = [(1, 1, 2)] /\
  records_ok after_bloom.1.
Proof.
  split; [reflexivity|]. split; [reflexivity|]. split; [reflexivity|].
  exact (proj1 (proj2 core_records_agree_with_log) 10%nat small_config
           bloom_ready after_bloom.1 after_bloom.2 records_ok_bloom_ready
           step_bloom_ready).
Defined.

(** ** When [reset] fails *)

Section ResetFails.
Context {rng_state : Type} {RS : RandomStream rng_state}.
#[local] Abbreviation Sim := (@Simulation rng_state).

(** X12.  [reset], and so the constructor, raises [ValueError] when the
    configured grid size is negative (a negative array dimension), and when
    it is 0 while cores are asked for ([randint(0, 0)] has an empty range). *)
Theorem reset_raises fuel cfg (s : Sim) :
  GRID_SIZE cfg < 0 \/ (GRID_SIZE cfg = 0 /\ 0 < INITIAL_CORES cfg) ->
  reset (S fuel) cfg s = Raise ValueError.
Proof.
  unfold reset, rng_random_nn. intros [Hneg|[Hz Hcores]].
  - by replace (GRID_SIZE cfg <? 0) with true by (symmetry; apply Z.ltb_lt; lia).
  - rewrite Hz. cbn [Z.ltb Z.compare Z.to_nat random_grid mbind res_bind].
    unfold initialize_cores, range.
    destruct (Z.to_nat (INITIAL_CORES cfg)) as [|k] eqn:Ek; [lia|].
    cbn [seq for_each mbind res_bind draw_free_position].
    rewrite Hz. reflexivity.
Qed.

(** The draws of [initialize_cores] return or go on for ever; with a
    positive grid size they do not raise. *)
Lemma draw_free_position_cases fuel cfg positions r :
  0 < GRID_SIZE cfg ->
  draw_free_position fuel cfg positions r = Timeout \/
  exists x y r', draw_free_position fuel cfg positions r = Ok (x, y, r').
Proof.
  intros Hg. revert r. induction fuel as [|fuel IH]; intros r; cbn;
    [by left|].
  unfold randint.
  replace (0 <? GRID_SIZE cfg) with true by (symmetry; apply Z.ltb_lt; lia).
  cbn [mbind res_bind].
  destruct (rng_randint 0 (GRID_SIZE cfg) r) as [x r1].
  destruct (rng_randint 0 (GRID_SIZE cfg) r1) as [y r2].
  destruct (bool_decide ((x, y) ∈ positions)); [apply IH|].
  right. by exists x, y, r2.
Qed.

(** The cells of a [g] x [g] grid. *)
Definition grid_cells (g : Z) : list (Z * Z) :=
  list_prod (seqZ 0 g) (seqZ 0 g).

Lemma length_grid_cells g :
  length (grid_cells g) = (Z.to_nat g * Z.to_nat g)%nat.
Proof. unfold grid_cells. by rewrite length_prod, !length_seqZ. Qed.

Lemma elem_of_grid_cells g x y :
  0 <= x < g -> 0 <= y < g -> (x, y) ∈ grid_cells g.
Proof.
  intros Hx Hy. unfold grid_cells. apply list_elem_of_In, in_prod_iff.
  split; apply list_elem_of_In, elem_of_seqZ; lia.
Qed.

Lemma placing_cores_overfull fuel cfg (l : list nat) :
  0 < GRID_SIZE cfg ->
  forall positions cs r,
    NoDup positions -> positions ⊆ grid_cells (GRID_SIZE cfg) ->
    (length (grid_cells (GRID_SIZE cfg)) < length positions + length l)%nat ->
    for_each l
      (fun (_ : nat) '(positions, cs, r) =>
         '(x, y, r') ← draw_free_position fuel cfg positions r;
         Ok ((x, y) :: positions, cs ++ [Core.new x y], r'))
      (positions, cs, r) = Timeout.
Proof.
  intros Hg. induction l as [|a l IH]; intros positions cs r Hnd Hsub Hlen.
  - exfalso. cbn in Hlen.
    pose proof (submseteq_length _ _ (NoDup_submseteq _ _ Hnd Hsub)). lia.
  - cbn [for_each mbind res_bind].
    destruct (draw_free_position_cases fuel cfg positions r Hg)
      as [->|(x & y & r' & E)]; [reflexivity|].
    rewrite E. cbn [mbind res_bind].
    apply draw_free_position_spec in E as (Hnew & Hx & Hy).
    apply IH.
    + by apply NoDup_cons.
    + intros p Hp. apply elem_of_cons in Hp as [->|Hp];
        [by apply elem_of_grid_cells|by apply Hsub].
    + cbn [length] in *. lia.
Qed.

(** X13.  [reset] never returns when more cores are asked for than the grid
    has cells.  With [GRID_SIZE > 0] and [INITIAL_CORES > GRID_SIZE^2], the
    rejection loop of [initialize_cores] has no free position left to find
    once every cell is taken: whatever the random stream and however many
    draws are allowed, [reset] (and so the constructor) does not return, and
    it does not raise either. *)
Theorem reset_overfull_never_returns fuel cfg (s : Sim) :
  0 < GRID_SIZE cfg ->
  GRID_SIZE cfg * GRID_SIZE cfg < INITIAL_CORES cfg ->
  reset fuel cfg s = Timeout.
Proof.
  intros Hg Hfull. unfold reset, rng_random_nn.
  replace (GRID_SIZE cfg <? 0) with false by (symmetry; apply Z.ltb_ge; lia).
  cbn [mbind res_bind].
  destruct (random_grid _ _ (rng s)) as [temp r1].
  destruct (random_grid _ _ r1) as [u r2]. cbn [mbind res_bind].
  unfold initialize_cores.
  rewrite (placing_cores_overfull fuel cfg (range (INITIAL_CORES cfg)) Hg);
    [reflexivity|constructor| |].
  - intros p Hp. by apply elem_of_nil in Hp.
  - rewrite length_grid_cells. unfold range. rewrite length_seq. cbn. nia.
Qed.

End ResetFails.

Lemma reset_raises_witness :
  reset 1 {| GRID_SIZE := 0; C_THRESH := 2 # 10; EMIT_FRACTION := 6 # 10;
             KERNEL_3x3 := KERNEL_3x3 default_config;
             ADVECT_ALPHA := 5 # 100; T_MIN := 40 # 100; T_MAX := 55 # 100;
             TAU_TEMP := 8; TAU_REFRACT := 12; SPAWN_S := 2; RNG_SEED := 42;
             INITIAL_CORES := 10 |} fresh_42
  = Raise ValueError.
Proof.
  apply (@reset_raises Z LCG.stream). right. cbn. lia.
Defined.

Lemma reset_overfull_never_returns_witness :
  reset 1000 {| GRID_SIZE := 3; C_THRESH := 2 # 10; EMIT_FRACTION := 6 # 10;
                KERNEL_3x3 := KERNEL_3x3 default_config;
                ADVECT_ALPHA := 5 # 100; T_MIN := 40 # 100; T_MAX := 55 # 100;
                TAU_TEMP := 8; TAU_REFRACT := 12; SPAWN_S := 2; RNG_SEED := 42;
                INITIAL_CORES := 10 |} fresh_42
  = Timeout.
Proof.
  apply (@reset_overfull_never_returns Z LCG.stream); cbn; lia.
Defined.

(** ** [step] after the grid size has changed *)

Section GridSizeMismatch.
Context {rng_state : Type} {RS : RandomStream rng_state}.
#[local] Abbreviation Sim := (@Simulation rng_state).

Lemma set_column0_mismatch n g v :
  (0 < n)%nat -> square n g -> length v <> n -> length v <> 1%nat ->
  set_column0 g v = Raise ValueError.
Proof.
  intros Hn Hsq Hv H1. unfold set_column0.
  rewrite (has_empty_axis_square n g Hn Hsq). destruct Hsq as [Hlen _].
  rewrite bool_decide_eq_false_2 by congruence.
  destruct v as [|x [|x' v]]; try reflexivity. by destruct H1.
Qed.

(** X14.  The grids keep the size they were built with, so a [step] under a
    grid size other than theirs fails: on an [n] x [n] temperature grid
    ([n >= 1]), with [GRID_SIZE] different from [n] and from 1 (for instance
    after [set_parameter] has changed it, and before any [reset]), [step]
    raises [ValueError] in [shift_temperature]: the new column has
    [GRID_SIZE] entries, the grid has [n] rows. *)
Theorem step_grid_size_mismatch fuel cfg n (s : Sim) :
  (0 < n)%nat -> square n (temperature s) ->
  GRID_SIZE cfg <> Z.of_nat n -> GRID_SIZE cfg <> 1 ->
  shift_temperature cfg s = Raise ValueError /\
  step fuel cfg s = Raise ValueError.
Proof.
  intros Hn Hsq Hne H1.
  assert (shift_temperature cfg s = Raise ValueError) as Hshift.
  { unfold shift_temperature, rng_random_n.
    destruct (GRID_SIZE cfg <? 0) eqn:Eneg; [reflexivity|].
    apply Z.ltb_ge in Eneg. cbn [mbind res_bind].
    pose proof (length_random_vector (Z.to_nat (GRID_SIZE cfg)) (rng s)) as Hlen.
    destruct (random_vector _ (rng s)) as [column r]. cbn [fst] in Hlen.
    rewrite (set_column0_mismatch n); [reflexivity|exact Hn| |lia|lia].
    eapply square_of_shape; [apply shape_np_roll_cols|exact Hsq]. }
  split; [exact Hshift|].
  unfold step, step_fields. by rewrite Hshift.
Qed.

End GridSizeMismatch.

Lemma step_grid_size_mismatch_witness :
  step 10 default_config bloom_ready = Raise ValueError.
Proof.
  refine (proj2 (@step_grid_size_mismatch Z LCG.stream 10 default_config 3
                   bloom_ready _ _ _ _)).
  - lia.
  - exact (proj1 (proj2 (proj2 sim_wf_bloom_ready))).
  - cbn. lia.
  - cbn. lia.
Defined.

(** ** A tick that never ends *)

Section ChainReaction.
Context {rng_state : Type} {RS : RandomStream rng_state}.
#[local] Abbreviation Sim := (@Simulation rng_state).

(** A core that blooms on its next update, if the tick is an emission tick,
    the temperature is in range and the catalyst is above the threshold. *)
Definition hot (cfg : Config) (c : Core.t) : Prop :=
  Core.refractory_countdown c <= 0 /\
  TAU_TEMP cfg <= Core.temp_exposure_count c + 1.

(** Every cell of the temperature is in range and every cell of the upper
    catalyst layer is at the threshold or above. *)
Definition bloom_weather (cfg : Config) (s : Sim) : Prop :=
  Forall (Forall (fun v => (T_MIN cfg <= v)%Q /\ (v <= T_MAX cfg)%Q))
         (temperature s) /\
  Forall (Forall (fun v => (C_THRESH cfg <= v)%Q)) (catalyst_upper s).

Lemma grid_get_elem (P : Q -> Prop) g y x v :
  Forall (Forall P) g -> grid_get g y x = Ok v -> P v.
Proof.
  unfold grid_get. intros Hg H. inv_bind H as i Ei.
  destruct (g !! i) as [row|] eqn:Erow; [|discriminate].
  inv_bind H as j Ej.
  destruct (row !! j) as [v'|] eqn:Ev; [|discriminate]. injection H as <-.
  rewrite Forall_forall in Hg.
  specialize (Hg row (list_elem_of_lookup_2 _ _ _ Erow)).
  rewrite Forall_forall in Hg. apply Hg. by eapply list_elem_of_lookup_2.
Qed.

Lemma update_hot_blooms cfg c tick0 temp cat :
  hot cfg c ->
  (T_MIN cfg <= temp)%Q -> (temp <= T_MAX cfg)%Q -> (C_THRESH cfg <= cat)%Q ->
  (Core.update cfg c tick0 temp cat true).2 = true.
Proof.
  intros [Hr He] Hlo Hhi Hcat. unfold Core.update.
  replace (0 <? Core.refractory_countdown c) with false
    by (symmetry; apply Z.ltb_ge; lia).
  rewrite (in_range_true _ _ Hlo Hhi).
  replace (Qle_bool (C_THRESH cfg) cat) with true
    by (symmetry; by apply Qle_bool_iff).
  replace (TAU_TEMP cfg <=? Core.temp_exposure_count c + 1) with true
    by (symmetry; apply Z.leb_le; lia).
  reflexivity.
Qed.

Lemma chain_reaction_loop cfg n fuel :
  TAU_TEMP cfg <= 1 -> 1 <= SPAWN_S cfg ->
  forall i b (s : Sim),
    sim_wf cfg n s -> bloom_weather cfg s ->
    (exists j c, (i <= j)%nat /\ cores s !! j = Some c /\ hot cfg c) ->
    update_cores fuel cfg true i b s = Timeout.
Proof.
  intros Htau Hspawn.
  induction fuel as [|fuel IH]; intros i b s Hwf Hweather (j & c & Hij & Hj & Hc).
  - cbn. destruct (cores s !! i) eqn:Ei; [reflexivity|].
    apply lookup_ge_None in Ei. apply lookup_lt_Some in Hj. lia.
  - cbn [update_cores].
    destruct (cores s !! i) as [core|] eqn:Ei.
    2:{ apply lookup_ge_None in Ei. apply lookup_lt_Some in Hj. lia. }
    destruct (update_core_at_Ok cfg n true i core b s Hwf Ei)
      as (b' & s' & Hbody & Hwf').
    rewrite Hbody. cbn [mbind res_bind]. apply IH; [exact Hwf'| |].
    + destruct Hweather as [Ht Hu].
      apply update_core_at_fields in Hbody as (_ & _ & Ht' & Hu' & _).
      unfold bloom_weather. by rewrite Ht', Hu'.
    + pose proof Hbody as Hspec.
      apply update_core_at_spec in Hspec
        as (temp & cat & core' & did & new & Etemp & Ecat & Hu & Hcs & Hlen
            & Hnew & _).
      destruct (decide (i = j)) as [->|Hne].
      * assert (core = c) as -> by congruence.
        destruct Hweather as [Ht Hcat].
        pose proof (grid_get_elem _ _ _ _ _ Ht Etemp) as [Hlo Hhi].
        pose proof (grid_get_elem _ _ _ _ _ Hcat Ecat) as Hth.
        pose proof (update_hot_blooms cfg c (tick s) temp cat Hc Hlo Hhi Hth)
          as Hdid.
        rewrite Hu in Hdid. cbn in Hdid. subst did.
        destruct new as [|c0 new]; [cbn in Hlen; lia|].
        apply Forall_cons in Hnew as [(dx & dy & _ & _ & ->) _].
        exists (length (cores s)), (Core.new ((Core.x c + dx) mod GRID_SIZE cfg)
                                            ((Core.y c + dy) mod GRID_SIZE cfg)).
        split; [apply lookup_lt_Some in Hj; lia|]. split.
        -- rewrite Hcs, lookup_app_r by (rewrite length_insert; lia).
           by rewrite length_insert, Nat.sub_diag.
        -- split; cbn; lia.
      * exists j, c. split; [lia|]. split; [|exact Hc].
        rewrite Hcs, lookup_app_l
          by (rewrite length_insert; by eapply lookup_lt_Some).
        by rewrite list_lookup_insert_ne.
Qed.

(** X15.  A chain reaction keeps one tick running for ever.  With
    [TAU_TEMP <= 1] and [SPAWN_S >= 1], in a well-formed simulation whose
    next tick is an emission tick, whose thermal range contains [0, 1) (all
    temperatures of a running simulation), whose upper layer is at the
    threshold or above in every cell once the emission has taken its
    fraction, and one of whose cores is out of its refractory period with
    [temp_exposure_count + 1 >= TAU_TEMP]: that core blooms, each core it
    spawns is visited by the same loop and blooms in turn, and [step] does
    not return, however many cores the loop is allowed to visit. *)
Theorem step_chain_reaction fuel cfg n (s : Sim) c :
  TAU_TEMP cfg <= 1 -> 1 <= SPAWN_S cfg ->
  sim_wf cfg n s ->
  (tick s + 1) mod 2 = 0 ->
  (T_MIN cfg <= 0)%Q -> (1 <= T_MAX cfg)%Q ->
  Forall (Forall unit_interval) (temperature s) ->
  Forall (Forall (fun u => (C_THRESH cfg <= u - u * EMIT_FRACTION cfg)%Q))
         (catalyst_upper s) ->
  c ∈ cores s -> hot cfg c ->
  step fuel cfg s = Timeout.
Proof.
  intros Htau Hspawn Hwf Heven Hmin Hmax Htemp Hcat Hin Hhot.
  unfold step, step_fields.
  destruct (shift_temperature_Ok cfg n s Hwf)
    as (s0 & Es0 & HG & Hn & Ht0 & Hu0 & Hl0 & Hcs0).
  pose proof (shift_temperature_unit _ _ _ Es0 Htemp) as Htemp0.
  pose proof (shift_temperature_fields _ _ _ Es0)
    as (_ & _ & Hu & Hl & Hc & _).
  rewrite Es0. cbn [mbind res_bind].
  rewrite Heven. cbn [Z.eqb].
  destruct (emit_transform_Ok cfg n _ _ Hu0 Hl0)
    as (upper' & lower' & Eemit & Hsu & Hsl).
  rewrite Eemit. cbn [mbind res_bind].
  rewrite (chain_reaction_loop cfg n fuel Htau Hspawn); [reflexivity| | |].
  - exact (conj HG (conj Hn (conj Ht0 (conj Hsu (conj Hsl Hcs0))))).
  - split; cbn [temperature catalyst_upper].
    + eapply Forall_impl; [exact Htemp0|]. intros row Hrow.
      eapply Forall_impl; [exact Hrow|]. intros v [Hv0 Hv1]. split.
      * by eapply Qle_trans.
      * apply Qlt_le_weak in Hv1. by eapply Qle_trans.
    + apply (Forall2_cells _ n _ Hsu). intros r j Hr Hj.
      destruct Hu0 as [Hlen0 Hrows0].
      destruct (emit_transform_cells _ _ _ _ _ r j Eemit) as [_ ->].
      * lia.
      * rewrite (rect_row n n _ r); [lia|exact (conj Hlen0 Hrows0)|lia].
      * rewrite Hu. rewrite Hu in Hlen0, Hrows0.
        by apply (proj1 (Forall2_cells _ n _ (conj Hlen0 Hrows0)) Hcat).
  - apply list_elem_of_lookup_1 in Hin as [j Hj].
    exists j, c. cbn [cores]. rewrite Hc. split; [lia|]. by split.
Qed.

End ChainReaction.

(** The 3 x 3 world with one tick of exposure as the bloom condition and a
    thermal range that covers every temperature. *)
Definition hair_trigger_config : Config := {|
  GRID_SIZE := 3;
  C_THRESH := 2 # 10;
  EMIT_FRACTION := 6 # 10;
  KERNEL_3x3 := KERNEL_3x3 default_config;
  ADVECT_ALPHA := 5 # 100;
  T_MIN := 0;
  T_MAX := 1;
  TAU_TEMP := 1;
  TAU_REFRACT := 12;
  SPAWN_S := 2;
  RNG_SEED := 42;
  INITIAL_CORES := 2
|}.

Lemma step_chain_reaction_witness :
  step 1000 hair_trigger_config bloom_ready = Timeout.
Proof.
  refine (@step_chain_reaction Z LCG.stream 1000 hair_trigger_config 3
            bloom_ready (nth 0 (cores bloom_ready) (Core.new 0 0))
            _ _ _ _ _ _ _ _ _ _).
  - cbn. lia.
  - cbn. lia.
  - unfold sim_wf, square, core_in_grid. cbn.
    repeat split; try lia; by repeat constructor.
  - reflexivity.
  - unfold Qle. cbn. lia.
  - unfold Qle. cbn. lia.
  - repeat constructor; unfold Qle, Qlt; cbn; lia.
  - repeat constructor; unfold Qle; cbn; lia.
  - apply list_elem_of_here.
  - split; cbn; lia.
Defined.

(** ** Bounds on the catalyst, cell by cell *)

Lemma bigsum_le n (f g : nat -> Q) :
  (forall i, (i < n)%nat -> (f i <= g i)%Q) -> (bigsum n f <= bigsum n g)%Q.
Proof.
  induction n as [|n IH]; intros H; [rewrite !bigsum_0; apply Qle_refl|].
  rewrite !bigsum_S. apply Qplus_le_compat; [apply IH; intros; apply H; lia|].
  apply H. lia.
Qed.

Lemma bigsum_nonneg n (f : nat -> Q) :
  (forall i, (i < n)%nat -> (0 <= f i)%Q) -> (0 <= bigsum n f)%Q.
Proof.
  induction n as [|n IH]; intros H; [rewrite bigsum_0; apply Qle_refl|].
  rewrite bigsum_S.
  assert (0 <= bigsum n f)%Q by (apply IH; intros; apply H; lia).
  assert (0 <= f n)%Q by (apply H; lia). lra.
Qed.

Lemma Qmult_nonneg (x w : Q) : (0 <= x)%Q -> (0 <= w)%Q -> (0 <= x * w)%Q.
Proof. intros. nra. Qed.

Lemma Qmult_weight_le (x w M : Q) :
  (x <= M)%Q -> (0 <= w)%Q -> (x * w <= w * M)%Q.
Proof. intros. nra. Qed.

Lemma Qmix_within (a b alpha M : Q) :
  (0 <= a)%Q -> (a <= M)%Q -> (0 <= b)%Q -> (b <= M)%Q ->
  (0 <= alpha)%Q -> (alpha <= 1)%Q ->
  (0 <= a * (1 - alpha) + b * alpha)%Q /\ (a * (1 - alpha) + b * alpha <= M)%Q.
Proof. intros. split; nra. Qed.

Lemma Qemit_within (u l e M : Q) :
  (0 <= u)%Q -> (0 <= l)%Q -> (u + l <= M)%Q -> (0 <= e)%Q -> (e <= 1)%Q ->
  (0 <= u - u * e)%Q /\ (0 <= l + u * e)%Q /\
  (u - u * e + (l + u * e) <= M)%Q.
Proof. intros. repeat split; nra. Qed.

(** The cells of an array are all between 0 and [M]. *)
Definition cells_within (n : nat) (M : Q) (g : list (list Q)) : Prop :=
  forall i j, (i < n)%nat -> (j < n)%nat ->
              (0 <= cell g i j)%Q /\ (cell g i j <= M)%Q.

(** A convolution with non-negative weights of sum 1 is an average: it
    keeps the cells between the bounds they had. *)
Lemma conv_cells_within n M input kernel :
  (0 < n)%nat -> square n input -> square 3 kernel ->
  (np_sum kernel == 1)%Q ->
  Forall (Forall (fun w => (0 <= w)%Q)) kernel ->
  cells_within n M input ->
  forall i j, (i < n)%nat -> (j < n)%nat ->
    (0 <= conv_cell input kernel i j)%Q /\ (conv_cell input kernel i j <= M)%Q.
Proof.
  intros Hn Hin Hk Hone Hpos Hcells i j Hi Hj.
  pose proof (proj1 (Forall2_cells _ 3 kernel Hk) Hpos) as Hw.
  assert (forall a b, (0 <= cell input ((i + a + (n - 1 mod n)) mod n)%nat
                                       ((j + b + (n - 1 mod n)) mod n)%nat)%Q /\
                      (cell input ((i + a + (n - 1 mod n)) mod n)%nat
                                  ((j + b + (n - 1 mod n)) mod n)%nat <= M)%Q)
    as Hx.
  { intros a b. apply Hcells; apply Nat.mod_upper_bound; lia. }
  rewrite (conv_cell_sum n) by assumption. split.
  - apply bigsum_nonneg. intros a Ha. apply bigsum_nonneg. intros b Hb.
    destruct (Hx a b) as [H0 _]. by apply Qmult_nonneg, Hw.
  - apply Qle_trans with
      (bigsum 3 (fun a => bigsum 3 (fun b => cell kernel a b * M)))%Q.
    + apply bigsum_le. intros a Ha. apply bigsum_le. intros b Hb.
      destruct (Hx a b) as [H0 HM]. by apply Qmult_weight_le, Hw.
    + assert (bigsum 3 (fun a => bigsum 3 (fun b => cell kernel a b * M))
              == np_sum kernel * M)%Q as ->.
      { rewrite (np_sum_cells 3 kernel Hk), <- bigsum_scale.
        apply bigsum_ext. intros a _. apply bigsum_scale. }
      rewrite Hone. lra.
Qed.

Lemma nth_roll1_0 {A} (l : list A) d :
  nth 0 (roll1 l) d = nth (length l - 1) l d.
Proof.
  unfold roll1. destruct (decide (length l = 0%nat)) as [Hz|Hnz].
  - destruct l; [reflexivity|discriminate].
  - rewrite app_nth1 by (rewrite length_drop; lia).
    rewrite nth_skipn. f_equal. lia.
Qed.

Lemma cell_roll_cols n g i j :
  square n g -> (i < n)%nat -> (j < n)%nat ->
  exists j', (j' < n)%nat /\ cell (np_roll_cols g) i j = cell g i j'.
Proof.
  intros Hsq Hi Hj. pose proof (square_row n g i Hsq Hi) as Hrow.
  destruct Hsq as [Hlen _]. unfold cell, np_roll_cols.
  rewrite (nth_map_in _ _ _ []) by lia.
  destruct j as [|j].
  - exists (n - 1)%nat. split; [lia|]. by rewrite nth_roll1_0, Hrow.
  - exists j. split; [lia|]. rewrite nth_roll1 by lia. f_equal. lia.
Qed.

(** Advection with a fraction between 0 and 1 is an average too. *)
Lemma advect_cells_within n M g alpha r :
  square n g -> (0 <= alpha)%Q -> (alpha <= 1)%Q ->
  cells_within n M g ->
  advect_right g alpha = Ok r ->
  square n r /\ cells_within n M r.
Proof.
  intros Hsq Ha0 Ha1 Hcells H.
  pose proof (advect_right_total _ _ _ H) as [Hshape _].
  split; [by eapply square_of_shape|].
  unfold advect_right in H. apply np_zip_Ok in H as [Hs ->].
  intros i j Hi Hj.
  pose proof (square_row n g i Hsq Hi) as Hrow.
  pose proof Hsq as [Hlen _].
  assert (length (nth i (np_roll_cols g) []) = n) as Hrow'
    by (rewrite <- shape_nth, shape_np_roll_cols, shape_nth; exact Hrow).
  assert (length (np_roll_cols g) = n) as Hlen'
    by (unfold np_roll_cols; by rewrite length_map).
  rewrite cell_zip_with_shape; [|exact Hs| |].
  2:{ unfold np_scale. rewrite length_map. lia. }
  2:{ rewrite <- shape_nth, shape_np_scale, shape_nth. lia. }
  rewrite !cell_np_scale by lia.
  destruct (cell_roll_cols n g i j Hsq Hi Hj) as (j' & Hj' & ->).
  destruct (Hcells i j Hi Hj) as [H0 HM].
  destruct (Hcells i j' Hi Hj') as [H0' HM'].
  by apply Qmix_within.
Qed.

Lemma cell_zeros_like g i j : cell (zeros_like g) i j = 0%Q.
Proof.
  unfold cell, zeros_like.
  destruct (decide (i < length g)%nat) as [Hi|Hi].
  - rewrite (nth_map_in _ _ _ []) by assumption.
    generalize (length (nth i g [])). intros k. revert j.
    induction k as [|k IH]; intros [|j]; cbn; try reflexivity. apply IH.
  - assert (nth i (map (fun row => replicate (length row) 0%Q) g) [] = [])
      as -> by (apply nth_overflow; rewrite length_map; lia).
    by destruct j.
Qed.

(** Both layers hold no negative cell, and no cell of their sum
    [upper + lower] is above [M]. *)
Definition catalyst_below (n : nat) (M : Q) (upper lower : list (list Q))
  : Prop :=
  forall i j, (i < n)%nat -> (j < n)%nat ->
    (0 <= cell upper i j)%Q /\ (0 <= cell lower i j)%Q /\
    (cell upper i j + cell lower i j <= M)%Q.

Lemma emit_catalyst_below cfg n M upper lower upper' lower' :
  square n upper -> square n lower ->
  (0 <= EMIT_FRACTION cfg)%Q -> (EMIT_FRACTION cfg <= 1)%Q ->
  catalyst_below n M upper lower ->
  emit_transform cfg upper lower = Ok (upper', lower') ->
  catalyst_below n M upper' lower'.
Proof.
  intros Hu Hl He0 He1 Hbelow H i j Hi Hj.
  destruct (emit_transform_cells _ _ _ _ _ i j H) as [-> ->].
  - destruct Hu as [Hlen _]. lia.
  - rewrite (square_row n upper i Hu Hi). lia.
  - destruct (Hbelow i j Hi Hj) as (H0u & H0l & HM). by apply Qemit_within.
Qed.

Lemma collect_catalyst_below cfg n M upper lower upper' lower' :
  GRID_SIZE cfg = Z.of_nat n -> (0 < n)%nat ->
  square n upper -> square n lower ->
  kernel_ok cfg -> Forall (Forall (fun w => (0 <= w)%Q)) (KERNEL_3x3 cfg) ->
  (0 <= ADVECT_ALPHA cfg)%Q -> (ADVECT_ALPHA cfg <= 1)%Q ->
  catalyst_below n M upper lower ->
  collect_transform cfg upper lower = Ok (upper', lower') ->
  catalyst_below n M upper' lower'.
Proof.
  intros HG Hn Hu Hl [Hk Hone] Hpos Ha0 Ha1 Hbelow H.
  unfold collect_transform in H.
  inv_bind H as upper1 E1. inv_bind H as upper2 E2. inv_bind H as upper3 E3.
  injection H as <- <-.
  apply np_zip_Ok in E1 as [Hs ->].
  assert (square n (zip_with (zip_with Qplus) upper lower)) as Hsq1
    by (eapply square_of_shape; [by apply shape_zip_with|exact Hu]).
  assert (cells_within n M (zip_with (zip_with Qplus) upper lower)) as Hc1.
  { intros i j Hi Hj. rewrite (cell_zip_with Qplus n n) by assumption.
    destruct (Hbelow i j Hi Hj) as (H0u & H0l & HM). split; lra. }
  destruct (apply_convolution_cells cfg _ (KERNEL_3x3 cfg) n HG Hn Hsq1 Hk)
    as (out & Eout & Hsq2 & Hcells).
  rewrite Eout in E2. injection E2 as ->.
  assert (cells_within n M upper2) as Hc2.
  { intros i j Hi Hj. rewrite Hcells by assumption.
    by apply (conv_cells_within n M). }
  destruct (advect_cells_within n M _ _ _ Hsq2 Ha0 Ha1 Hc2 E3) as [_ Hc3].
  intros i j Hi Hj. rewrite cell_zeros_like.
  destruct (Hc3 i j Hi Hj) as [H0 HM]. repeat split; lra.
Qed.

Lemma list_max_below (B : Q) (l : list Q) :
  (0 < B)%Q -> Forall (fun v => (v < B)%Q) l ->
  exists M, (0 <= M)%Q /\ (M < B)%Q /\ Forall (fun v => (v <= M)%Q) l.
Proof.
  intros HB. induction 1 as [|v l Hv _ (M & HM0 & HMB & Hall)].
  - exists 0%Q. split; [apply Qle_refl|]. split; [exact HB|constructor].
  - destruct (Qlt_le_dec M v) as [Hlt|Hle].
    + exists v. split; [lra|]. split; [exact Hv|].
      constructor; [apply Qle_refl|].
      eapply Forall_impl; [exact Hall|]. cbn. intros w Hw. lra.
    + exists M. split; [exact HM0|]. split; [exact HMB|]. by constructor.
Qed.

Lemma grid_max_below (B : Q) (g : list (list Q)) :
  (0 < B)%Q -> Forall (Forall (fun v => (v < B)%Q)) g ->
  exists M, (0 <= M)%Q /\ (M < B)%Q /\ Forall (Forall (fun v => (v <= M)%Q)) g.
Proof.
  intros HB. induction 1 as [|row g Hrow _ (M & HM0 & HMB & Hall)].
  - exists 0%Q. split; [apply Qle_refl|]. split; [exact HB|constructor].
  - destruct (list_max_below B row HB Hrow) as (M' & HM0' & HMB' & Hrow').
    destruct (Qlt_le_dec M M') as [Hlt|Hle].
    + exists M'. split; [exact HM0'|]. split; [exact HMB'|].
      constructor; [exact Hrow'|].
      eapply Forall_impl; [exact Hall|]. cbn. intros r Hr.
      eapply Forall_impl; [exact Hr|]. cbn. intros w Hw. lra.
    + exists M. split; [exact HM0|]. split; [exact HMB|].
      constructor; [|exact Hall].
      eapply Forall_impl; [exact Hrow'|]. cbn. intros w Hw. lra.
Qed.

Lemma cell_np_zeros r c i j : cell (np_zeros r c) i j = 0%Q.
Proof.
  unfold cell, np_zeros.
  assert (forall k p, nth p (replicate k 0%Q) 0%Q = 0%Q) as Hrow.
  { induction k as [|k IH]; intros [|p]; cbn; try reflexivity. apply IH. }
  revert i. induction r as [|r IH]; intros [|i]; cbn;
    try apply Hrow; try apply IH; by destruct j.
Qed.

Lemma Qscale_fifth (v : Q) :
  (0 <= v)%Q -> (v < 1)%Q -> (0 <= v * (2 # 10))%Q /\ (v * (2 # 10) < 2 # 10)%Q.
Proof. intros. split; lra. Qed.

Section Quiet.
Context {rng_state : Type} {RS : RandomStream rng_state}.
#[local] Abbreviation Sim := (@Simulation rng_state).

(** The states a program reaches by construction, [step] and [reset] under
    one configuration [cfg]. *)
Inductive reachable_under (cfg : Config) : Sim -> Prop :=
| reachable_under_init fuel seed0 s :
    init fuel cfg seed0 = Ok s -> reachable_under cfg s
| reachable_under_step fuel s s' st :
    reachable_under cfg s -> step fuel cfg s = Ok (s', st) ->
    reachable_under cfg s'
| reachable_under_reset fuel s s' :
    reachable_under cfg s -> reset fuel cfg s = Ok s' ->
    reachable_under cfg s'.

(** A configuration whose transforms are averages and whose threshold is
    that of [config.py] or above: a grid of size [n >= 1], a 3 x 3 kernel of
    non-negative weights of sum 1, an advection fraction and an emission
    fraction between 0 and 1, and [C_THRESH >= 0.2]. *)
Definition gentle (cfg : Config) (n : nat) : Prop :=
  GRID_SIZE cfg = Z.of_nat n /\ (0 < n)%nat /\
  kernel_ok cfg /\ Forall (Forall (fun w => (0 <= w)%Q)) (KERNEL_3x3 cfg) /\
  (0 <= ADVECT_ALPHA cfg)%Q /\ (ADVECT_ALPHA cfg <= 1)%Q /\
  (0 <= EMIT_FRACTION cfg)%Q /\ (EMIT_FRACTION cfg <= 1)%Q /\
  (2 # 10 <= C_THRESH cfg)%Q.

(** A core as [Core.__init__] leaves it, but for its exposure count. *)
Definition never_bloomed (c : Core.t) : Prop :=
  Core.total_blooms c = 0 /\ Core.last_bloom_tick c = -1 /\
  Core.bloomed c = false /\ Core.refractory_countdown c = 0.

Definition quiet (cfg : Config) (n : nat) (s : Sim) : Prop :=
  square n (catalyst_upper s) /\ square n (catalyst_lower s) /\
  (exists M, (M < 2 # 10)%Q /\
             catalyst_below n M (catalyst_upper s) (catalyst_lower s)) /\
  total_blooms s = 0 /\ bloom_locations s = [] /\
  length (cores s) = Z.to_nat (INITIAL_CORES cfg) /\
  Forall never_bloomed (cores s).

Lemma rect_random_grid rows cols (r : rng_state) :
  rect rows cols (random_grid rows cols r).1.
Proof.
  revert r. induction rows as [|rows IH]; intros r; cbn;
    [by split|].
  pose proof (length_random_vector cols r) as Hrow.
  destruct (random_vector cols r) as [row r1]. specialize (IH r1).
  destruct (random_grid rows cols r1) as [g r2]. cbn [fst] in *.
  destruct IH as [Hlen Hrows]. split; [cbn; by rewrite Hlen|by constructor].
Qed.

Lemma update_never_bloomed cfg c tick0 temp cat em :
  never_bloomed c -> (cat < C_THRESH cfg)%Q ->
  exists c', Core.update cfg c tick0 temp cat em = (c', false) /\
             never_bloomed c'.
Proof.
  intros (Htb & Hlast & Hbl & Hr) Hcat. unfold Core.update.
  rewrite Hr. cbn [Z.ltb Z.compare].
  rewrite (Qle_bool_false _ _ Hcat), andb_false_r. cbn [andb].
  eexists. split; [reflexivity|]. by repeat split.
Qed.

Lemma update_cores_quiet fuel cfg em i b (s : Sim) b' s' :
  Forall (Forall (fun v => (v < C_THRESH cfg)%Q)) (catalyst_upper s) ->
  Forall never_bloomed (cores s) ->
  update_cores fuel cfg em i b s = Ok (b', s') ->
  b' = b /\ total_blooms s' = total_blooms s /\
  bloom_locations s' = bloom_locations s /\
  length (cores s') = length (cores s) /\
  Forall never_bloomed (cores s').
Proof.
  intros Hcat Hcores H.
  destruct (update_cores_ind cfg em
    (fun _ b1 s1 =>
       catalyst_upper s1 = catalyst_upper s /\
       b1 = b /\ total_blooms s1 = total_blooms s /\
       bloom_locations s1 = bloom_locations s /\
       length (cores s1) = length (cores s) /\
       Forall never_bloomed (cores s1))
    fuel i b s b' s') as (_ & (_ & Hres) & _);
    [by repeat split| |exact H|exact Hres].
  intros i0 b0 s0 core b1 s1 (Hu & -> & Htb & Hlog & Hlen & Hall) Hi Hbody.
  pose proof (update_core_at_fields _ _ _ _ _ _ _ _ Hbody) as (_ & _ & _ & Hu' & _).
  apply update_core_at_spec in Hbody
    as (temp & cat & core' & did & new & _ & Ecat & Hup & Hcs & Hnew & _
        & -> & Htb' & Hlog').
  assert (never_bloomed core) as Hcore.
  { rewrite Forall_forall in Hall. apply Hall.
    by eapply list_elem_of_lookup_2. }
  assert (cat < C_THRESH cfg)%Q as Hlow.
  { rewrite Hu in Ecat.
    exact (grid_get_elem (fun v => (v < C_THRESH cfg)%Q) _ _ _ _ Hcat Ecat). }
  destruct (update_never_bloomed cfg core (tick s0) temp cat em Hcore Hlow)
    as (c' & Ec' & Hc').
  rewrite Ec' in Hup. injection Hup as <- <-.
  destruct new; [|discriminate]. rewrite app_nil_r in Hcs.
  split; [congruence|]. split; [reflexivity|]. split; [congruence|].
  split; [congruence|]. split.
  - by rewrite Hcs, length_insert.
  - rewrite Hcs. by apply Forall_insert.
Qed.

Lemma reset_quiet fuel cfg n (s s' : Sim) :
  GRID_SIZE cfg = Z.of_nat n -> (0 < n)%nat ->
  reset fuel cfg s = Ok s' -> quiet cfg n s'.
Proof.
  intros HG Hn. unfold reset, rng_random_nn. rewrite HG, Nat2Z.id.
  replace (Z.of_nat n <? 0) with false by (symmetry; apply Z.ltb_ge; lia).
  cbn [mbind res_bind]. intros H.
  destruct (random_grid n n (rng s)) as [temp r1].
  pose proof (random_grid_unit n n r1) as Hunit.
  pose proof (rect_random_grid n n r1) as Hrect.
  destruct (random_grid n n r1) as [u r2]. cbn [fst] in Hunit, Hrect.
  inv_bind H as [cs r3] E. injection H as <-.
  apply initialize_cores_spec in E as (new & -> & Hlen & _ & Hnew).
  assert (square n (np_scale (2 # 10) u)) as Hsu
    by (eapply square_of_shape; [apply shape_np_scale|exact Hrect]).
  assert (Forall (Forall (fun v => (0 <= v)%Q /\ (v < 2 # 10)%Q))
                 (np_scale (2 # 10) u)) as Hcells.
  { unfold np_scale. apply Forall_forall. intros row Hrow.
    apply list_elem_of_fmap in Hrow as (row0 & -> & Hrow0).
    apply Forall_forall. intros v Hv.
    apply list_elem_of_fmap in Hv as (v0 & -> & Hv0).
    rewrite Forall_forall in Hunit. specialize (Hunit row0 Hrow0).
    rewrite Forall_forall in Hunit. destruct (Hunit v0 Hv0) as [H0 H1].
    by apply Qscale_fifth. }
  destruct (grid_max_below (2 # 10) (np_scale (2 # 10) u)) as (M & _ & HMB & HM).
  { reflexivity. }
  { eapply Forall_impl; [exact Hcells|]. cbn. intros row Hrow.
    eapply Forall_impl; [exact Hrow|]. cbn. tauto. }
  cbn [app] in *.
  split; [exact Hsu|]. split.
  { unfold np_zeros. split; [apply length_replicate|].
    apply Forall_replicate, length_replicate. }
  split.
  { exists M. split; [exact HMB|]. intros i j Hi Hj.
    cbn [catalyst_upper catalyst_lower]. rewrite cell_np_zeros.
    pose proof (proj1 (Forall2_cells _ n _ Hsu) Hcells i j Hi Hj) as [H0 _].
    pose proof (proj1 (Forall2_cells _ n _ Hsu) HM i j Hi Hj) as HM'.
    cbn in HM'. repeat split; lra. }
  split; [reflexivity|]. split; [reflexivity|]. split; [exact Hlen|].
  cbn. eapply Forall_impl; [exact Hnew|]. cbn.
  intros c [(x & y & ->) _]. by repeat split.
Qed.

Lemma step_quiet fuel cfg n (s s' : Sim) st :
  gentle cfg n -> quiet cfg n s ->
  step fuel cfg s = Ok (s', st) ->
  quiet cfg n s' /\ stats_blooms_this_tick st = 0.
Proof.
  intros (HG & Hn & Hk & Hpos & Ha0 & Ha1 & He0 & He1 & Hth)
    (Hu & Hl & (M & HMB & Hbelow) & Htb & Hlog & Hlen & Hcores) H.
  unfold step in H.
  inv_bind H as [em s1] E1. inv_bind H as [blooms s2] E2.
  injection H as <- <-. cbn [stats_blooms_this_tick].
  apply step_fields_spec in E1 as (_ & _ & Htr & Hc & Htb1 & Hbl1 & _).
  assert (square n (catalyst_upper s1) /\ square n (catalyst_lower s1) /\
          catalyst_below n M (catalyst_upper s1) (catalyst_lower s1))
    as (Hu1 & Hl1 & Hbelow1).
  { destruct em.
    - pose proof (emit_transform_total _ _ _ _ _ Htr) as (Hsu & Hsl & _).
      split; [by eapply square_of_shape|]. split; [by eapply square_of_shape|].
      exact (emit_catalyst_below cfg n M _ _ _ _ Hu Hl He0 He1 Hbelow Htr).
    - destruct Hk as [Hk3 Hone].
      pose proof (collect_transform_total cfg n _ _ _ _ HG Hn Hu Hl Hk3 Hone Htr)
        as (Hsu & Hsl & _).
      split; [exact Hsu|]. split; [exact Hsl|].
      exact (collect_catalyst_below cfg n M _ _ _ _ HG Hn Hu Hl
               (conj Hk3 Hone) Hpos Ha0 Ha1 Hbelow Htr). }
  assert (Forall (Forall (fun v => (v < C_THRESH cfg)%Q)) (catalyst_upper s1))
    as Hlow.
  { apply (Forall2_cells _ n _ Hu1). intros i j Hi Hj.
    destruct (Hbelow1 i j Hi Hj) as (H0u & H0l & HM). lra. }
  pose proof (update_cores_fields _ _ _ _ _ _ _ _ E2) as (_ & _ & _ & Hu2 & Hl2).
  rewrite <- Hc in Hcores.
  destruct (update_cores_quiet _ _ _ _ _ _ _ _ Hlow Hcores E2)
    as (-> & Htb2 & Hlog2 & Hlen2 & Hcores2).
  split; [|reflexivity].
  unfold quiet. rewrite Hu2, Hl2, Htb2, Hlog2, Hlen2, Htb1, Hbl1, Hc.
  split; [exact Hu1|]. split; [exact Hl1|].
  split; [by exists M|]. by repeat split.
Qed.

Lemma reachable_under_quiet cfg n (s : Sim) :
  gentle cfg n -> reachable_under cfg s -> quiet cfg n s.
Proof.
  intros Hg. pose proof Hg as (HG & Hn & _).
  induction 1 as [fuel seed0 s H|fuel s s' st _ IH H|fuel s s' _ _ H].
  - unfold init in H. by eapply reset_quiet.
  - by eapply step_quiet.
  - by eapply reset_quiet.
Qed.

(** X16.  With the threshold of [config.py] no core ever blooms.  [reset]
    fills the upper layer with values below 0.2, and every transform of
    [step] is an average (emission splits a cell between the layers;
    collection, the convolution and the advection mix cells with
    non-negative weights of sum 1), so no cell of the upper layer ever
    reaches 0.2.  Under any configuration with such weights and with
    [C_THRESH >= 0.2], in every state reached by construction, [step] and
    [reset]: [total_blooms] is 0, the bloom log is empty, the cores are the
    [INITIAL_CORES] initial ones, none of which has bloomed or is
    refractory, every cell of the upper layer is in [0, C_THRESH), and the
    next [step] reports no bloom (over exact rationals). *)
Theorem no_bloom_under_default_threshold cfg n (s : Sim) :
  gentle cfg n -> reachable_under cfg s ->
  total_blooms s = 0 /\ bloom_locations s = [] /\
  length (cores s) = Z.to_nat (INITIAL_CORES cfg) /\
  Forall never_bloomed (cores s) /\
  Forall (Forall (fun v => (0 <= v)%Q /\ (v < C_THRESH cfg)%Q))
         (catalyst_upper s) /\
  (forall fuel s' st,
      step fuel cfg s = Ok (s', st) -> stats_blooms_this_tick st = 0).
Proof.
  intros Hg Hs. pose proof (reachable_under_quiet cfg n s Hg Hs) as Hq.
  pose proof Hq as (Hu & _ & (M & HMB & Hbelow) & Htb & Hlog & Hlen & Hcores).
  pose proof Hg as (_ & _ & _ & _ & _ & _ & _ & _ & Hth).
  split; [exact Htb|]. split; [exact Hlog|]. split; [exact Hlen|].
  split; [exact Hcores|]. split.
  - apply (Forall2_cells _ n _ Hu). intros i j Hi Hj.
    destruct (Hbelow i j Hi Hj) as (H0u & H0l & HM). split; lra.
  - intros fuel s' st H. by destruct (step_quiet fuel cfg n s s' st Hg Hq H).
Qed.

End Quiet.

(** The configuration of [config.py] is gentle. *)
Lemma gentle_default_config : gentle default_config 100.
Proof.
  unfold gentle, kernel_ok, square. cbn.
  repeat split; try lia; try (by repeat constructor);
    try (unfold Qle; cbn; lia).
Qed.

Lemma gentle_small_config : gentle small_config 3.
Proof.
  unfold gentle, kernel_ok, square. cbn.
  repeat split; try lia; try (by repeat constructor);
    try (unfold Qle; cbn; lia).
Qed.

Lemma reachable_under_fresh_42_stepped :
  reachable_under small_config fresh_42_stepped.1.
Proof.
  assert (step 10 small_config fresh_42
          = Ok (fresh_42_stepped.1, hd after_bloom.2 fresh_42_stepped.2)) as H
    by (vm_compute; reflexivity).
  exact (reachable_under_step small_config 10%nat fresh_42 _ _
           (reachable_under_init small_config 50%nat (Some 42) fresh_42 init_42)
           H).
Qed.

Lemma no_bloom_under_default_threshold_witness :
  total_blooms fresh_42_stepped.1 = 0 /\
  bloom_locations fresh_42_stepped.1 = [] /\
  length (cores fresh_42_stepped.1) = 2%nat.
Proof.
  pose proof (no_bloom_under_default_threshold small_config 3
                fresh_42_stepped.1 gentle_small_config
                reachable_under_fresh_42_stepped) as (Htb & Hlog & Hlen & _).
  exact (conj Htb (conj Hlog Hlen)).
Defined.

(** ** The control endpoint of the server *)

Section Server.
Context {rng_state : Type} {float : Type}.
#[local] Abbreviation Sim := (@Simulation rng_state).

(** The interpreter and the engine behind the endpoint: the attributes of
    the type of a module object; [simulation.reset()], which reads the
    module [config] as it is at the time of the call; and, on Python floats,
    the test [x > 0] and the division [1.0 / x], which raises
    [ZeroDivisionError] for a zero. *)
Variable module_type : string -> option type_attribute.
Variable sim_reset : gmap string pyvalue -> Sim -> res Sim.
Variable float_gt0 : float -> bool.
Variable float_inv : float -> res float.

(** The module-level state of [server.py] that [control_simulation] reads
    and writes, and the namespace of the module [config]. *)
Record Server : Type := {
  paused : bool;
  step_interval : float;
  config_ns : gmap string pyvalue;
  simulation : Sim
}.

(** The request body, [SimulationControl]; [parameters] is a dict, iterated
    in insertion order. *)
Record SimulationControl : Type := {
  ctl_paused : option bool;
  ctl_reset : option bool;
  ctl_step_rate : option float;
  ctl_parameters : option (list (string * pyvalue))
}.

(** The response body. *)
Record ControlResponse : Type := {
  resp_paused : bool;
  resp_step_rate : float;
  resp_parameters : list (string * pyvalue)
}.

(** How a call of the endpoint that the framework answers for ends: with
    the response body, or with the [HTTPException] the handler raised. *)
Inductive reply : Type :=
| Response (body : ControlResponse)
| HTTPException (status_code : Z) (detail : string).

(** The loop over [control.parameters.items()]: the namespace when the loop
    ends, and the name that ended it early, if any. *)
Fixpoint apply_parameters (parameters : list (string * pyvalue))
    (ns : gmap string pyvalue) : res (gmap string pyvalue * option string) :=
  match parameters with
  | [] => Ok (ns, None)
  | (param_name, value) :: rest =>
      '(ns', success) ← set_parameter module_type ns param_name value;
      if success : bool then apply_parameters rest ns'
      else Ok (ns', Some param_name)
  end.

(** The attributes of [config] the response reports. *)
Definition reported_parameters : list string :=
  ["GRID_SIZE"; "C_THRESH"; "EMIT_FRACTION"; "ADVECT_ALPHA"; "T_MIN"; "T_MAX";
   "TAU_TEMP"; "TAU_CATALYST"; "TAU_REFRACT"; "SPAWN_S"].

(** [config.NAME] for one of these names, none of which is an attribute of
    the module type: the binding of the namespace; without one, a
    module-level [__getattr__] is called, which a [pyvalue] cannot be. *)
Definition read_attribute (ns : gmap string pyvalue) (name : string)
  : res pyvalue :=
  match ns !! name with
  | Some value => Ok value
  | None =>
      match ns !! "__getattr__" with
      | None => Raise AttributeError
      | Some _ => Raise TypeError
      end
  end.

Definition read_parameters (ns : gmap string pyvalue)
  : res (list (string * pyvalue)) :=
  mapM (fun name => value ← read_attribute ns name; Ok (name, value))
       reported_parameters.

(** [if control.reset: simulation.reset()] *)
Definition reset_if_asked (control : SimulationControl) (srv : Server)
  : res Sim :=
  if bool_decide (ctl_reset control = Some true)
  then sim_reset (config_ns srv) (simulation srv)
  else Ok (simulation srv).

(** [if control.step_rate is not None and control.step_rate > 0:
    step_interval = 1.0 / control.step_rate] *)
Definition new_step_interval (control : SimulationControl) (srv : Server)
  : res float :=
  match ctl_step_rate control with
  | Some rate =>
      if float_gt0 rate then float_inv rate else Ok (step_interval srv)
  | None => Ok (step_interval srv)
  end.

(** [control_simulation]: the state of the server after the call and what
    the call answers.  [Raise] is an exception other than [HTTPException]
    that leaves the handler; the state such an exception leaves behind is
    not part of the model. *)
Definition control_simulation (control : SimulationControl) (srv : Server)
  : res (Server * reply) :=
  let paused' := default (paused srv) (ctl_paused control) in
  sim' ← reset_if_asked control srv;
  step_interval' ← new_step_interval control srv;
  '(ns', unknown) ←
    apply_parameters (default [] (ctl_parameters control)) (config_ns srv);
  let srv' := {| paused := paused'; step_interval := step_interval';
                 config_ns := ns'; simulation := sim' |} in
  match unknown with
  | Some param_name =>
      Ok (srv', HTTPException 400
                  (String.append "Unknown parameter: " param_name))
  | None =>
      step_rate ← float_inv step_interval';
      parameters ← read_parameters ns';
      Ok (srv', Response {| resp_paused := paused';
                            resp_step_rate := step_rate;
                            resp_parameters := parameters |})
  end.

(** The assignments of a list of parameters, in order. *)
Definition assign_all (parameters : list (string * pyvalue))
    (ns : gmap string pyvalue) : gmap string pyvalue :=
  foldl (fun ns p => <[p.1 := p.2]> ns) ns parameters.

Lemma assignable_insert ns k v name :
  assignable module_type ns name ->
  assignable module_type (<[k := v]> ns) name.
Proof.
  intros [[Hb Ht]|Ht]; [left|by right]. split; [|exact Ht].
  apply lookup_insert_is_Some. destruct (decide (k = name)); auto.
Qed.

Lemma apply_parameters_known parameters :
  forall ns,
    Forall (fun p => assignable module_type ns p.1) parameters ->
    apply_parameters parameters ns = Ok (assign_all parameters ns, None).
Proof.
  induction parameters as [|[name value] rest IH]; intros ns Hall;
    [reflexivity|].
  apply Forall_cons in Hall as [Hname Hrest]. cbn [apply_parameters].
  rewrite (set_parameter_assignable _ _ _ _ Hname). cbn [mbind res_bind].
  apply IH. eapply Forall_impl; [exact Hrest|]. cbn. intros p.
  apply assignable_insert.
Qed.

Lemma apply_parameters_unknown known name value rest :
  module_type name = None -> module_type "__getattr__" = None ->
  forall ns,
    Forall (fun p => assignable module_type ns p.1) known ->
    ns !! name = None -> ns !! "__getattr__" = None ->
    apply_parameters (known ++ (name, value) :: rest) ns
    = Ok (assign_all known ns, Some name).
Proof.
  intros Ht Hhookt.
  induction known as [|[k v] known IH]; intros ns Hall Hname Hhook.
  - cbn. by rewrite set_parameter_unknown.
  - apply Forall_cons in Hall as [Hk Hrest]. cbn [app apply_parameters].
    rewrite (set_parameter_assignable _ _ _ _ Hk). cbn [mbind res_bind].
    cbn [fst] in Hk.
    assert (forall other, module_type other = None -> ns !! other = None ->
                          <[k := v]> ns !! other = None) as Hfresh.
    { intros other Hot Hon. rewrite lookup_insert_ne; [exact Hon|].
      intros ->. destruct Hk as [[[? Hb] _]|Hr]; congruence. }
    apply IH; [|by apply Hfresh|by apply Hfresh].
    eapply Forall_impl; [exact Hrest|]. cbn. intros p.
    apply assignable_insert.
Qed.

Lemma dom_assign_all parameters :
  forall ns,
    Forall (fun p => is_Some (ns !! p.1)) parameters ->
    dom (assign_all parameters ns) = dom ns.
Proof.
  induction parameters as [|[name value] rest IH]; intros ns Hall;
    [reflexivity|].
  apply Forall_cons in Hall as [Hname Hrest]. cbn [assign_all foldl fst snd].
  fold (assign_all rest (<[name := value]> ns)).
  rewrite IH.
  - by apply dom_insert_lookup_L.
  - eapply Forall_impl; [exact Hrest|]. cbn. intros p Hp.
    apply lookup_insert_is_Some. destruct (decide (name = p.1)); auto.
Qed.

Lemma lookup_assign_all_is_Some parameters name :
  forall ns, is_Some (ns !! name) -> is_Some (assign_all parameters ns !! name).
Proof.
  induction parameters as [|[k v] rest IH]; intros ns H; [exact H|].
  cbn [assign_all foldl fst snd]. fold (assign_all rest (<[k := v]> ns)).
  apply IH. apply lookup_insert_is_Some. destruct (decide (k = name)); auto.
Qed.

Lemma read_attribute_bound ns name value :
  ns !! name = Some value -> read_attribute ns name = Ok value.
Proof. intros H. unfold read_attribute. by rewrite H. Qed.

Lemma read_attributes_bound ns names :
  Forall (fun name => is_Some (ns !! name)) names ->
  exists ps,
    mapM (fun name => value ← read_attribute ns name; Ok (name, value)) names
    = Ok ps /\
    Forall2 (fun name p => p.1 = name /\ ns !! name = Some p.2) names ps.
Proof.
  induction 1 as [|name names [v Ev] _ (ps & Eps & Hps)].
  - exists []. split; [reflexivity|constructor].
  - exists ((name, v) :: ps). split.
    + cbn [mapM]. rewrite (read_attribute_bound _ _ _ Ev).
      cbn [mbind res_bind]. rewrite Eps. reflexivity.
    + by constructor.
Qed.

Lemma read_parameters_bound ns :
  Forall (fun name => is_Some (ns !! name)) reported_parameters ->
  exists ps,
    read_parameters ns = Ok ps /\
    Forall2 (fun name p => p.1 = name /\ ns !! name = Some p.2)
            reported_parameters ps.
Proof. apply read_attributes_bound. Qed.

(** X17.  A rejected request is not rolled back.  When the parameters of a
    request name something that is no attribute of [config], after names
    that [set_parameter] can assign, and the reset (if asked for) and the
    division for the new step interval have returned, the endpoint raises
    [HTTPException] with status 400 and the detail
    [Unknown parameter: <name>], and by then the request has taken effect up
    to that name: [paused] and the step interval are those of the request,
    the simulation has been reset if the request asked for it (under the
    configuration as it was before the request), and the parameters before
    the unknown one are assigned; those after it are not.  (The module
    [config] binds no [__getattr__], and the module type has no such
    attribute.) *)
Theorem control_rejected_not_rolled_back
    control srv known name value rest sim' step_interval' :
  ctl_parameters control = Some (known ++ (name, value) :: rest) ->
  Forall (fun p => assignable module_type (config_ns srv) p.1) known ->
  module_type name = None -> config_ns srv !! name = None ->
  module_type "__getattr__" = None ->
  config_ns srv !! "__getattr__" = None ->
  reset_if_asked control srv = Ok sim' ->
  new_step_interval control srv = Ok step_interval' ->
  control_simulation control srv =
  Ok ({| paused := default (paused srv) (ctl_paused control);
         step_interval := step_interval';
         config_ns := assign_all known (config_ns srv);
         simulation := sim' |},
      HTTPException 400 (String.append "Unknown parameter: " name)).
Proof.
  intros Hparams Hknown Ht Hname Hhookt Hhook Hreset Hinterval.
  unfold control_simulation.
  rewrite Hreset, Hinterval, Hparams. cbn [mbind res_bind from_option id].
  by rewrite (apply_parameters_unknown _ _ _ _ Ht Hhookt _ Hknown Hname Hhook).
Qed.

(** X18.  An accepted request.  When [set_parameter] can assign every name
    of the request, [config] binds the ten names the response reports, and
    the reset (if asked for) and the division for the new step interval have
    returned: the parameters are assigned in order, no name is added to
    [config] when all of them were bound, a reset has run before the
    assignments, under the configuration the request found, and then the
    endpoint computes [1.0 / step_interval].  If that division returns, the
    endpoint answers with [paused], the quotient as [step_rate] and, for
    each of the ten names, the value [config] now holds; if it raises (the
    interval is zero), the exception leaves the endpoint. *)
Theorem control_accepted control srv sim' step_interval' :
  Forall (fun p => assignable module_type (config_ns srv) p.1)
         (default [] (ctl_parameters control)) ->
  Forall (fun name => is_Some (config_ns srv !! name)) reported_parameters ->
  reset_if_asked control srv = Ok sim' ->
  new_step_interval control srv = Ok step_interval' ->
  let srv' := {| paused := default (paused srv) (ctl_paused control);
                 step_interval := step_interval';
                 config_ns := assign_all (default [] (ctl_parameters control))
                                         (config_ns srv);
                 simulation := sim' |} in
  (forall step_rate, float_inv step_interval' = Ok step_rate ->
     exists parameters,
       control_simulation control srv
       = Ok (srv', Response {| resp_paused := paused srv';
                               resp_step_rate := step_rate;
                               resp_parameters := parameters |}) /\
       Forall2 (fun name p => p.1 = name /\ config_ns srv' !! name = Some p.2)
               reported_parameters parameters) /\
  (forall e, float_inv step_interval' = Raise e ->
             control_simulation control srv = Raise e) /\
  (Forall (fun p => is_Some (config_ns srv !! p.1))
          (default [] (ctl_parameters control)) ->
   dom (config_ns srv') = dom (config_ns srv)).
Proof.
  intros Hknown Hreported Hreset Hinterval. cbv zeta.
  split; [|split].
  - intros step_rate Hrate.
    destruct (read_parameters_bound
                (assign_all (default [] (ctl_parameters control))
                            (config_ns srv))) as (ps & Eps & Hps).
    { eapply Forall_impl; [exact Hreported|]. cbn. intros name.
      apply lookup_assign_all_is_Some. }
    exists ps. split; [|exact Hps]. unfold control_simulation.
    rewrite Hreset, Hinterval. cbn [mbind res_bind].
    rewrite (apply_parameters_known _ _ Hknown). cbn [mbind res_bind].
    rewrite Hrate. cbn [mbind res_bind]. by rewrite Eps.
  - intros e Hrate. unfold control_simulation.
    rewrite Hreset, Hinterval. cbn [mbind res_bind].
    rewrite (apply_parameters_known _ _ Hknown). cbn [mbind res_bind].
    by rewrite Hrate.
  - intros Hbound. cbn [config_ns]. by apply dom_assign_all.
Qed.

End Server.

(** The engine of [simulation.py] behind the endpoint: [reset] under the
    configuration read from the namespace. *)
Definition engine_reset (ns : gmap string pyvalue) (s : @Simulation Z)
  : res (@Simulation Z) :=
  match engine_config ns with
  | Some cfg => reset 50 cfg s
  | None => Raise TypeError
  end.

(** Exact rationals standing in for Python floats. *)
Definition exact_gt0 (x : Q) : bool :=
  if Qlt_le_dec 0 x then true else false.

Definition exact_inv (x : Q) : res Q :=
  if Qeq_bool x 0 then Raise ZeroDivisionError else Ok (/ x)%Q.

(** The server as it starts, around a simulation of the 3 x 3 world. *)
Definition server_0 : @Server Z Q := {|
  paused := false;
  step_interval := 1 # 10;
  config_ns := installed_config;
  simulation := fresh_42
|}.

Lemma control_rejected_not_rolled_back_witness :
  exists srv,
    control_simulation cpython_module_type engine_reset exact_gt0 exact_inv
      {| ctl_paused := Some true; ctl_reset := None;
         ctl_step_rate := Some (20 # 1);
         ctl_parameters := Some [("TAU_TEMP", PyInt 4);
                                 ("TAU_TEMPERATURE", PyInt 5);
                                 ("SPAWN_S", PyInt 3)] |}
      server_0
    = Ok (srv, HTTPException 400 "Unknown parameter: TAU_TEMPERATURE") /\
    paused srv = true /\
    config_ns srv !! "TAU_TEMP" = Some (PyInt 4) /\
    config_ns srv !! "SPAWN_S" = Some (PyInt 2).
Proof.
  eexists. split.
  - refine (control_rejected_not_rolled_back cpython_module_type engine_reset
              exact_gt0 exact_inv _ server_0
              [("TAU_TEMP", PyInt 4)] "TAU_TEMPERATURE" (PyInt 5)
              [("SPAWN_S", PyInt 3)] fresh_42 (1 # 20) _ _ _ _ _ _ _ _).
    + reflexivity.
    + apply Forall_singleton. left.
      split; [exists (PyInt 8)|]; vm_compute; reflexivity.
    + vm_compute. reflexivity.
    + vm_compute. reflexivity.
    + vm_compute. reflexivity.
    + vm_compute. reflexivity.
    + reflexivity.
    + reflexivity.
  - split; [reflexivity|]. split; vm_compute; reflexivity.
Defined.

Lemma control_accepted_witness :
  exists srv parameters,
    control_simulation cpython_module_type engine_reset exact_gt0 exact_inv
      {| ctl_paused := None; ctl_reset := None;
         ctl_step_rate := Some (20 # 1);
         ctl_parameters := Some [("TAU_TEMP", PyInt 4);
                                 ("SPAWN_S", PyInt 3)] |}
      server_0
    = Ok (srv, Response {| resp_paused := false; resp_step_rate := 20 # 1;
                           resp_parameters := parameters |}) /\
    config_ns srv !! "TAU_TEMP" = Some (PyInt 4).
Proof.
  assert (Forall (fun p => assignable cpython_module_type installed_config p.1)
                 [("TAU_TEMP", PyInt 4); ("SPAWN_S", PyInt 3)]) as Hknown.
  { apply Forall_cons. split; [|apply Forall_singleton];
      (left; split; [eexists|]; vm_compute; reflexivity). }
  assert (Forall (fun name => is_Some (installed_config !! name))
                 reported_parameters) as Hreported
    by (repeat constructor; eexists; vm_compute; reflexivity).
  destruct (proj1 (control_accepted cpython_module_type engine_reset
              exact_gt0 exact_inv
              {| ctl_paused := None; ctl_reset := None;
                 ctl_step_rate := Some (20 # 1);
                 ctl_parameters := Some [("TAU_TEMP", PyInt 4);
                                         ("SPAWN_S", PyInt 3)] |}
              server_0 fresh_42 (1 # 20) Hknown Hreported
              eq_refl eq_refl) (20 # 1) eq_refl)
    as (parameters & E & _).
  eexists _, parameters. split; [exact E|]. vm_compute. reflexivity.
Defined.

(** ** A headless run and its statistics *)

Section Headless.
Context {rng_state : Type} {RS : RandomStream rng_state}.
#[local] Abbreviation Sim := (@Simulation rng_state).

(** [cli.run_headless(steps)], but for what it prints and writes: the
    simulation is constructed with the seed of [config], stepped
    [range(steps)] times, and the statistics of the steps are collected. *)
Definition run_headless (fuel : nat) (cfg : Config) (steps : Z)
  : res (Sim * list StepStats) :=
  sim ← init fuel cfg None;
  run fuel cfg (Z.to_nat steps) sim.

(** The blooms a list of statistics reports, summed. *)
Definition sum_blooms (stats : list StepStats) : Z :=
  foldr Z.add 0 (stats_blooms_this_tick <$> stats).

Lemma step_stats fuel cfg (s s' : Sim) st :
  step fuel cfg s = Ok (s', st) ->
  tick s' = tick s + 1 /\ seed s' = seed s /\
  stats_tick st = tick s + 1 /\
  stats_emit_mode st = ((tick s + 1) mod 2 =? 0) /\
  0 <= stats_blooms_this_tick st /\
  total_blooms s' = total_blooms s + stats_blooms_this_tick st /\
  stats_total_blooms st = total_blooms s'.
Proof.
  unfold step. intros H.
  inv_bind H as [em s1] E1. inv_bind H as [blooms s2] E2.
  injection H as <- <-. cbn.
  apply step_fields_spec in E1 as (Hem & Ht & _ & _ & Htb & _ & Hseed).
  pose proof (update_cores_fields _ _ _ _ _ _ _ _ E2) as (Hseed2 & Ht2 & _).
  apply update_cores_progress in E2
    as (new & events & _ & _ & Hb & _ & _ & Htb' & _).
  repeat split; try congruence; lia.
Qed.

Lemma run_stats fuel cfg k :
  forall (s s' : Sim) stats,
    run fuel cfg k s = Ok (s', stats) ->
    length stats = k /\ tick s' = tick s + Z.of_nat k /\ seed s' = seed s /\
    total_blooms s' = total_blooms s + sum_blooms stats /\
    forall i st, stats !! i = Some st ->
      stats_tick st = tick s + Z.of_nat i + 1 /\
      stats_emit_mode st = ((tick s + Z.of_nat i + 1) mod 2 =? 0) /\
      0 <= stats_blooms_this_tick st /\
      stats_total_blooms st = total_blooms s + sum_blooms (take (S i) stats).
Proof.
  induction k as [|k IH]; intros s s' stats H; cbn [run] in H.
  - injection H as <- <-. cbn.
    split; [reflexivity|]. split; [lia|]. split; [reflexivity|].
    split; [lia|]. intros i st Hi. by rewrite lookup_nil in Hi.
  - inv_bind H as [s1 st1] E1. inv_bind H as [s2 sts] E2.
    injection H as <- <-.
    apply step_stats in E1 as (Ht & Hseed & Hst & Hem & Hb & Htb & Hstb).
    apply IH in E2 as (Hlen & Ht2 & Hseed2 & Htb2 & Hrest).
    unfold sum_blooms in *. cbn [length fmap list_fmap foldr].
    split; [by rewrite Hlen|]. split; [lia|]. split; [congruence|].
    split; [lia|].
    intros [|i] st Hi; cbn in Hi.
    + injection Hi as <-. cbn [take fmap list_fmap foldr Z.of_nat].
      rewrite !Z.add_0_r.
      split; [exact Hst|]. split; [exact Hem|]. split; [exact Hb|]. lia.
    + destruct (Hrest i st Hi) as (Hti & Hemi & Hbi & Htbi).
      cbn [take fmap list_fmap foldr].
      split; [lia|]. split; [rewrite Hemi; f_equal; f_equal; lia|].
      split; [exact Hbi|]. lia.
Qed.

Lemma odd_tick_emits i : ((0 + Z.of_nat i + 1) mod 2 =? 0) = Nat.odd i.
Proof.
  destruct (Nat.odd i) eqn:E.
  - apply Nat.odd_spec in E as [m ->]. apply Z.eqb_eq.
    replace (0 + Z.of_nat (2 * m + 1) + 1) with ((Z.of_nat m + 1) * 2) by lia.
    apply Z.mod_mul. lia.
  - rewrite <- Nat.negb_even in E. apply negb_false_iff in E.
    apply Nat.even_spec in E as [m ->]. apply Z.eqb_neq.
    replace (0 + Z.of_nat (2 * m) + 1) with (1 + Z.of_nat m * 2) by lia.
    by rewrite Z.mod_add.
Qed.

(** X19.  The statistics of a headless run.  When [run_headless(steps)]
    completes, the simulation was seeded with [RNG_SEED], there is one entry
    per step, and entry [i] (from 0) reports tick [i + 1], emission mode
    exactly when [i] is odd, a number of blooms that is not negative, and as
    [total_blooms] the sum of the blooms reported up to and including it;
    the final [total_blooms] the run prints is the sum over all entries, and
    the final tick is the number of steps. *)
Theorem run_headless_statistics fuel cfg steps (s' : Sim) stats :
  run_headless fuel cfg steps = Ok (s', stats) ->
  seed s' = RNG_SEED cfg /\
  length stats = Z.to_nat steps /\
  tick s' = Z.of_nat (Z.to_nat steps) /\
  total_blooms s' = sum_blooms stats /\
  forall i st, stats !! i = Some st ->
    stats_tick st = Z.of_nat i + 1 /\
    stats_emit_mode st = Nat.odd i /\
    0 <= stats_blooms_this_tick st /\
    stats_total_blooms st = sum_blooms (take (S i) stats).
Proof.
  unfold run_headless. intros H. inv_bind H as s0 E0.
  assert (seed s0 = RNG_SEED cfg /\ tick s0 = 0 /\ total_blooms s0 = 0)
    as (Hseed & Ht & Htb).
  { unfold init, reset in E0.
    inv_bind E0 as [temp r1] E1. inv_bind E0 as [u r2] E2.
    inv_bind E0 as [cs r3] E3. by injection E0 as <-. }
  apply run_stats in H as (Hlen & Ht' & Hseed' & Htb' & Hall).
  split; [congruence|]. split; [exact Hlen|]. split; [lia|]. split; [lia|].
  intros i st Hi. destruct (Hall i st Hi) as (Hti & Hemi & Hbi & Htbi).
  split; [lia|]. split; [|split; [exact Hbi|lia]].
  rewrite Hemi, Ht. apply odd_tick_emits.
Qed.

End Headless.

Lemma run_headless_small :
  run_headless 50 small_config 1 = Ok fresh_42_stepped.
Proof. vm_compute. reflexivity. Qed.

Lemma run_headless_statistics_witness :
  seed fresh_42_stepped.1 = 42 /\
  length fresh_42_stepped.2 = 1%nat /\
  tick fresh_42_stepped.1 = 1 /\
  total_blooms fresh_42_stepped.1 = sum_blooms fresh_42_stepped.2.
Proof.
  pose proof (run_headless_statistics 50 small_config 1
                fresh_42_stepped.1 fresh_42_stepped.2 run_headless_small)
    as (Hseed & Hlen & Ht & Htb & _).
  exact (conj Hseed (conj Hlen (conj Ht Htb))).
Defined.

(** ** The catalyst over a run: bounds, and totals under any kernel *)

Section CatalystLaws.
Context {rng_state : Type} {RS : RandomStream rng_state}.
#[local] Abbreviation Sim := (@Simulation rng_state).

(** A configuration whose catalyst transforms are averages: a grid of size
    [n >= 1], a 3 x 3 kernel of non-negative weights of sum 1, an advection
    fraction and an emission fraction between 0 and 1. *)
Definition averaging (cfg : Config) (n : nat) : Prop :=
  GRID_SIZE cfg = Z.of_nat n /\ (0 < n)%nat /\
  kernel_ok cfg /\ Forall (Forall (fun w => (0 <= w)%Q)) (KERNEL_3x3 cfg) /\
  (0 <= ADVECT_ALPHA cfg)%Q /\ (ADVECT_ALPHA cfg <= 1)%Q /\
  (0 <= EMIT_FRACTION cfg)%Q /\ (EMIT_FRACTION cfg <= 1)%Q.

(** Both layers are [n] x [n], hold no negative cell, and no cell of
    [upper + lower] is above [M]. *)
Definition catalyst_within (n : nat) (M : Q) (s : Sim) : Prop :=
  square n (catalyst_upper s) /\ square n (catalyst_lower s) /\
  catalyst_below n M (catalyst_upper s) (catalyst_lower s).

Lemma step_catalyst_within fuel cfg n M (s s' : Sim) st :
  averaging cfg n -> catalyst_within n M s ->
  step fuel cfg s = Ok (s', st) -> catalyst_within n M s'.
Proof.
  intros (HG & Hn & Hk & Hpos & Ha0 & Ha1 & He0 & He1) (Hu & Hl & Hbelow) H.
  unfold step in H.
  inv_bind H as [em s1] E1. inv_bind H as [blooms s2] E2.
  injection H as <- _.
  apply step_fields_spec in E1 as (_ & _ & Htr & _).
  apply update_cores_fields in E2 as (_ & _ & _ & Hu2 & Hl2).
  unfold catalyst_within. rewrite Hu2, Hl2.
  destruct em.
  - pose proof (emit_transform_total _ _ _ _ _ Htr) as (Hsu & Hsl & _).
    split; [by eapply square_of_shape|]. split; [by eapply square_of_shape|].
    exact (emit_catalyst_below cfg n M _ _ _ _ Hu Hl He0 He1 Hbelow Htr).
  - pose proof Hk as [Hk3 Hone].
    pose proof (collect_transform_total cfg n _ _ _ _ HG Hn Hu Hl Hk3 Hone Htr)
      as (Hsu & Hsl & _).
    split; [exact Hsu|]. split; [exact Hsl|].
    exact (collect_catalyst_below cfg n M _ _ _ _ HG Hn Hu Hl Hk Hpos Ha0 Ha1
             Hbelow Htr).
Qed.

(** X20.  The catalyst obeys a maximum principle.  Under a configuration
    whose transforms are averages, if both layers start without a negative
    cell and with [upper + lower <= M] in every cell, then after any number
    of steps no cell of either layer is negative and [upper + lower <= M]
    still holds in every cell: the concentration never goes below 0 and
    never above its initial maximum (over exact rationals). *)
Theorem catalyst_maximum_principle fuel cfg n M k :
  forall (s s' : Sim) stats,
    averaging cfg n -> catalyst_within n M s ->
    run fuel cfg k s = Ok (s', stats) ->
    catalyst_within n M s'.
Proof.
  induction k as [|k IH]; intros s s' stats Hcfg Hs H; cbn [run] in H.
  - by injection H as <- _.
  - inv_bind H as [s1 st1] E1. inv_bind H as [s2 sts] E2.
    injection H as <- _.
    eapply IH; [exact Hcfg| |exact E2].
    by eapply step_catalyst_within.
Qed.

(** A 3 x 3 convolution with wrap-around multiplies the total by the sum of
    the kernel. *)
Lemma apply_convolution_total_kernel cfg input kernel n out :
  GRID_SIZE cfg = Z.of_nat n -> (0 < n)%nat ->
  square n input -> square 3 kernel ->
  apply_convolution cfg input kernel = Ok out ->
  square n out /\ (np_sum out == np_sum kernel * np_sum input)%Q.
Proof.
  intros HG Hn Hin Hk Hout.
  destruct (apply_convolution_cells cfg input kernel n HG Hn Hin Hk)
    as (out' & Hout' & Hsq & Hcells).
  rewrite Hout in Hout'. injection Hout' as <-. split; [assumption|].
  rewrite (np_sum_cells n out Hsq).
  set (s := (n - 1 mod n)%nat).
  transitivity
    (bigsum n (fun i => bigsum n (fun j => bigsum 3 (fun a => bigsum 3 (fun b =>
       cell input ((i + a + s) mod n)%nat ((j + b + s) mod n)%nat
       * cell kernel a b))))%Q).
  { apply bigsum_ext. intros i Hi. apply bigsum_ext. intros j Hj.
    rewrite Hcells by assumption. by apply conv_cell_sum. }
  rewrite bigsum_swap4.
  transitivity
    (bigsum 3 (fun a => bigsum 3 (fun b => np_sum input * cell kernel a b))%Q).
  { apply bigsum_ext. intros a _. apply bigsum_ext. intros b _.
    transitivity
      (bigsum n (fun i =>
         (fun r => bigsum n (fun j => cell input r j * cell kernel a b))
           ((i + (a + s)) mod n)%nat))%Q.
    { apply bigsum_ext. intros i _. cbv beta.
      transitivity
        (bigsum n (fun j =>
           (fun c => cell input ((i + (a + s)) mod n)%nat c * cell kernel a b)
             ((j + (b + s)) mod n)%nat))%Q.
      - apply bigsum_ext. intros j _. cbv beta. by rewrite !Nat.add_assoc.
      - apply (bigsum_cyclic n (b + s)
                 (fun c => cell input ((i + (a + s)) mod n)%nat c * cell kernel a b)%Q). }
    rewrite (bigsum_cyclic n (a + s)
               (fun r => bigsum n (fun j => cell input r j * cell kernel a b))%Q).
    rewrite (np_sum_cells n input Hin), <- bigsum_scale.
    apply bigsum_ext. intros i _. by rewrite bigsum_scale. }
  rewrite (np_sum_cells 3 kernel Hk), <- bigsum_scale.
  apply bigsum_ext. intros a _. rewrite <- bigsum_scale.
  apply bigsum_ext. intros b _. ring.
Qed.

(** X21.  What a step does to the total catalyst under any 3 x 3 kernel.
    From [n] x [n] layers, an emission tick leaves
    [sum(upper) + sum(lower)] as it is, and a collection tick multiplies it
    by the sum of the kernel's weights; the total reported in the
    statistics is the new one.  The total is conserved because the kernel
    of [config.py] sums to 1, and with another kernel it grows or decays
    geometrically, one factor per collection tick (over exact
    rationals). *)
Theorem step_total_catalyst_kernel fuel cfg n (s s' : Sim) st :
  catalyst_wf cfg n s -> square 3 (KERNEL_3x3 cfg) ->
  step fuel cfg s = Ok (s', st) ->
  catalyst_wf cfg n s' /\
  stats_total_catalyst st = total_catalyst s' /\
  (total_catalyst s' ==
   (if stats_emit_mode st then 1 else np_sum (KERNEL_3x3 cfg))
   * total_catalyst s)%Q.
Proof.
  intros (HG & Hn & Hu & Hl) Hk H. unfold step in H.
  inv_bind H as [em s1] E1. inv_bind H as [blooms s2] E2.
  injection H as <- <-. cbn [stats_total_catalyst stats_emit_mode].
  apply step_fields_spec in E1 as (_ & _ & Htr & _).
  apply update_cores_fields in E2 as (_ & _ & _ & Hu2 & Hl2).
  unfold total_catalyst, catalyst_wf. rewrite Hu2, Hl2.
  destruct em.
  - apply emit_transform_total in Htr as (Hsu & Hsl & Hsum).
    split; [|split; [reflexivity|rewrite Hsum; ring]].
    refine (conj HG (conj Hn (conj _ _))); by eapply square_of_shape.
  - unfold collect_transform in Htr.
    inv_bind Htr as u1 E1. inv_bind Htr as u2 E2'. inv_bind Htr as u3 E3.
    injection Htr as Hu3 Hl3.
    apply np_zip_Ok in E1 as [Hs ->].
    assert (square n (zip_with (zip_with Qplus) (catalyst_upper s)
                               (catalyst_lower s))) as Hu1
      by (eapply square_of_shape; [by apply shape_zip_with|assumption]).
    destruct (apply_convolution_total_kernel _ _ _ n _ HG Hn Hu1 Hk E2')
      as [Hsq2 Hsum2].
    apply advect_right_total in E3 as [Hs3 Hsum3].
    rewrite <- Hu3, <- Hl3.
    split; [|split; [reflexivity|]].
    + refine (conj HG (conj Hn (conj _ _)));
        [by eapply square_of_shape|by apply square_zeros_like].
    + rewrite Hsum3, Hsum2, np_sum_zip_plus, np_sum_zeros_like by assumption.
      ring.
Qed.

End CatalystLaws.

Lemma averaging_small_config : averaging small_config 3.
Proof.
  unfold averaging, kernel_ok, square. cbn.
  repeat split; try lia; try (by repeat constructor);
    try (unfold Qle; cbn; lia).
Qed.

Lemma catalyst_within_bloom_ready : catalyst_within 3 1 bloom_ready.
Proof.
  destruct sim_wf_bloom_ready as (_ & _ & _ & Hu & Hl & _).
  split; [exact Hu|]. split; [exact Hl|].
  intros [|[|[|i]]] [|[|[|j]]] Hi Hj; try lia;
    vm_compute; repeat split; discriminate.
Qed.

Lemma catalyst_maximum_principle_witness :
  catalyst_within 3 1 after_two_steps.1.
Proof.
  exact (catalyst_maximum_principle 10 small_config 3 1 2 bloom_ready
           after_two_steps.1 after_two_steps.2
           averaging_small_config catalyst_within_bloom_ready run_bloom_ready).
Defined.

Lemma step_total_catalyst_kernel_witness :
  (total_catalyst after_bloom.1 == 1 * total_catalyst bloom_ready)%Q.
Proof.
  exact (proj2 (proj2 (step_total_catalyst_kernel 10 small_config 3 bloom_ready
                         after_bloom.1 after_bloom.2 catalyst_wf_bloom_ready
                         (proj1 kernel_ok_small) step_bloom_ready))).
Defined.

(** ** The temperature map over a run *)

Section TemperatureRun.
Context {rng_state : Type} {RS : RandomStream rng_state}.
#[local] Abbreviation Sim := (@Simulation rng_state).

Lemma shift_temperature_cells cfg n (s s' : Sim) :
  GRID_SIZE cfg = Z.of_nat n -> (0 < n)%nat -> square n (temperature s) ->
  shift_temperature cfg s = Ok s' ->
  square n (temperature s') /\
  forall r c, (r < n)%nat -> (1 <= c < n)%nat ->
    cell (temperature s') r c = cell (temperature s) r (c - 1).
Proof.
  intros HG Hn Hsq. unfold shift_temperature, rng_random_n.
  rewrite HG, Nat2Z.id.
  replace (Z.of_nat n <? 0) with false by (symmetry; apply Z.ltb_ge; lia).
  cbn [mbind res_bind mret res_ret].
  pose proof (length_random_vector n (rng s)) as Hlen.
  destruct (random_vector n (rng s)) as [column r]. cbn [fst] in Hlen.
  assert (square n (np_roll_cols (temperature s))) as Hroll
    by (eapply square_of_shape; [apply shape_np_roll_cols|assumption]).
  destruct (set_column0_spec n _ column Hn Hroll Hlen) as (g' & Hg' & Hsq' & Hcell).
  rewrite Hg'. cbn [mbind res_bind]. intros [= <-]. cbn [temperature].
  split; [exact Hsq'|]. intros r0 c Hr Hc. rewrite Hcell by assumption.
  destruct c as [|c]; [lia|]. unfold cell, np_roll_cols.
  rewrite (nth_map_in _ _ _ []) by (destruct Hsq as [-> _]; lia).
  apply nth_roll1. rewrite (rect_row n n _ r0) by assumption. lia.
Qed.

Lemma step_temperature_cells fuel cfg n (s s' : Sim) st :
  GRID_SIZE cfg = Z.of_nat n -> (0 < n)%nat -> square n (temperature s) ->
  step fuel cfg s = Ok (s', st) ->
  square n (temperature s') /\
  forall r c, (r < n)%nat -> (1 <= c < n)%nat ->
    cell (temperature s') r c = cell (temperature s) r (c - 1).
Proof.
  intros HG Hn Hsq H. unfold step, step_fields in H.
  inv_bind H as [em s1] E1. inv_bind H as [blooms s2] E2. injection H as <- _.
  inv_bind E1 as s0 E0. inv_bind E1 as [upper lower] Et. injection E1 as _ <-.
  apply update_cores_fields in E2 as (_ & _ & Htemp & _).
  rewrite Htemp. cbn [temperature].
  by apply (shift_temperature_cells cfg).
Qed.

(** X22.  The temperature map scrolls one column to the right per tick and
    nothing wraps around.  After [k] steps on an [n] x [n] grid, the grid is
    still [n] x [n] and every column [c >= k] holds what column [c - k]
    held before the steps: a temperature drawn in column 0 reaches column
    [c] after [c] ticks and leaves the grid after [n] ticks, and the [k]
    leftmost columns hold draws made during the run. *)
Theorem temperature_scrolls fuel cfg n k :
  forall (s s' : Sim) stats,
    GRID_SIZE cfg = Z.of_nat n -> (0 < n)%nat -> square n (temperature s) ->
    run fuel cfg k s = Ok (s', stats) ->
    square n (temperature s') /\
    forall r c, (r < n)%nat -> (k <= c < n)%nat ->
      cell (temperature s') r c = cell (temperature s) r (c - k).
Proof.
  induction k as [|k IH]; intros s s' stats HG Hn Hsq H; cbn [run] in H.
  - injection H as <- _. split; [exact Hsq|]. intros r c _ _.
    by rewrite Nat.sub_0_r.
  - inv_bind H as [s1 st1] E1. inv_bind H as [s2 sts] E2.
    injection H as <- _.
    destruct (step_temperature_cells _ _ _ _ _ _ HG Hn Hsq E1) as [Hsq1 Hc1].
    destruct (IH _ _ _ HG Hn Hsq1 E2) as [Hsq2 Hc2].
    split; [exact Hsq2|]. intros r c Hr Hc.
    rewrite Hc2, Hc1 by lia. f_equal. lia.
Qed.

End TemperatureRun.

Lemma temperature_scrolls_witness :
  cell (temperature after_two_steps.1) 1 2 = cell (temperature bloom_ready) 1 0.
Proof.
  refine (proj2 (temperature_scrolls 10 small_config 3 2 bloom_ready
                   after_two_steps.1 after_two_steps.2 _ _ _ run_bloom_ready)
            1%nat 2%nat _ _).
  - reflexivity.
  - lia.
  - exact (proj1 (proj2 (proj2 sim_wf_bloom_ready))).
  - lia.
  - lia.
Defined.

(** ** The life of a core *)

(** The number of [True] among the values a core's updates returned. *)
Fixpoint count_true (results : list bool) : Z :=
  match results with
  | [] => 0
  | r :: rest => (if r then 1 else 0) + count_true rest
  end.

(** What holds of a core at every moment of its life. *)
Definition core_inv (cfg : Config) (c : Core.t) : Prop :=
  0 <= Core.temp_exposure_count c /\
  0 <= Core.total_blooms c /\
  (Core.total_blooms c = 0 ->
   Core.last_bloom_tick c = -1 /\ Core.bloomed c = false /\
   Core.refractory_countdown c = 0) /\
  (0 < Core.refractory_countdown c ->
   Core.bloomed c = true /\ Core.temp_exposure_count c = 0 /\
   Core.refractory_countdown c <= TAU_REFRACT cfg).

Lemma update_core_inv cfg c tick temperature catalyst emit_mode :
  core_inv cfg c ->
  let '(c', r) := Core.update cfg c tick temperature catalyst emit_mode in
  core_inv cfg c' /\
  Core.x c' = Core.x c /\ Core.y c' = Core.y c /\
  Core.total_blooms c' = Core.total_blooms c + (if r then 1 else 0) /\
  (r = true -> emit_mode = true /\ Core.last_bloom_tick c' = tick) /\
  (r = false -> Core.last_bloom_tick c' = Core.last_bloom_tick c).
Proof.
  intros (He & Hb & H0 & Hr). unfold Core.update.
  destruct (0 <? Core.refractory_countdown c) eqn:Er.
  - apply Z.ltb_lt in Er. destruct (Hr Er) as (Hbl & Hexp & Hle).
    unfold core_inv. cbn.
    split; [|split; [reflexivity|]; split; [reflexivity|]; split; [lia|];
             split; [discriminate|reflexivity]].
    split; [exact He|]. split; [exact Hb|]. split.
    + intros Hz. destruct (H0 Hz) as (_ & _ & Hz'). lia.
    + intros _. split; [exact Hbl|]. split; [exact Hexp|]. lia.
  - apply Z.ltb_ge in Er.
    destruct (emit_mode && _ && _) eqn:Ebloom; unfold core_inv; cbn.
    + split; [|split; [reflexivity|]; split; [reflexivity|]; split; [lia|];
               split; [|discriminate]].
      * split; [lia|]. split; [lia|]. split; [lia|]. intros Hpos.
        split; [reflexivity|]. split; [reflexivity|]. lia.
      * intros _. split; [|reflexivity]. by destruct emit_mode.
    + split; [|split; [reflexivity|]; split; [reflexivity|]; split; [lia|];
               split; [discriminate|reflexivity]].
      split; [destruct (Core.in_range cfg temperature); lia|].
      split; [exact Hb|]. split; [|lia].
      intros Hz. destruct (H0 Hz) as (Hl & _ & Hz').
      split; [exact Hl|]. split; [reflexivity|]. lia.
Qed.

(** X23.  The life of a core.  After any sequence of updates of a core
    created at [(x, y)], under one configuration and whatever the ticks,
    temperatures, catalyst values and modes: the core is still at [(x, y)];
    its [total_blooms] is the number of updates that returned true, each of
    them on an emission tick; its exposure count is not negative; while it
    has not bloomed, [last_bloom_tick] is -1, [bloomed] is false and it is
    not refractory; and while its countdown is positive, [bloomed] is true,
    the exposure count is 0 and the countdown is at most [TAU_REFRACT]. *)
Theorem core_lifetime cfg x y inputs :
  let c := (updates cfg (Core.new x y) inputs).1 in
  let results := (updates cfg (Core.new x y) inputs).2 in
  length results = length inputs /\
  Core.x c = x /\ Core.y c = y /\
  Core.total_blooms c = count_true results /\
  Forall2 (fun input r => r = true -> input.2 = true) inputs results /\
  0 <= Core.temp_exposure_count c /\
  (Core.total_blooms c = 0 ->
   Core.last_bloom_tick c = -1 /\ Core.bloomed c = false /\
   Core.refractory_countdown c = 0) /\
  (0 < Core.refractory_countdown c ->
   Core.bloomed c = true /\ Core.temp_exposure_count c = 0 /\
   Core.refractory_countdown c <= TAU_REFRACT cfg).
Proof.
  cbv zeta.
  assert (forall c0, core_inv cfg c0 ->
            length (updates cfg c0 inputs).2 = length inputs /\
            Core.x (updates cfg c0 inputs).1 = Core.x c0 /\
            Core.y (updates cfg c0 inputs).1 = Core.y c0 /\
            Core.total_blooms (updates cfg c0 inputs).1
            = Core.total_blooms c0 + count_true (updates cfg c0 inputs).2 /\
            Forall2 (fun input r => r = true -> input.2 = true) inputs
                    (updates cfg c0 inputs).2 /\
            core_inv cfg (updates cfg c0 inputs).1) as Hgen.
  { induction inputs as [|[[[tick temp] cat] em] rest IH]; intros c0 Hinv.
    - cbn. split; [reflexivity|]. split; [reflexivity|].
      split; [reflexivity|]. split; [lia|]. split; [constructor|exact Hinv].
    - cbn [updates].
      pose proof (update_core_inv cfg c0 tick temp cat em Hinv) as Hup.
      destruct (Core.update cfg c0 tick temp cat em) as [c1 r].
      destruct Hup as (Hinv1 & Hx & Hy & Htb & Htrue & _).
      destruct (IH c1 Hinv1) as (Hlen & Hx' & Hy' & Htb' & Hall & Hinv').
      destruct (updates cfg c1 rest) as [c2 rs]. cbn [fst snd] in *.
      split; [cbn; by rewrite Hlen|]. split; [congruence|].
      split; [congruence|]. split; [cbn [count_true]; lia|].
      split; [|exact Hinv'].
      constructor; [|exact Hall]. cbn. intros Hr. by destruct (Htrue Hr). }
  destruct (Hgen (Core.new x y)) as (Hlen & Hx & Hy & Htb & Hall & Hinv).
  { unfold core_inv. cbn. repeat split; lia. }
  destruct Hinv as (He & _ & H0 & Hr).
  cbn in Hx, Hy, Htb.
  split; [exact Hlen|]. split; [exact Hx|]. split; [exact Hy|].
  split; [lia|]. split; [exact Hall|]. split; [exact He|].
  split; [exact H0|exact Hr].
Qed.

(** ** How fast the population can grow *)

Section Growth.
Context {rng_state : Type} {RS : RandomStream rng_state}.
#[local] Abbreviation Sim := (@Simulation rng_state).

Lemma update_cores_old_blooms cfg em n0 fuel :
  2 <= TAU_TEMP cfg ->
  forall i b (s : Sim) b' s',
    (n0 <= length (cores s))%nat ->
    b <= Z.of_nat (i `min` n0) ->
    (forall j c, (i `max` n0 <= j)%nat -> cores s !! j = Some c -> fresh c) ->
    update_cores fuel cfg em i b s = Ok (b', s') ->
    b' <= Z.of_nat n0.
Proof.
  intros Htau i b s b' s' Hlen Hb Hfresh H.
  destruct (update_cores_ind cfg em
    (fun i b s =>
       (n0 <= length (cores s))%nat /\ b <= Z.of_nat (i `min` n0) /\
       forall j c, (i `max` n0 <= j)%nat -> cores s !! j = Some c -> fresh c)
    fuel i b s b' s') as (j & (_ & Hres & _) & _);
    [by repeat split| |exact H|lia].
  clear -Htau. intros i b s core b' s' (Hlen & Hb & Hfresh) Hi Hbody.
  apply update_core_at_spec in Hbody
    as (temp & cat & core' & did & new & _ & _ & Hu & Hcs & Hnew & Hnear
        & -> & _).
  assert (forall c, c ∈ new -> fresh c) as Hnewfresh.
  { intros c Hc. rewrite Forall_forall in Hnear.
    destruct (Hnear c Hc) as (dx & dy & _ & _ & ->). by eexists _, _. }
  pose proof (lookup_lt_Some _ _ _ Hi) as Hilt.
  split; [rewrite Hcs, length_app, length_insert; lia|].
  destruct (decide (n0 <= i)%nat) as [Hge|Hlt].
  - assert (fresh core) as Hcore by (apply (Hfresh i); [lia|exact Hi]).
    pose proof (update_fresh_no_bloom cfg core (tick s) temp cat em Htau Hcore)
      as Hno.
    rewrite Hu in Hno. cbn in Hno. subst did.
    destruct new; [|discriminate]. rewrite app_nil_r in Hcs.
    split; [lia|]. intros j c Hj Hc. rewrite Hcs in Hc.
    rewrite list_lookup_insert_ne in Hc by lia.
    apply (Hfresh j); [lia|exact Hc].
  - split; [destruct did; lia|].
    intros j c Hj Hc. rewrite Hcs in Hc.
    destruct (decide (j < length (cores s))%nat) as [Hjl|Hjl].
    + rewrite lookup_app_l in Hc by (by rewrite length_insert).
      rewrite list_lookup_insert_ne in Hc by lia.
      apply (Hfresh j); [lia|exact Hc].
    + rewrite lookup_app_r in Hc by (rewrite length_insert; lia).
      apply Hnewfresh. by eapply list_elem_of_lookup_2.
Qed.

(** X24.  At most one bloom per core present at the start of the tick, when
    [TAU_TEMP >= 2].  A core spawned during a tick is updated in that tick,
    but one update cannot take its exposure count to [TAU_TEMP], so only
    the cores the tick started with can bloom: [blooms_this_tick] is at most
    their number, and the population after the tick is at most
    [1 + SPAWN_S] times the population before it (it is unchanged when
    [SPAWN_S <= 0]). *)
Theorem step_growth_bound fuel cfg (s s' : Sim) st :
  2 <= TAU_TEMP cfg ->
  step fuel cfg s = Ok (s', st) ->
  stats_blooms_this_tick st <= Z.of_nat (length (cores s)) /\
  Z.of_nat (length (cores s'))
  <= Z.of_nat (length (cores s)) * (1 + Z.max 0 (SPAWN_S cfg)).
Proof.
  intros Htau H. unfold step in H.
  inv_bind H as [em s1] E1. inv_bind H as [blooms s2] E2.
  injection H as <- <-. cbn [stats_blooms_this_tick].
  apply step_fields_spec in E1 as (_ & _ & _ & Hc & _).
  assert (blooms <= Z.of_nat (length (cores s1))) as Hb.
  { eapply (update_cores_old_blooms cfg em (length (cores s1)) fuel Htau 0%nat 0);
      [reflexivity|lia| |exact E2].
    intros j c Hj Hj'. apply lookup_lt_Some in Hj'. lia. }
  apply update_cores_progress in E2
    as (new & _ & Hpos & Hlen & Hb0 & _).
  apply (f_equal length) in Hpos.
  rewrite length_app, !length_fmap, Hlen in Hpos. rewrite Hc in *.
  split; [exact Hb|]. rewrite Hpos. nia.
Qed.

End Growth.

Lemma step_growth_bound_witness :
  Z.of_nat (length (cores after_bloom.1))
  <= Z.of_nat (length (cores bloom_ready)) * (1 + Z.max 0 (SPAWN_S small_config)).
Proof.
  refine (proj2 (step_growth_bound 10 small_config bloom_ready
                   after_bloom.1 after_bloom.2 _ step_bloom_ready)).
  cbn. lia.
Defined.

(** ** Diffusion and advection on the torus *)

Lemma wrap_index n i a :
  (0 < n)%nat ->
  ((i + a + (n - 1 mod n)) mod n = (i + a + n - 1) mod n)%nat.
Proof.
  intros Hn. destruct (decide (n = 1%nat)) as [->|Hn1].
  - by rewrite !Nat.mod_1_r.
  - rewrite (Nat.mod_small 1 n) by lia. f_equal. lia.
Qed.

(** X25.  [apply_convolution] is the 3 x 3 cross-correlation on the torus.
    On an [n] x [n] input with [n = GRID_SIZE >= 1] and a 3 x 3 kernel, the
    call returns an [n] x [n] array whose cell [(i, j)] is the sum over
    [a, b] in [0 .. 2] of [input[(i + a - 1) mod n, (j + b - 1) mod n] *
    kernel[a, b]]: the neighbours of a cell on an edge are the cells of the
    opposite edge, and the kernel is applied without being flipped. *)
Theorem apply_convolution_periodic cfg input kernel n :
  GRID_SIZE cfg = Z.of_nat n -> (0 < n)%nat ->
  square n input -> square 3 kernel ->
  exists out,
    apply_convolution cfg input kernel = Ok out /\ square n out /\
    forall i j, (i < n)%nat -> (j < n)%nat ->
      (cell out i j ==
       bigsum 3 (fun a => bigsum 3 (fun b =>
         cell input ((i + a + n - 1) mod n)%nat ((j + b + n - 1) mod n)%nat
         * cell kernel a b)))%Q.
Proof.
  intros HG Hn Hin Hk.
  destruct (apply_convolution_cells cfg input kernel n HG Hn Hin Hk)
    as (out & Hout & Hsq & Hcells).
  exists out. split; [exact Hout|]. split; [exact Hsq|].
  intros i j Hi Hj. rewrite Hcells by assumption.
  rewrite (conv_cell_sum n) by assumption.
  apply bigsum_ext. intros a _. apply bigsum_ext. intros b _.
  by rewrite !wrap_index.
Qed.

Lemma cell_roll_cols_wrap n g i j :
  square n g -> (i < n)%nat -> (j < n)%nat ->
  cell (np_roll_cols g) i j = cell g i ((j + n - 1) mod n)%nat.
Proof.
  intros Hsq Hi Hj. pose proof (square_row n g i Hsq Hi) as Hrow.
  destruct Hsq as [Hlen _]. unfold cell, np_roll_cols.
  rewrite (nth_map_in _ _ _ []) by lia.
  destruct j as [|j].
  - rewrite nth_roll1_0, Hrow. f_equal.
    replace (0 + n - 1)%nat with (n - 1)%nat by lia.
    symmetry. apply Nat.mod_small. lia.
  - rewrite nth_roll1 by lia. f_equal.
    replace (S j + n - 1)%nat with (j + 1 * n)%nat by lia.
    rewrite Nat.Div0.mod_add, Nat.mod_small; lia.
Qed.

(** X26.  [advect_right] mixes every cell with its left neighbour on the
    torus.  On an [n] x [n] array the call returns an [n] x [n] array whose
    cell [(i, j)] is [(1 - alpha) * array[i, j] + alpha * array[i, (j - 1)
    mod n]]: what flows out of the last column flows into the first. *)
Theorem advect_right_periodic n array alpha :
  (0 < n)%nat -> square n array ->
  exists r,
    advect_right array alpha = Ok r /\ square n r /\
    forall i j, (i < n)%nat -> (j < n)%nat ->
      cell r i j
      = (cell array i j * (1 - alpha)
         + cell array i ((j + n - 1) mod n)%nat * alpha)%Q.
Proof.
  intros Hn Hsq. destruct (advect_right_Ok array alpha) as [r H].
  exists r. split; [exact H|].
  pose proof (advect_right_total _ _ _ H) as [Hshape _].
  split; [by eapply square_of_shape|].
  unfold advect_right in H. apply np_zip_Ok in H as [Hs ->].
  intros i j Hi Hj.
  pose proof (square_row n array i Hsq Hi) as Hrow.
  pose proof Hsq as [Hlen _].
  assert (length (nth i (np_roll_cols array) []) = n) as Hrow'
    by (rewrite <- shape_nth, shape_np_roll_cols, shape_nth; exact Hrow).
  assert (length (np_roll_cols array) = n) as Hlen'
    by (unfold np_roll_cols; by rewrite length_map).
  rewrite cell_zip_with_shape; [|exact Hs| |].
  2:{ unfold np_scale. rewrite length_map. lia. }
  2:{ rewrite <- shape_nth, shape_np_scale, shape_nth. lia. }
  rewrite !cell_np_scale by lia.
  by rewrite (cell_roll_cols_wrap n).
Qed.

Lemma apply_convolution_periodic_witness :
  exists out,
    apply_convolution small_config (catalyst_upper bloom_ready)
                      (KERNEL_3x3 small_config) = Ok out /\
    square 3 out.
Proof.
  destruct (apply_convolution_periodic small_config
              (catalyst_upper bloom_ready) (KERNEL_3x3 small_config) 3)
    as (out & Hout & Hsq & _).
  - reflexivity.
  - lia.
  - exact (proj1 (proj2 (proj2 (proj2 sim_wf_bloom_ready)))).
  - exact (proj1 kernel_ok_small).
  - exists out. by split.
Defined.

Lemma advect_right_periodic_witness :
  exists r,
    advect_right (catalyst_upper bloom_ready) (5 # 100) = Ok r /\
    cell r 0 0
    = (cell (catalyst_upper bloom_ready) 0 0 * (1 - (5 # 100))
       + cell (catalyst_upper bloom_ready) 0 2 * (5 # 100))%Q.
Proof.
  destruct (advect_right_periodic 3 (catalyst_upper bloom_ready) (5 # 100))
    as (r & Hr & _ & Hcell).
  - lia.
  - exact (proj1 (proj2 (proj2 (proj2 sim_wf_bloom_ready)))).
  - exists r. split; [exact Hr|]. apply (Hcell 0%nat 0%nat); lia.
Defined.

(** ** The transform of a tick, cell by cell *)

(** The collection transform in the words of the specification.  The lift:
    the lower layer is added to the upper one. *)
Definition lifted (upper lower : list (list Q)) (i j : nat) : Q :=
  (cell upper i j + cell lower i j)%Q.

(** The convolution: every cell becomes the sum of its 3 x 3 neighbourhood on
    the torus, weighted by the kernel. *)
Definition diffused (n : nat) (kernel upper lower : list (list Q))
    (i j : nat) : Q :=
  bigsum 3 (fun a => bigsum 3 (fun b =>
    lifted upper lower ((i + a + n - 1) mod n)%nat ((j + b + n - 1) mod n)%nat
    * cell kernel a b))%Q.

(** The advection: every cell keeps [1 - alpha] of itself and receives
    [alpha] of its left neighbour on the torus. *)
Definition advected (n : nat) (alpha : Q) (field : nat -> nat -> Q)
    (i j : nat) : Q :=
  (field i j * (1 - alpha) + field i ((j + n - 1) mod n)%nat * alpha)%Q.

Lemma advect_right_cells n array alpha r :
  (0 < n)%nat -> square n array ->
  advect_right array alpha = Ok r ->
  forall i j, (i < n)%nat -> (j < n)%nat ->
    cell r i j
    = (cell array i j * (1 - alpha)
       + cell array i ((j + n - 1) mod n)%nat * alpha)%Q.
Proof.
  intros Hn Hsq H. unfold advect_right in H. apply np_zip_Ok in H as [Hs ->].
  intros i j Hi Hj.
  pose proof (square_row n array i Hsq Hi) as Hrow.
  pose proof Hsq as [Hlen _].
  assert (length (nth i (np_roll_cols array) []) = n) as Hrow'
    by (rewrite <- shape_nth, shape_np_roll_cols, shape_nth; exact Hrow).
  assert (length (np_roll_cols array) = n) as Hlen'
    by (unfold np_roll_cols; by rewrite length_map).
  rewrite cell_zip_with_shape; [|exact Hs| |].
  2:{ unfold np_scale. rewrite length_map. lia. }
  2:{ rewrite <- shape_nth, shape_np_scale, shape_nth. lia. }
  rewrite !cell_np_scale by lia.
  by rewrite (cell_roll_cols_wrap n).
Qed.

Lemma collect_transform_cells cfg n upper lower upper' lower' :
  GRID_SIZE cfg = Z.of_nat n -> (0 < n)%nat ->
  square n upper -> square n lower -> square 3 (KERNEL_3x3 cfg) ->
  collect_transform cfg upper lower = Ok (upper', lower') ->
  forall i j, (i < n)%nat -> (j < n)%nat ->
    cell lower' i j = 0%Q /\
    (cell upper' i j ==
     advected n (ADVECT_ALPHA cfg) (diffused n (KERNEL_3x3 cfg) upper lower)
              i j)%Q.
Proof.
  intros HG Hn Hu Hl Hk H. unfold collect_transform in H.
  inv_bind H as upper1 E1. inv_bind H as upper2 E2. inv_bind H as upper3 E3.
  injection H as <- <-.
  apply np_zip_Ok in E1 as [Hs ->].
  assert (square n (zip_with (zip_with Qplus) upper lower)) as Hsq1
    by (eapply square_of_shape; [by apply shape_zip_with|exact Hu]).
  destruct (apply_convolution_cells cfg _ (KERNEL_3x3 cfg) n HG Hn Hsq1 Hk)
    as (out & Eout & Hsq2 & Hcells).
  rewrite Eout in E2. injection E2 as ->.
  assert (forall p q, (p < n)%nat -> (q < n)%nat ->
            (cell upper2 p q
             == diffused n (KERNEL_3x3 cfg) upper lower p q)%Q) as Hdiff.
  { intros p q Hp Hq. rewrite Hcells by assumption.
    rewrite (conv_cell_sum n) by assumption. unfold diffused, lifted.
    apply bigsum_ext. intros a _. apply bigsum_ext. intros b _.
    rewrite !wrap_index by assumption.
    rewrite (cell_zip_with Qplus n n)
      by (assumption || (apply Nat.mod_upper_bound; lia)).
    reflexivity. }
  intros i j Hi Hj. split; [apply cell_zeros_like|].
  rewrite (advect_right_cells n _ _ _ Hn Hsq2 E3 i j Hi Hj). unfold advected.
  rewrite (Hdiff i j Hi Hj).
  rewrite (Hdiff i ((j + n - 1) mod n)%nat Hi)
    by (apply Nat.mod_upper_bound; lia).
  reflexivity.
Qed.

Section TickTransform.
Context {rng_state : Type} {RS : RandomStream rng_state}.
#[local] Abbreviation Sim := (@Simulation rng_state).

(** C8. A call of [step] that returns has taken the tick counter up by
    exactly one; the mode it reports is emission exactly when the new tick
    is even, so the first step (tick 1) is a collection step; and the
    catalyst layers after the call are those of the transform of that mode.
    On an emission tick every cell moves the fraction [EMIT_FRACTION] of the
    upper layer to the lower one.  On a collection tick, on [n] x [n] layers
    with [n = GRID_SIZE >= 1] and a 3 x 3 kernel, every cell of the lower
    layer is 0 afterwards and every cell of the upper layer holds the lifted
    field [upper + lower], diffused by the kernel on the torus and then
    advected to the right with the fraction [ADVECT_ALPHA]. *)
Theorem step_tick_mode_transform fuel cfg (s s' : Sim) st :
  step fuel cfg s = Ok (s', st) ->
  tick s' = tick s + 1 /\
  stats_tick st = tick s + 1 /\
  stats_emit_mode st = ((tick s + 1) mod 2 =? 0) /\
  (tick s = 0 -> stats_emit_mode st = false) /\
  (if stats_emit_mode st
   then emit_transform cfg (catalyst_upper s) (catalyst_lower s)
   else collect_transform cfg (catalyst_upper s) (catalyst_lower s))
  = Ok (catalyst_upper s', catalyst_lower s') /\
  (stats_emit_mode st = true ->
   forall i j,
     (i < length (catalyst_upper s))%nat ->
     (j < length (nth i (catalyst_upper s) []))%nat ->
     cell (catalyst_lower s') i j
     = (cell (catalyst_lower s) i j
        + cell (catalyst_upper s) i j * EMIT_FRACTION cfg)%Q /\
     cell (catalyst_upper s') i j
     = (cell (catalyst_upper s) i j
        - cell (catalyst_upper s) i j * EMIT_FRACTION cfg)%Q) /\
  (stats_emit_mode st = false ->
   forall n, catalyst_wf cfg n s -> square 3 (KERNEL_3x3 cfg) ->
   forall i j, (i < n)%nat -> (j < n)%nat ->
     cell (catalyst_lower s') i j = 0%Q /\
     (cell (catalyst_upper s') i j ==
      advected n (ADVECT_ALPHA cfg)
        (diffused n (KERNEL_3x3 cfg) (catalyst_upper s) (catalyst_lower s))
        i j)%Q).
Proof.
  unfold step. intros H.
  inv_bind H as [em s1] E1. inv_bind H as [blooms s2] E2.
  injection H as <- <-. cbn [stats_tick stats_emit_mode].
  apply step_fields_spec in E1 as (Hem & Htick & Htr & _).
  apply update_cores_fields in E2 as (_ & Ht2 & _ & Hu2 & Hl2).
  rewrite Ht2, Hu2, Hl2, Htick.
  split; [reflexivity|]. split; [reflexivity|]. split; [assumption|].
  split; [by intros H0; rewrite Hem, H0|]. split; [assumption|]. split.
  - intros Hemit i j Hi Hj. rewrite Hemit in Htr.
    by apply (emit_transform_cells cfg _ _ _ _ i j Htr).
  - intros Hcollect n (HG & Hn & Hu & Hl) Hk i j Hi Hj.
    rewrite Hcollect in Htr.
    by apply (collect_transform_cells cfg n _ _ _ _ HG Hn Hu Hl Hk Htr).
Qed.

End TickTransform.

Lemma step_fresh_42 :
  step 10 small_config fresh_42
  = Ok (fresh_42_stepped.1, hd after_bloom.2 fresh_42_stepped.2).
Proof. vm_compute. reflexivity. Qed.

Lemma catalyst_wf_fresh_42 : catalyst_wf small_config 3 fresh_42.
Proof.
  unfold catalyst_wf, square.
  split; [reflexivity|]. split; [lia|].
  split; (split; [reflexivity|vm_compute; by repeat constructor]).
Qed.

Lemma step_tick_mode_transform_witness :
  (step 10 small_config bloom_ready = Ok after_bloom /\
   tick after_bloom.1 = 2 /\
   stats_tick after_bloom.2 = 2 /\
   stats_emit_mode after_bloom.2 = true /\
   emit_transform small_config (catalyst_upper bloom_ready)
                  (catalyst_lower bloom_ready)
   = Ok (catalyst_upper after_bloom.1, catalyst_lower after_bloom.1)) /\
  (step 10 small_config fresh_42
   = Ok (fresh_42_stepped.1, hd after_bloom.2 fresh_42_stepped.2) /\
   tick fresh_42_stepped.1 = 1 /\
   stats_emit_mode (hd after_bloom.2 fresh_42_stepped.2) = false /\
   cell (catalyst_lower fresh_42_stepped.1) 1 2 = 0%Q /\
   (cell (catalyst_upper fresh_42_stepped.1) 1 2 ==
    advected 3 (ADVECT_ALPHA small_config)
      (diffused 3 (KERNEL_3x3 small_config) (catalyst_upper fresh_42)
                (catalyst_lower fresh_42)) 1 2)%Q).
Proof.
  split.
  - split; [exact step_bloom_ready|].
    destruct (step_tick_mode_transform 10 small_config bloom_ready
                after_bloom.1 after_bloom.2 step_bloom_ready)
      as (Ht & Hst & Hem & _ & Htr & _).
    change ((tick bloom_ready + 1) mod 2 =? 0) with true in Hem.
    rewrite Hem in Htr. by repeat split.
  - split; [exact step_fresh_42|].
    destruct (step_tick_mode_transform 10 small_config fresh_42
                fresh_42_stepped.1 (hd after_bloom.2 fresh_42_stepped.2)
                step_fresh_42)
      as (Ht & _ & Hem & _ & _ & _ & Hcollect).
    split; [exact Ht|]. split; [reflexivity|].
    apply (Hcollect eq_refl 3%nat catalyst_wf_fresh_42 (proj1 kernel_ok_small));
      lia.
Defined.
